(** * LinkedIn ad-library scraper: pagination walker, asset identity,
      deduplicating asset fetcher, detail-page text cleaning.

    Shallow embedding of
      - [src/14_linkedin_single_asset_scraper.py]
        ([_normalize_pagination_token], [extract_ad_ids_from_html],
         [scrape_search_pages], the text and ad-type steps of
         [scrape_ad_detail_with_bs4]);
      - [src/9_linkedin_complete_scraper.py]
        ([_normalize_url], [_get_video_base_path], [_is_duplicate_asset],
         [_generate_filename], [_download_ad_assets_with_dedup]).

    Conventions.  A Python [str] is a Rocq [string]; a character is its code
    point, so the embedding is exact for strings whose code points are below
    256.  A Python [int] is a [Z].  [None] is [None]; a raised exception is the
    [None] of an [option] result or an explicit [Raise] outcome.  The network,
    [hashlib] and the [ipaddress] check inside [urllib.parse] are interfaces
    (records and a type class) of which the code is a client. *)

From Stdlib Require Import ZArith Ascii String List Bool Lia DecimalString.
From stdpp Require Import gmap strings list.

(** ** Part I.  The embedding *)

(** *** Python strings *)

Module Py.

Definition ord (c : ascii) : N := N_of_ascii c.

Definition in_range (lo hi : N) (c : ascii) : bool :=
  ((lo <=? ord c) && (ord c <=? hi))%N.

(** [\d] of [re] and the decimal digits of [int()]: on code points below 256
    these are exactly ['0'..'9']. *)
Definition is_digit (c : ascii) : bool := in_range 48 57 c.

Definition digit_val (c : ascii) : Z := Z.of_N (ord c) - 48.

Definition is_upper (c : ascii) : bool := in_range 65 90 c.
Definition is_lower (c : ascii) : bool := in_range 97 122 c.
Definition is_alpha (c : ascii) : bool := is_upper c || is_lower c.

(** [str.lower()], one character: ['A'..'Z'] and the Latin-1 capitals
    [0xC0..0xDE] except [0xD7] move up by 32. *)
Definition chr_lower (c : ascii) : ascii :=
  if is_upper c || (in_range 192 222 c && negb (ord c =? 215)%N)
  then ascii_of_N (ord c + 32) else c.

Fixpoint lower (s : string) : string :=
  match s with
  | EmptyString => EmptyString
  | String c s' => String (chr_lower c) (lower s')
  end.

(** [sub in s] *)
Fixpoint contains (sub s : string) : bool :=
  match s with
  | EmptyString => String.prefix sub EmptyString
  | String _ s' => String.prefix sub s || contains sub s'
  end.

(** [s.startswith(p)] *)
Definition startswith (p s : string) : bool := String.prefix p s.

(** [s.split(sep)] for a one-character separator; the result is never
    empty. *)
Fixpoint split (sep : ascii) (s : string) : list string :=
  match s with
  | EmptyString => [EmptyString]
  | String c s' =>
      if Ascii.eqb c sep then EmptyString :: split sep s'
      else match split sep s' with
           | h :: t => String c h :: t
           | [] => [String c EmptyString]
           end
  end.

(** [s.split(sep, 1)] when [sep in s], as a pair; [(s, "")] otherwise. *)
Fixpoint split_once (sep : ascii) (s : string) : string * string :=
  match s with
  | EmptyString => (EmptyString, EmptyString)
  | String c s' =>
      if Ascii.eqb c sep then (EmptyString, s')
      else let '(a, b) := split_once sep s' in (String c a, b)
  end.

Fixpoint lstrip (P : ascii -> bool) (s : string) : string :=
  match s with
  | EmptyString => EmptyString
  | String c s' => if P c then lstrip P s' else s
  end.

Fixpoint rstrip (P : ascii -> bool) (s : string) : string :=
  match s with
  | EmptyString => EmptyString
  | String c s' =>
      match rstrip P s' with
      | EmptyString => if P c then EmptyString else String c EmptyString
      | r => String c r
      end
  end.

(** Removes every occurrence of the characters selected by [P]
    ([s.replace(b, "")] for each such one-character [b]). *)
Fixpoint remove_chars (P : ascii -> bool) (s : string) : string :=
  match s with
  | EmptyString => EmptyString
  | String c s' => if P c then remove_chars P s' else String c (remove_chars P s')
  end.

(** [s[:n]] *)
Fixpoint take (n : nat) (s : string) : string :=
  match n, s with
  | S k, String c s' => String c (take k s')
  | _, _ => EmptyString
  end.

(** [s[n:]] *)
Fixpoint drop (n : nat) (s : string) : string :=
  match n, s with
  | S k, String _ s' => drop k s'
  | _, _ => s
  end.

(** [sep.join(l)] *)
Definition join (sep : string) (l : list string) : string := String.concat sep l.

(** Whitespace that [int()] skips around a literal (code points below
    256). *)
Definition is_int_space (c : ascii) : bool :=
  in_range 9 13 c || (ord c =? 32)%N || (ord c =? 133)%N || (ord c =? 160)%N.

(** Decimal digits with single underscores between digits; returns the value
    and the number of digits. *)
Fixpoint digits_value (acc : Z) (count : nat) (prev_digit : bool) (s : string)
  : option (Z * nat) :=
  match s with
  | EmptyString => if prev_digit then Some (acc, count) else None
  | String c s' =>
      if is_digit c then digits_value (10 * acc + digit_val c) (S count) true s'
      else if Ascii.eqb c "_" then
        (if prev_digit then digits_value acc count false s' else None)
      else None
  end.

(** CPython's default for [sys.get_int_max_str_digits()]. *)
Definition int_max_str_digits : nat := 4300.

(** [int(s)] in base 10; [None] stands for [ValueError]. *)
Definition int (s : string) : option Z :=
  let t := rstrip is_int_space (lstrip is_int_space s) in
  let '(sign, body) :=
    match t with
    | String "+" r => (1%Z, r)
    | String "-" r => ((-1)%Z, r)
    | _ => (1%Z, t)
    end in
  match digits_value 0 0 false body with
  | Some (n, count) =>
      if (count <=? int_max_str_digits)%nat then Some (sign * n)%Z else None
  | None => None
  end.

End Py.

(** *** Pagination tokens ([src/14_linkedin_single_asset_scraper.py]) *)

(** The first component of the pair returned by
    [_normalize_pagination_token], with the value it carries: ["api"] with an
    optional token, ["offset"] with an integer. *)
Inductive PaginationMode : Type :=
  | Api (value : option string)
  | Offset (value : Z).

(** [if not token] on an [Optional[str]]: [None] and [""] are falsy. *)
Definition truthy (token : option string) : bool :=
  match token with
  | Some (String _ _) => true
  | _ => false
  end.

Definition _normalize_pagination_token (token : option string) : PaginationMode :=
  match token with
  | None => Api None
  | Some EmptyString => Api None
  | Some t =>
      if Py.contains "#" t then
        match Py.int (hd EmptyString (Py.split "#" t)) with
        | Some offset => Offset offset
        | None => Api (Some t)
        end
      else Api (Some t)
  end.

(** *** Regular expressions

    The patterns of the source are concatenations of literals and greedy
    character classes in which no class can match the first character of what
    follows it, so a match is found without backtracking.  A matcher is
    anchored at the start of its argument and returns the text after the
    match; [findall] and [sub] scan from left to right for non-overlapping
    matches, as [re.findall] and [re.sub] do. *)

Module Re.

(** The longest prefix of characters in the class [P], and the rest. *)
Fixpoint span (P : ascii -> bool) (s : string) : string * string :=
  match s with
  | EmptyString => (EmptyString, EmptyString)
  | String c s' =>
      if P c then let '(a, r) := span P s' in (String c a, r)
      else (EmptyString, s)
  end.

(** A literal. *)
Definition lit (l s : string) : option string :=
  if String.prefix l s then Some (Py.drop (String.length l) s) else None.

(** [[class]+], returning the matched text and the rest. *)
Definition many1 (P : ascii -> bool) (s : string) : option (string * string) :=
  match span P s with
  | (EmptyString, _) => None
  | (a, r) => Some (a, r)
  end.

(** [re.findall] for a pattern with one group: [m] returns the group and the
    text after the match.  [skip] characters of an earlier match are still to
    be passed over. *)
Fixpoint findall_from (m : string -> option (string * string)) (skip : nat)
  (s : string) : list string :=
  match s with
  | EmptyString => []
  | String _ s' =>
      match skip with
      | S k => findall_from m k s'
      | O =>
          match m s with
          | Some (g, rest) =>
              g :: findall_from m (String.length s - String.length rest - 1) s'
          | None => findall_from m 0 s'
          end
      end
  end.

Definition findall (m : string -> option (string * string)) (s : string)
  : list string := findall_from m 0 s.

(** [re.sub(pattern, repl, s)] for a literal replacement. *)
Fixpoint sub_from (m : string -> option string) (repl : string) (skip : nat)
  (s : string) : string :=
  match s with
  | EmptyString => EmptyString
  | String c s' =>
      match skip with
      | S k => sub_from m repl k s'
      | O =>
          match m s with
          | Some rest =>
              repl +:+ sub_from m repl (String.length s - String.length rest - 1) s'
          | None => String c (sub_from m repl 0 s')
          end
      end
  end.

Definition sub (m : string -> option string) (repl s : string) : string :=
  sub_from m repl 0 s.

End Re.

(** *** Listing pages and the pagination walker
    ([src/14_linkedin_single_asset_scraper.py]) *)

(** [r'/ad-library/detail/(\d+)'] *)
Definition detail_link (s : string) : option (string * string) :=
  match Re.lit "/ad-library/detail/" s with
  | Some r => Re.many1 Py.is_digit r
  | None => None
  end.

Definition extract_ad_ids_from_html (html_fragment : string) : list string :=
  let matches := Re.findall detail_link html_fragment in
  snd (fold_left
         (fun '(seen, ad_ids) ad_id =>
            if decide (ad_id ∈ (seen : gset string)) then (seen, ad_ids)
            else ({[ad_id]} ∪ seen, ad_ids ++ [ad_id]))
         matches (∅, [])).

(** A non-empty response dictionary: [data.get("html", "")] and
    [data.get("paginationToken")]. *)
Record PageData : Type := {
  html : string;
  paginationToken : option string
}.

(** The listing service as the walker sees it: [fetch_api_page] and
    [fetch_offset_page] are requests to a remote whose state (and that of the
    session, cookies, proxies) is [Remote]; [None] is a failed fetch. *)
Record Endpoint : Type := {
  Remote : Type;
  fetch_api_page : string -> option string -> Remote -> option PageData * Remote;
  fetch_offset_page : string -> Z -> Remote -> option PageData * Remote
}.

(** Why the [while] loop of [scrape_search_pages] was left: its condition
    failed, or one of its [break]s, in the order of the source. *)
Inductive Stop : Type :=
  | TargetReached     (* len(all_ad_ids) >= max_results *)
  | TokenSeen         (* "Token already seen! Possible infinite loop." *)
  | FetchFailed       (* "Failed to fetch page, stopping" *)
  | NoHtml            (* "No HTML fragment in response, stopping" *)
  | EndOfResults      (* "Reached end of results" *)
  | NoNewAds          (* "Stopping: no new ads and token already seen" *)
  | SameToken         (* "Next token is same as current token." *)
  | NoMorePages       (* "No more pages available" *)
  | SafetyLimit.      (* "Safety limit reached (100 pages)." *)

Section Walker.

Context (E : Endpoint) (account_owner : string) (max_results : Z).

(** The local variables of [scrape_search_pages], the remote, and two logs
    kept for the statements below: the value of [pagination_token] at each
    fetch, and the ids extracted from each page that had an HTML fragment. *)
Record Walk : Type := {
  all_ad_ids : list string;
  pagination_token : option string;
  page_num : Z;
  seen_tokens : gset string;
  remote : Remote E;
  fetched : list (option string);
  page_ids : list (list string)
}.

Definition in_seen (token : option string) (seen : gset string) : bool :=
  match token with
  | Some t => bool_decide (t ∈ seen)
  | None => false
  end.

(** The inner [for ad_id in ad_ids] loop; once the target is reached the
    [break] leaves the rest of the page untouched. *)
Definition add_ids (all ad_ids : list string) : list string :=
  fold_left
    (fun all ad_id =>
       if (Z.of_nat (length all) >=? max_results)%Z then all
       else if decide (ad_id ∈ all) then all
       else all ++ [ad_id])
    ad_ids all.

(** From [next_token = data.get("paginationToken")] to the end of the loop
    body. *)
Definition advance (w : Walk) (next_token : option string) : Walk * option Stop :=
  if decide (next_token = pagination_token w) then (w, Some SameToken)
  else
    let w := {| all_ad_ids := all_ad_ids w; pagination_token := next_token;
                page_num := page_num w; seen_tokens := seen_tokens w;
                remote := remote w; fetched := fetched w;
                page_ids := page_ids w |} in
    if negb (truthy next_token) then (w, Some NoMorePages)
    else
      let w := {| all_ad_ids := all_ad_ids w; pagination_token := next_token;
                  page_num := page_num w + 1; seen_tokens := seen_tokens w;
                  remote := remote w; fetched := fetched w;
                  page_ids := page_ids w |} in
      if (page_num w >? 100)%Z then (w, Some SafetyLimit)
      else (w, None).

(** One pass through the body of the [while] loop. *)
Definition body (w : Walk) : Walk * option Stop :=
  let token := pagination_token w in
  if truthy token && in_seen token (seen_tokens w) then (w, Some TokenSeen)
  else
    let seen :=
      match token with
      | Some t => if truthy token then {[t]} ∪ seen_tokens w else seen_tokens w
      | None => seen_tokens w
      end in
    let '(data, remote') :=
      match _normalize_pagination_token token with
      | Api value => fetch_api_page E account_owner value (remote w)
      | Offset value => fetch_offset_page E account_owner value (remote w)
      end in
    let w1 := {| all_ad_ids := all_ad_ids w; pagination_token := token;
                 page_num := page_num w; seen_tokens := seen;
                 remote := remote'; fetched := fetched w ++ [token];
                 page_ids := page_ids w |} in
    match data with
    | None => (w1, Some FetchFailed)
    | Some data =>
        match html data with
        | EmptyString => (w1, Some NoHtml)
        | html_fragment =>
            let ad_ids := extract_ad_ids_from_html html_fragment in
            let w2 := {| all_ad_ids := add_ids (all_ad_ids w) ad_ids;
                         pagination_token := token;
                         page_num := page_num w; seen_tokens := seen;
                         remote := remote'; fetched := fetched w ++ [token];
                         page_ids := page_ids w ++ [ad_ids] |} in
            match ad_ids with
            | [] =>
                if negb (truthy (paginationToken data)) then (w2, Some EndOfResults)
                else advance w2 (paginationToken data)
            | _ =>
                let ads_added :=
                  (Z.of_nat (length (all_ad_ids w2))
                   - Z.of_nat (length (all_ad_ids w)))%Z in
                if (ads_added =? 0)%Z && (truthy token && in_seen token seen)
                then (w2, Some NoNewAds)
                else advance w2 (paginationToken data)
            end
        end
    end.

(** The [while len(all_ad_ids) < max_results] loop, run for at most [fuel]
    passes; [None] as a stop means that the passes were used up. *)
Fixpoint loop (fuel : nat) (w : Walk) : Walk * option Stop :=
  match fuel with
  | O => (w, None)
  | S k =>
      if (Z.of_nat (length (all_ad_ids w)) <? max_results)%Z then
        match body w with
        | (w', Some stop) => (w', Some stop)
        | (w', None) => loop k w'
        end
      else (w, Some TargetReached)
  end.

Definition start (r : Remote E) : Walk :=
  {| all_ad_ids := []; pagination_token := None; page_num := 1;
     seen_tokens := ∅; remote := r; fetched := []; page_ids := [] |}.

(** [scrape_search_pages]: the final state of the walk, whose [all_ad_ids] is
    the returned list, and the reason of the stop.  The page counter bounds
    the passes by 100 ([walk_fuel_enough] below), so the fuel is never used
    up. *)
Definition scrape_search_pages (r : Remote E) : Walk * option Stop :=
  loop 100 (start r).

End Walker.

Arguments all_ad_ids {E} _.
Arguments pagination_token {E} _.
Arguments page_num {E} _.
Arguments seen_tokens {E} _.
Arguments remote {E} _.
Arguments fetched {E} _.
Arguments page_ids {E} _.

(** First-seen order without duplicates. *)
Fixpoint uniq (l : list string) : list string :=
  match l with
  | [] => []
  | x :: l' => x :: filter (fun y => y <> x) (uniq l')
  end.

(** A scripted listing service: it serves the given pages one after the
    other, whatever it is asked, and fails when they are used up. *)
Definition scripted : Endpoint :=
  {| Remote := list PageData;
     fetch_api_page := fun _ _ r =>
       match r with [] => (None, []) | p :: r' => (Some p, r') end;
     fetch_offset_page := fun _ _ r =>
       match r with [] => (None, []) | p :: r' => (Some p, r') end |}.

(** Pages of a scripted service. *)
Definition page_of (ids : list string) (token : option string) : PageData :=
  {| html := Py.join " " (map (fun i => "<a href='/ad-library/detail/" +:+ i +:+ "'>") ids);
     paginationToken := token |}.

Definition ids_from (first count : nat) : list string :=
  map (fun k => NilEmpty.string_of_uint (Nat.to_uint (first + k))) (seq 0 count).

(** Twelve ids and a token, then eight more ids and no token. *)
Definition twelve_then_eight : list PageData :=
  [ page_of (ids_from 1 12) (Some "12#12"); page_of (ids_from 13 8) None ].

(** The first [k] pages of a walk carry at least [k * ipp] distinct ids, for
    every [k]: each page brings at least [ipp] ids that no earlier page
    had. *)
Definition productive (ipp : nat) (pages : list (list string)) : Prop :=
  forall k, k <= length pages ->
    k * ipp <= length (uniq (concat (take k pages))).

(** What holds of the walk after any number of passes. *)
Record WalkInv {E : Endpoint} (max_results : Z) (w : Walk E) : Prop := {
  inv_ids :
    all_ad_ids w = take (Z.to_nat max_results) (uniq (concat (page_ids w)));
  inv_nodup : NoDup (fetched w);
  inv_seen :
    forall t, truthy (Some t) = true -> Some t ∈ fetched w -> t ∈ seen_tokens w;
  inv_pages :
    length (page_ids w) <= length (fetched w) <= S (length (page_ids w));
  inv_count : length (fetched w) <= 100;
  inv_last :
    fetched w = [] \/
    (Z.of_nat (length (take (Z.to_nat max_results)
       (uniq (concat (take (length (fetched w) - 1) (page_ids w))))))
     < max_results)%Z
}.

(** What holds in addition when the [while] condition is about to be
    tested. *)
Record AtHead {E : Endpoint} (w : Walk E) : Prop := {
  head_page_num : page_num w = (Z.of_nat (length (fetched w)) + 1)%Z;
  head_limit : (page_num w <= 100)%Z;
  head_pages : length (page_ids w) = length (fetched w);
  head_token : fetched w = [] \/ truthy (pagination_token w) = true
}.

(** *** Detail pages ([scrape_ad_detail_with_bs4],
    [src/14_linkedin_single_asset_scraper.py]) *)

(** The phrases of the [skip] list.  The eleventh starts with the character
    U+2026, written here as its UTF-8 bytes; every text that contains it
    contains the tenth, so the choice of its encoding does not change
    [is_boilerplate]. *)
Definition boilerplate : list string :=
  [ "cookie"; "privacy"; "policy"; "about";
    "linkedin corporation"; "please note";
    "terms of service"; "ad details";
    "view details"; "see more"; "…see more";
    "sign in"; "sign up"; "join now" ].

(** [any(skip in text.lower() for skip in [...])] *)
Definition is_boilerplate (text : string) : bool :=
  existsb (fun skip => Py.contains skip (Py.lower text)) boilerplate.

(** The condition under which a candidate [text] joins [ad_text_parts]. *)
Definition keeps_text (seen_texts : gset string) (text : string) : bool :=
  negb (String.eqb text "")
  && (10 <? String.length text) && (String.length text <? 2000)
  && negb (bool_decide (text ∈ seen_texts))
  && negb (is_boilerplate text).

(** The two nested loops over [content_selectors] and [elements[:10]]:
    [texts] are the values [elem.get_text(strip=True)] in the order in which
    the loops produce them. *)
Definition collect_text_parts (texts : list string) : list string :=
  snd (fold_left
         (fun '(seen_texts, ad_text_parts) text =>
            if keeps_text seen_texts text
            then ({[text]} ∪ seen_texts, ad_text_parts ++ [text])
            else (seen_texts, ad_text_parts))
         texts (∅, [])).

(** The loop that fills [unique_texts]. *)
Definition unique_texts (ad_text_parts : list string) : list string :=
  fold_left
    (fun unique text =>
       if existsb (fun existing =>
                     Py.contains text existing || Py.contains existing text) unique
       then unique else unique ++ [text])
    ad_text_parts [].

(** The blocks that make up [ad_detail["ad_text"]]: [unique_texts[:5]]. *)
Definition kept_texts (texts : list string) : list string :=
  take 5 (unique_texts (collect_text_parts texts)).

(** No block is a substring of another one, in the order of the list. *)
Definition apart (l : list string) : Prop :=
  forall i j ti tj, i < j -> l !! i = Some ti -> l !! j = Some tj ->
    Py.contains ti tj = false /\ Py.contains tj ti = false.

Definition newline : string := String (ascii_of_nat 10) EmptyString.

(** [ad_detail["ad_text"]] *)
Definition ad_text (texts : list string) : option string :=
  match collect_text_parts texts with
  | [] => None
  | _ => Some (Py.join (newline +:+ newline) (kept_texts texts))
  end.

(** [ad_detail["assets"]] *)
Record Assets : Type := {
  images : list string;
  videos : list string;
  posters : list string
}.

Definition no_assets : Assets := {| images := []; videos := []; posters := [] |}.

(** The two entries of [ad_detail] that the ad-type step touches. *)
Record AdDetail : Type := {
  ad_type : option string;
  assets : Assets
}.

(** The [if not ad_detail["ad_type"]] block: the asset-shape heuristics, on
    the assets that [ad_detail] holds at that point. *)
Definition infer_ad_type (ad_detail : AdDetail) : AdDetail :=
  if truthy (ad_type ad_detail) then ad_detail
  else
    let a := assets ad_detail in
    match videos a, images a with
    | _ :: _, _ => {| ad_type := Some "Video Ad"; assets := a |}
    | [], _ :: _ :: _ => {| ad_type := Some "Carousel Ad"; assets := a |}
    | [], [_] => {| ad_type := Some "Image Ad"; assets := a |}
    | [], [] => ad_detail
    end.

(** The ad-type and asset steps of [scrape_ad_detail_with_bs4], in the order
    of the source: [ad_detail] is created with empty asset lists; [marker] is
    [match.group(1)] of the first of [ad_type_patterns] found in the page
    text, if any; then comes the heuristic block; and only then
    [ad_detail["assets"] = self._extract_assets_with_bs4(soup)], whose result
    is [extracted]. *)
Definition detail_type_and_assets (marker : option string) (extracted : Assets)
  : AdDetail :=
  let ad_detail := {| ad_type := None; assets := no_assets |} in
  let ad_detail :=
    match marker with
    | Some m => {| ad_type := Some m; assets := assets ad_detail |}
    | None => ad_detail
    end in
  let ad_detail := infer_ad_type ad_detail in
  {| ad_type := ad_type ad_detail; assets := extracted |}.

(** The ad-type fallback as the specification words it, for comparison:
    without an explicit marker the type follows from the assets discovered
    on the page. *)
Definition spec_ad_type (marker : option string) (extracted : Assets)
  : option string :=
  match marker with
  | Some m => Some m
  | None =>
      match videos extracted, images extracted with
      | _ :: _, _ => Some "Video Ad"
      | [], _ :: _ :: _ => Some "Carousel Ad"
      | [], [_] => Some "Image Ad"
      | [], [] => None
      end
  end.

(** *** What the code uses of its libraries

    [urllib.parse] validates a bracketed host with the [ipaddress] module,
    and [_generate_filename] hashes with [hashlib]; both are taken as given.
    [check_bracketed_netloc netloc] says that
    [urllib.parse._check_bracketed_netloc(netloc)] returns without
    [ValueError] (always, before CPython 3.11.4); [md5_hexdigest s] is
    [hashlib.md5(s.encode()).hexdigest()]. *)
Class Library : Type := {
  check_bracketed_netloc : string -> bool;
  md5_hexdigest : string -> string
}.

(** *** [urllib.parse.urlparse] (CPython 3.11), for [str] arguments *)

Module Url.

Record ParseResult : Type := {
  scheme : string;
  netloc : string;
  path : string;
  params : string;
  query : string;
  fragment : string
}.

(** [_WHATWG_C0_CONTROL_OR_SPACE] *)
Definition is_c0_control_or_space (c : ascii) : bool := (Py.ord c <=? 32)%N.

(** [_UNSAFE_URL_BYTES_TO_REMOVE]: tab, carriage return, line feed. *)
Definition is_unsafe (c : ascii) : bool :=
  (Py.ord c =? 9)%N || (Py.ord c =? 13)%N || (Py.ord c =? 10)%N.

(** [scheme_chars] *)
Definition is_scheme_char (c : ascii) : bool :=
  Py.is_alpha c || Py.is_digit c
  || Ascii.eqb c "+" || Ascii.eqb c "-" || Ascii.eqb c ".".

Fixpoint all_chars (P : ascii -> bool) (s : string) : bool :=
  match s with
  | EmptyString => true
  | String c s' => P c && all_chars P s'
  end.

(** The scheme test of [urlsplit]: [i = url.find(':')], [i > 0], an ASCII
    letter first and only [scheme_chars] before the colon. *)
Definition split_scheme (url : string) : string * string :=
  if Py.contains ":" url then
    let '(before, after) := Py.split_once ":" url in
    match before with
    | String c _ =>
        if Py.is_alpha c && all_chars is_scheme_char before
        then (Py.lower before, after)
        else (EmptyString, url)
    | EmptyString => (EmptyString, url)
    end
  else (EmptyString, url).

Definition is_netloc_delim (c : ascii) : bool :=
  Ascii.eqb c "/" || Ascii.eqb c "?" || Ascii.eqb c "#".

(** [_splitnetloc(url, 2)] *)
Definition splitnetloc (url : string) : string * string :=
  Re.span (fun c => negb (is_netloc_delim c)) (Py.drop 2 url).

Section Parse.

Context `{Library}.

(** The two bracket tests of [urlsplit]; [false] stands for
    [ValueError]. *)
Definition netloc_ok (netloc : string) : bool :=
  let open := Py.contains "[" netloc in
  let close := Py.contains "]" netloc in
  if (open && negb close) || (close && negb open) then false
  else if open && close then check_bracketed_netloc netloc
  else true.

(** [urlsplit(url)]: scheme, netloc, path, query, fragment.
    [_checknetloc] is left out: it raises only when the NFKC form of a
    non-ASCII netloc contains one of [/?#@:], which no code point below 256
    brings about. *)
Definition urlsplit (url : string)
  : option (string * string * string * string * string) :=
  let url := Py.lstrip is_c0_control_or_space url in
  let url := Py.remove_chars is_unsafe url in
  let '(scheme, url) := split_scheme url in
  let '(netloc, url) :=
    if Py.startswith "//" url then splitnetloc url else (EmptyString, url) in
  if negb (netloc_ok netloc) then None
  else
    let '(url, fragment) := Py.split_once "#" url in
    let '(url, query) := Py.split_once "?" url in
    Some (scheme, netloc, url, query, fragment).

End Parse.

Definition uses_params : list string :=
  [ ""; "ftp"; "hdl"; "prospero"; "http"; "imap";
    "https"; "shttp"; "rtsp"; "rtspu"; "sip"; "sips";
    "mms"; "sftp"; "tel" ].

(** The text up to and including the last [c], and the text after it; the
    first is empty when [c] does not occur. *)
Fixpoint rsplit_last (c : ascii) (s : string) : string * string :=
  match s with
  | EmptyString => (EmptyString, EmptyString)
  | String a s' =>
      match rsplit_last c s' with
      | (EmptyString, _) =>
          if Ascii.eqb a c then (String a EmptyString, s')
          else (EmptyString, s)
      | (d, l) => (String a d, l)
      end
  end.

(** [_splitparams(url)], called when [';' in url]. *)
Definition splitparams (url : string) : string * string :=
  let '(dir, last) := rsplit_last "/" url in
  if Py.contains ";" last then
    let '(a, b) := Py.split_once ";" last in (dir +:+ a, b)
  else (url, EmptyString).

(** [urlparse(url)]; [None] stands for [ValueError]. *)
Definition urlparse `{Library} (url : string) : option ParseResult :=
  match urlsplit url with
  | None => None
  | Some (scheme, netloc, url, query, fragment) =>
      let '(url, params) :=
        if bool_decide (scheme ∈ uses_params) && Py.contains ";" url
        then splitparams url else (url, EmptyString) in
      Some {| scheme := scheme; netloc := netloc; path := url;
              params := params; query := query; fragment := fragment |}
  end.

End Url.

(** *** Asset identity ([src/9_linkedin_complete_scraper.py]) *)

Section Identity.

Context `{Library}.

Definition _normalize_url (url : string) : string :=
  match Url.urlparse url with
  | Some parsed =>
      Url.scheme parsed +:+ "://" +:+ Url.netloc parsed +:+ Url.path parsed
  | None => url
  end.

(** A pattern as the sequence of its parts. *)
Definition pattern (parts : list (string -> option string)) (s : string)
  : option string :=
  fold_left (fun r m => match r with Some t => m t | None => None end)
            parts (Some s).

(** [class+] without the matched text. *)
Definition plus (P : ascii -> bool) (s : string) : option string :=
  option_map snd (Re.many1 P s).

Definition not_slash (c : ascii) : bool := negb (Ascii.eqb c "/").

(** [r'/mp4-\d+p-\d+fp-[^/]+/'] *)
Definition quality_profile_segment : string -> option string :=
  pattern [ Re.lit "/mp4-"; plus Py.is_digit; Re.lit "p-"; plus Py.is_digit;
            Re.lit "fp-"; plus not_slash; Re.lit "/" ].

(** [r'/mp4-\d+p/'] *)
Definition resolution_segment : string -> option string :=
  pattern [ Re.lit "/mp4-"; plus Py.is_digit; Re.lit "p/" ].

(** [r'-\d+p-'] *)
Definition resolution_infix : string -> option string :=
  pattern [ Re.lit "-"; plus Py.is_digit; Re.lit "p-" ].

(** The [except] branch is reached only when [urlparse] raises ([re.sub] on
    a [str] does not), and then [_normalize_url] takes the place of the
    result. *)
Definition _get_video_base_path (url : string) : string :=
  match Url.urlparse url with
  | Some parsed =>
      let path := Url.path parsed in
      let path := Re.sub quality_profile_segment "/" path in
      let path := Re.sub resolution_segment "/" path in
      let path := Re.sub resolution_infix "-" path in
      Url.scheme parsed +:+ "://" +:+ Url.netloc parsed +:+ path
  | None => _normalize_url url
  end.

(** [r'(\d+)p'] *)
Definition resolution_marker (s : string) : option (string * string) :=
  match Re.many1 Py.is_digit s with
  | Some (digits, r) =>
      match Re.lit "p" r with
      | Some rest => Some (digits, rest)
      | None => None
      end
  | None => None
  end.

(** The [key] of the [max] that chooses [best_url]:
    [max([int(m) for m in re.findall(r'(\d+)p', x)] + [0])]; [None] stands
    for the [ValueError] of [int]. *)
Definition quality (x : string) : option Z :=
  match mapM Py.int (Re.findall resolution_marker x) with
  | Some ints => Some (fold_right Z.max 0%Z ints)
  | None => None
  end.

(** [max(video_urls, key=...)] keeps the first of the urls with the largest
    key; every key is computed. *)
Fixpoint max_from (best : string) (best_key : Z) (urls : list string)
  : option string :=
  match urls with
  | [] => Some best
  | x :: urls' =>
      match quality x with
      | Some k =>
          if (best_key <? k)%Z then max_from x k urls'
          else max_from best best_key urls'
      | None => None
      end
  end.

Definition best_url (video_urls : list string) : option string :=
  match video_urls with
  | [] => None
  | x :: urls' =>
      match quality x with
      | Some k => max_from x k urls'
      | None => None
      end
  end.

End Identity.

(** A library for the closed examples: no bracketed-host check (CPython
    before 3.11.4) and a constant digest; no example reaches the digest. *)
Definition plain_library : Library :=
  {| check_bracketed_netloc := fun _ => true;
     md5_hexdigest := fun _ => "d41d8cd98f00b204e9800998ecf8427e" |}.

(** [base] has neither a query nor a fragment. *)
Definition no_query_fragment (base : string) : Prop :=
  Py.contains "?" base = false /\ Py.contains "#" base = false.

(** [t] is empty or is a query and/or a fragment with its delimiter. *)
Definition query_fragment (t : string) : Prop :=
  match t with
  | EmptyString => True
  | String c _ => c = "?"%char \/ c = "#"%char
  end.

(** Whether the pattern [m] matches at some position of [s]. *)
Fixpoint matches_somewhere (m : string -> option string) (s : string) : bool :=
  match s with
  | EmptyString => false
  | String _ s' =>
      match m s with
      | Some _ => true
      | None => matches_somewhere m s'
      end
  end.

(** A path segment that encodes codec, resolution, frame rate and quality,
    such as [mp4-720p-30fp-crf28]: [mp4-<digits>p-<digits>fp-<text>]. *)
Definition encoding_profile (segment : string) : Prop :=
  exists resolution rate quality_tag,
    segment = "mp4-" +:+ resolution +:+ "p-" +:+ rate +:+ "fp-" +:+ quality_tag
    /\ resolution <> "" /\ Url.all_chars Py.is_digit resolution = true
    /\ rate <> "" /\ Url.all_chars Py.is_digit rate = true
    /\ quality_tag <> "" /\ Url.all_chars not_slash quality_tag = true.

(** A path segment that is purely a resolution marker, such as
    [mp4-720p]: [mp4-<digits>p]. *)
Definition resolution_only (segment : string) : Prop :=
  exists resolution,
    segment = "mp4-" +:+ resolution +:+ "p"
    /\ resolution <> "" /\ Url.all_chars Py.is_digit resolution = true.

(** The largest resolution marker of the path alone, as the specification
    words the choice of the best rendition; for comparison with
    [quality]. *)
Definition path_quality `{Library} (x : string) : option Z :=
  match Url.urlparse x with
  | Some parsed => quality (Url.path parsed)
  | None => None
  end.

(** Urls of the closed examples. *)
Definition rendition_720 : string :=
  "https://dms.licdn.com/playlist/vid/v2/D4D10AQ/mp4-720p-30fp-crf28/B4DZ/clip.mp4".
Definition rendition_360 : string :=
  "https://dms.licdn.com/playlist/vid/v2/D4D10AQ/mp4-360p-30fp-crf28/B4DZ/clip.mp4?e=17&v=beta".
Definition rendition_360_signed : string :=
  "https://dms.licdn.com/playlist/vid/v2/D4D10AQ/mp4-360p-30fp-crf28/B4DZ/clip.mp4?t=1080p".
Definition after_profile_30fp : string :=
  "https://dms.licdn.com/vid/mp4-360p-30fp-crf28/mp4-720p-30fp-crf28/clip.mp4".
Definition after_profile_24fp : string :=
  "https://dms.licdn.com/vid/mp4-360p-30fp-crf28/mp4-720p-24fp-crf28/clip.mp4".
Definition unparsable_1 : string := "http://[/a.jpg?x=1".
Definition unparsable_2 : string := "http://[/a.jpg?x=2".

(** *** The deduplicating asset fetcher
    ([src/9_linkedin_complete_scraper.py]) *)

(** The network and the file system behind [_download_asset(url,
    output_path)]: a state of the world and a step on it that reports
    whether the file was written. *)
Class Network : Type := {
  World : Type;
  _download_asset : string -> string -> World -> bool * World
}.

(** The four values of [asset_type]. *)
Inductive AssetType : Type := Logo | Image | Video | Poster.

Definition asset_type_name (t : AssetType) : string :=
  match t with
  | Logo => "logo" | Image => "image" | Video => "video" | Poster => "poster"
  end.

(** [self.seen_assets], partitioned by kind. *)
Record SeenAssets : Type := {
  seen_logos : gmap string string;
  seen_images : gmap string string;
  seen_videos : gmap string string;
  seen_posters : gmap string string
}.

Definition no_seen_assets : SeenAssets :=
  {| seen_logos := ∅; seen_images := ∅; seen_videos := ∅; seen_posters := ∅ |}.

(** [self.seen_assets[asset_type + "s"]] *)
Definition seen_of (t : AssetType) (s : SeenAssets) : gmap string string :=
  match t with
  | Logo => seen_logos s
  | Image => seen_images s
  | Video => seen_videos s
  | Poster => seen_posters s
  end.

(** [self.seen_assets[...][key] = path] *)
Definition seen_insert (t : AssetType) (key path : string) (s : SeenAssets)
  : SeenAssets :=
  match t with
  | Logo => {| seen_logos := <[key := path]> (seen_logos s);
               seen_images := seen_images s; seen_videos := seen_videos s;
               seen_posters := seen_posters s |}
  | Image => {| seen_logos := seen_logos s;
                seen_images := <[key := path]> (seen_images s);
                seen_videos := seen_videos s; seen_posters := seen_posters s |}
  | Video => {| seen_logos := seen_logos s; seen_images := seen_images s;
                seen_videos := <[key := path]> (seen_videos s);
                seen_posters := seen_posters s |}
  | Poster => {| seen_logos := seen_logos s; seen_images := seen_images s;
                 seen_videos := seen_videos s;
                 seen_posters := <[key := path]> (seen_posters s) |}
  end.

(** [os.path.join(a, *p)] of [posixpath]. *)
Definition endswith_slash (s : string) : bool :=
  match Py.rstrip (fun _ => false) s with
  | _ => Py.startswith "/" (Py.drop (String.length s - 1) s)
  end.

Definition os_path_join (a : string) (p : list string) : string :=
  fold_left
    (fun path b =>
       if Py.startswith "/" b then b
       else if String.eqb path "" || endswith_slash path then path +:+ b
       else path +:+ "/" +:+ b)
    p a.

(** [str(index)] for an index that is not negative. *)
Definition str_of_nat (n : nat) : string := NilEmpty.string_of_uint (Nat.to_uint n).

Section Fetcher.

Context `{Library}.

(** The asset kind decides the identity; the result is the pair
    [(is_duplicate, existing_path)]. *)
Definition asset_identity (url : string) (asset_type : AssetType) : string :=
  match asset_type with
  | Video => _get_video_base_path url
  | _ => _normalize_url url
  end.

Definition _is_duplicate_asset (url : string) (asset_type : AssetType)
  (seen_assets : SeenAssets) : bool * option string :=
  match seen_of asset_type seen_assets !! asset_identity url asset_type with
  | Some existing_path => (true, Some existing_path)
  | None => (false, None)
  end.

(** [None] stands for the [ValueError] of the unguarded [urlparse]. *)
Definition _get_file_extension (url : string) (content_type : option string)
  : option string :=
  match Url.urlparse url with
  | None => None
  | Some parsed =>
      let path := Py.lower (Url.path parsed) in
      let by_url :=
        if Py.contains "video" (Py.lower url) || Py.contains "playlist" (Py.lower url)
        then ".mp4"
        else if Py.contains "logo" (Py.lower url) || Py.contains "image" (Py.lower url)
        then ".jpg"
        else ".bin" in
      Some
        (if Py.contains ".jpg" path || Py.contains ".jpeg" path then ".jpg"
         else if Py.contains ".png" path then ".png"
         else if Py.contains ".gif" path then ".gif"
         else if Py.contains ".webp" path then ".webp"
         else if Py.contains ".mp4" path then ".mp4"
         else if Py.contains ".webm" path then ".webm"
         else if Py.contains ".mov" path then ".mov"
         else
           match content_type with
           | Some (String _ _ as ct) =>
               if Py.contains "image/jpeg" ct then ".jpg"
               else if Py.contains "image/png" ct then ".png"
               else if Py.contains "video/mp4" ct then ".mp4"
               else by_url
           | _ => by_url
           end)
  end.

(** [[^a-zA-Z0-9_-]] *)
Definition is_unsafe_name_char (c : ascii) : bool :=
  negb (Py.is_alpha c || Py.is_digit c || Ascii.eqb c "_" || Ascii.eqb c "-").

Fixpoint sanitize (s : string) : string :=
  match s with
  | EmptyString => EmptyString
  | String c s' => String (if is_unsafe_name_char c then "_"%char else c) (sanitize s')
  end.

Definition skipped_parts : list string := ["dms"; "image"; "v2"; "playlist"; "vid"].

Definition _generate_filename (url : string) (asset_type : AssetType)
  (ad_id : string) (index : nat) : option string :=
  match Url.urlparse url with
  | None => None
  | Some parsed =>
      let path := Url.path parsed in
      let path_parts :=
        filter (fun p => p <> "" /\ p ∉ skipped_parts) (Py.split "/" path) in
      let base_name :=
        match last path_parts with
        | Some base_name => Py.take 50 (sanitize base_name)
        | None =>
            let url_hash := Py.take 8 (md5_hexdigest url) in
            asset_type_name asset_type +:+ "_" +:+ url_hash
        end in
      match _get_file_extension url None with
      | None => None
      | Some ext =>
          Some (ad_id +:+ "_" +:+ base_name +:+ "_" +:+ str_of_nat index +:+ ext)
      end
  end.

Context `{Network}.

(** The state that [_download_ad_assets_with_dedup] works on: the cache, the
    world, and a log of the calls of [_download_asset] with their
    results. *)
Record State : Type := {
  seen_assets : SeenAssets;
  world : World;
  downloads : list (string * string * bool)
}.

(** The result of a call: a value, or an exception that leaves the call. *)
Inductive Outcome (A : Type) : Type :=
  | Return (a : A)
  | Raise.
Arguments Return {A} a.
Arguments Raise {A}.

Definition M (A : Type) : Type := State -> Outcome A * State.

Definition ret {A : Type} (a : A) : M A := fun s => (Return a, s).

Definition bind {A B : Type} (m : M A) (k : A -> M B) : M B :=
  fun s =>
    match m s with
    | (Return a, s') => k a s'
    | (Raise, s') => (Raise, s')
    end.

Notation "x <- m ;; k" := (bind m (fun x => k))
  (at level 100, m at level 99, k at level 200, right associativity).

Definition lift {A : Type} (o : option A) : M A :=
  fun s => match o with Some a => (Return a, s) | None => (Raise, s) end.

Definition is_duplicate (url : string) (asset_type : AssetType)
  : M (bool * option string) :=
  fun s => (Return (_is_duplicate_asset url asset_type (seen_assets s)), s).

Definition register (asset_type : AssetType) (key path : string) : M unit :=
  fun s =>
    (Return tt,
     {| seen_assets := seen_insert asset_type key path (seen_assets s);
        world := world s; downloads := downloads s |}).

Definition download (url output_path : string) : M bool :=
  fun s =>
    let '(ok, w) := _download_asset url output_path (world s) in
    (Return ok,
     {| seen_assets := seen_assets s; world := w;
        downloads := downloads s ++ [(url, output_path, ok)] |}).

(** [if is_dup and existing_path] *)
Definition reusable (dup : bool * option string) : option string :=
  match dup with
  | (true, Some (String c p)) => Some (String c p)
  | _ => None
  end.

(** The body of the [else] branches: name the file, download it, and on
    success register its identity. *)
Definition fetch_new (asset_type : AssetType) (subdir ad_dir ad_id : string)
  (index : nat) (url key : string) : M (option string) :=
  filename <- lift (_generate_filename url asset_type ad_id index) ;;
  let output_path := os_path_join ad_dir [subdir; filename] in
  ok <- download url output_path ;;
  if ok then
    _ <- register asset_type key output_path ;;
    ret (Some output_path)
  else ret None.

(** The [if is_dup and existing_path: ... else: ...] block that the logo,
    every image, every video group and every poster go through: reuse the
    cached path, or run [fetch] and keep its path if there is one. *)
Definition reuse_or_fetch (asset_type : AssetType) (url : string)
  (fetch : M (option string)) : M (option string) :=
  dup <- is_duplicate url asset_type ;;
  match reusable dup with
  | Some existing_path => ret (Some existing_path)
  | None => fetch
  end.

(** [downloaded[...].append(path)] when there is a path. *)
Definition append_path (got : list string) (path : option string) : list string :=
  match path with
  | Some p => got ++ [p]
  | None => got
  end.

(** The loops over [assets["images"]] and [assets["posters"]], which differ
    only in the kind and the directory: [i] is the index of [enumerate(...,
    1)], [got] is [downloaded[...]]. *)
Fixpoint download_each (asset_type : AssetType) (subdir ad_dir ad_id : string)
  (i : nat) (urls got : list string) : M (list string) :=
  match urls with
  | [] => ret got
  | url :: urls' =>
      path <- reuse_or_fetch asset_type url
                (fetch_new asset_type subdir ad_dir ad_id i url (_normalize_url url)) ;;
      download_each asset_type subdir ad_dir ad_id (S i) urls' (append_path got path)
  end.

(** [video_groups], a dictionary in insertion order. *)
Fixpoint groups_append (base_path url : string)
  (groups : list (string * list string)) : list (string * list string) :=
  match groups with
  | [] => [(base_path, [url])]
  | (k, urls) :: rest =>
      if String.eqb k base_path then (k, urls ++ [url]) :: rest
      else (k, urls) :: groups_append base_path url rest
  end.

Definition group_videos (video_urls : list string)
  : list (string * list string) :=
  fold_left (fun groups url => groups_append (_get_video_base_path url) url groups)
            video_urls [].

(** The loop over [video_groups.items()]; [video_urls[0]] exists in every
    group. *)
Fixpoint download_videos (ad_dir ad_id : string)
  (groups : list (string * list string)) (got : list string) : M (list string) :=
  match groups with
  | [] => ret got
  | (base_path, video_urls) :: rest =>
      first <- lift (head video_urls) ;;
      path <- reuse_or_fetch Video first
                (best <- lift (best_url video_urls) ;;
                 fetch_new Video "videos" ad_dir ad_id (length got + 1) best base_path) ;;
      download_videos ad_dir ad_id rest (append_path got path)
  end.

(** The dictionary [downloaded]. *)
Record Downloaded : Type := {
  logo : option string;
  local_images : list string;
  local_videos : list string;
  local_posters : list string
}.

Definition download_logo (ad_dir ad_id : string) (logo_url : option string)
  : M (option string) :=
  match logo_url with
  | Some (String c u) =>
      let logo_url := String c u in
      reuse_or_fetch Logo logo_url
        (fetch_new Logo "logo" ad_dir ad_id 0 logo_url (_normalize_url logo_url))
  | _ => ret None
  end.

Definition _download_ad_assets_with_dedup (ad_id : string)
  (logo_url : option string) (assets : Assets) (output_dir : string)
  : M Downloaded :=
  let ad_dir := os_path_join output_dir [ad_id] in
  logo <- download_logo ad_dir ad_id logo_url ;;
  images <- download_each Image "images" ad_dir ad_id 1 (images assets) [] ;;
  videos <- download_videos ad_dir ad_id (group_videos (videos assets)) [] ;;
  posters <- download_each Poster "posters" ad_dir ad_id 1 (posters assets) [] ;;
  ret {| logo := logo; local_images := images; local_videos := videos;
         local_posters := posters |}.

(** A cache entry that is reused: present and not empty. *)
Definition hit (cache : gmap string string) (key : string) : option string :=
  match cache !! key with
  | Some (String c p) => Some (String c p)
  | _ => None
  end.

(** The entries of the log that a run from [st] to [st'] added. *)
Definition new_downloads (st st' : State) : list (string * string * bool) :=
  drop (length (downloads st)) (downloads st').

Definition all_succeeded (log : list (string * string * bool)) : Prop :=
  Forall (fun e => snd e = true) log.

(** What a run on the assets of kind [t] does to the state: the log grows;
    entries that are reused stay; the other kinds are not touched; and an
    entry of the cache is an old one or the path of a new successful
    download. *)
Record Grows (t : AssetType) (st st' : State) : Prop := {
  grows_log : downloads st' = downloads st ++ new_downloads st st';
  grows_stable :
    forall key p, hit (seen_of t (seen_assets st)) key = Some p ->
                  hit (seen_of t (seen_assets st')) key = Some p;
  grows_frame :
    forall t', t' <> t ->
      seen_of t' (seen_assets st') = seen_of t' (seen_assets st);
  grows_success :
    forall key p, seen_of t (seen_assets st') !! key = Some p ->
      seen_of t (seen_assets st) !! key = Some p
      \/ exists url, (url, p, true) ∈ new_downloads st st'
}.

(** What the [else] branches do for the identity [key] of kind [t]: one
    call of [_download_asset], to a path that is not empty, and on success
    that path is returned and registered under [key]; on failure nothing is
    returned and the cache is as before. *)
Definition fetch_like (t : AssetType) (key : string) (fetch : M (option string))
  : Prop :=
  forall st r st', fetch st = (Return r, st') ->
    exists url path ok,
      downloads st' = downloads st ++ [(url, path, ok)]
      /\ path <> ""
      /\ ((ok = true /\ r = Some path
           /\ seen_assets st' = seen_insert t key path (seen_assets st))
          \/ (ok = false /\ r = None /\ seen_assets st' = seen_assets st)).

(** From any state whose cache of kind [t] is that of [st'], [m] returns
    [out] and leaves the state as it is: no download, no new entry. *)
Definition settled {A : Type} (t : AssetType) (m : M A) (out : A) (st' : State)
  : Prop :=
  forall st'', seen_of t (seen_assets st'') = seen_of t (seen_assets st') ->
    m st'' = (Return out, st'').

(** Every group of [video_groups] has a first url, whose base path is the
    key of the group. *)
Definition well_grouped (groups : list (string * list string)) : Prop :=
  Forall (fun g => exists u, head (snd g) = Some u
                             /\ _get_video_base_path u = fst g) groups.

End Fetcher.

Arguments Return {A} a.
Arguments Raise {A}.

(** Networks for the closed examples: one on which every download
    succeeds, and one on which the first download fails and the later ones
    succeed. *)
Definition reliable : Network :=
  {| World := unit; _download_asset := fun _ _ w => (true, w) |}.

Definition flaky : Network :=
  {| World := nat; _download_asset := fun _ _ n => (negb (n =? 0), S n) |}.

Definition fresh `{Network} (w : World) : State :=
  {| seen_assets := no_seen_assets; world := w; downloads := [] |}.

(** An ad with a logo, two urls of one image, two renditions of one video
    and a poster; its materialization on both networks, twice. *)
Definition example_assets : Assets :=
  {| images := [ "https://media.licdn.com/dms/image/v2/D4E/pic.jpg?e=1";
                 "https://media.licdn.com/dms/image/v2/D4E/pic.jpg?e=2" ];
     videos := [ rendition_360; rendition_720 ];
     posters := [ "https://media.licdn.com/dms/image/v2/D4E/poster.png" ] |}.

Definition example_logo : option string :=
  Some "https://media.licdn.com/dms/image/v2/D4E/logo.png?e=1".

Definition materialize_example `{Network} (st : State) : Outcome Downloaded * State :=
  @_download_ad_assets_with_dedup plain_library _ "9001" example_logo
    example_assets "downloaded_assets" st.

Definition reliable_first : Outcome Downloaded * @State reliable :=
  @materialize_example reliable (@fresh reliable tt).
Definition reliable_second : Outcome Downloaded * @State reliable :=
  @materialize_example reliable (snd reliable_first).
Definition flaky_first : Outcome Downloaded * @State flaky :=
  @materialize_example flaky (@fresh flaky 0).
Definition flaky_second : Outcome Downloaded * @State flaky :=
  @materialize_example flaky (snd flaky_first).

(** An ad whose only image has a url that [urlparse] rejects. *)
Definition bad_image_assets : Assets :=
  {| images := [unparsable_1]; videos := []; posters := [] |}.

(** *** More of [re]: flags, classes, [re.search] *)

Module Regex.

(** [\s] of a [str] pattern: the characters for which [str.isspace()] holds
    (code points below 256). *)
Definition is_space (c : ascii) : bool :=
  Py.in_range 9 13 c || Py.in_range 28 32 c
  || (Py.ord c =? 133)%N || (Py.ord c =? 160)%N.

(** A literal under [re.IGNORECASE]: a character of the text matches when
    its lower case is that of the pattern. *)
Fixpoint prefix_i (l s : string) : bool :=
  match l, s with
  | EmptyString, _ => true
  | String a l', String b s' =>
      Ascii.eqb (Py.chr_lower a) (Py.chr_lower b) && prefix_i l' s'
  | String _ _, EmptyString => false
  end.

Definition lit_i (l s : string) : option string :=
  if prefix_i l s then Some (Py.drop (String.length l) s) else None.

(** [class*] *)
Definition star (P : ascii -> bool) (s : string) : option string :=
  Some (snd (Re.span P s)).

(** [class?] *)
Definition opt (P : ascii -> bool) (s : string) : option string :=
  match s with
  | String c s' => if P c then Some s' else Some s
  | EmptyString => Some s
  end.

(** [class] *)
Definition one (P : ascii -> bool) (s : string) : option string :=
  match s with
  | String c s' => if P c then Some s' else None
  | EmptyString => None
  end.

(** A pattern [pre(class+)post] with its one group. *)
Definition group1 (pre : list (string -> option string)) (P : ascii -> bool)
  (post : list (string -> option string)) (s : string)
  : option (string * string) :=
  match pattern pre s with
  | Some r =>
      match Re.many1 P r with
      | Some (g, r') =>
          match pattern post r' with
          | Some rest => Some (g, rest)
          | None => None
          end
      | None => None
      end
  | None => None
  end.

(** [re.search(pattern, s)] followed by [.group(1)]: the group of the
    leftmost match. *)
Fixpoint search (m : string -> option (string * string)) (s : string)
  : option string :=
  match m s with
  | Some (g, _) => Some g
  | None =>
      match s with
      | EmptyString => None
      | String _ s' => search m s'
      end
  end.

End Regex.

(** *** The next pagination token of a page
    ([extract_next_token_from_html], [src/14_linkedin_single_asset_scraper.py]) *)

Definition dquote : ascii := ascii_of_nat 34.

Definition is_dquote (c : ascii) : bool := Ascii.eqb c dquote.

(** The class of the two quotes, double and single. *)
Definition is_quote (c : ascii) : bool := Ascii.eqb c dquote || Ascii.eqb c "'".

(** [[:=]] *)
Definition is_colon_or_equals (c : ascii) : bool :=
  Ascii.eqb c ":" || Ascii.eqb c "=".

(** The four [patterns], compiled with [re.IGNORECASE].  With [Q] for the
    double quote and [q] for the class of both quotes they read
    [QpaginationTokenQ\s*:\s*Q([^Q]+)Q],
    [paginationTokenq?\s*[:=]\s*q([^q]+)],
    [data-pagination-token=Q([^Q]+)Q] and
    [pagination-tokenq?\s*[:=]\s*q([^q]+)]. *)
Definition token_patterns : list (string -> option (string * string)) :=
  [ Regex.group1
      [ Regex.lit_i (String dquote "paginationToken"); Regex.one is_dquote;
        Regex.star Regex.is_space; Regex.lit_i ":"; Regex.star Regex.is_space;
        Regex.one is_dquote ]
      (fun c => negb (is_dquote c))
      [ Regex.one is_dquote ];
    Regex.group1
      [ Regex.lit_i "paginationToken"; Regex.opt is_quote;
        Regex.star Regex.is_space; Regex.one is_colon_or_equals;
        Regex.star Regex.is_space; Regex.one is_quote ]
      (fun c => negb (is_quote c))
      [];
    Regex.group1
      [ Regex.lit_i "data-pagination-token="; Regex.one is_dquote ]
      (fun c => negb (is_dquote c))
      [ Regex.one is_dquote ];
    Regex.group1
      [ Regex.lit_i "pagination-token"; Regex.opt is_quote;
        Regex.star Regex.is_space; Regex.one is_colon_or_equals;
        Regex.star Regex.is_space; Regex.one is_quote ]
      (fun c => negb (is_quote c))
      [] ].

(** [if token and token != 'null' and token not in tokens_found] *)
Definition keeps_token (tokens_found : list string) (token : string) : bool :=
  negb (String.eqb token "") && negb (String.eqb token "null")
  && negb (bool_decide (token ∈ tokens_found)).

(** The two nested loops that fill [tokens_found]. *)
Definition find_tokens (html : string) : list string :=
  fold_left
    (fun tokens_found pattern =>
       fold_left
         (fun tokens_found token =>
            if keeps_token tokens_found token then tokens_found ++ [token]
            else tokens_found)
         (Re.findall pattern html) tokens_found)
    token_patterns [].

Definition has_hash (t : string) : bool := Py.contains "#" t.

Definition extract_next_token_from_html (html : string) : option string :=
  let tokens_found := find_tokens html in
  let offset_tokens := List.filter has_hash tokens_found in
  let api_tokens := List.filter (fun t => negb (has_hash t)) tokens_found in
  match offset_tokens, api_tokens with
  | t :: _, _ => Some t
  | [], t :: _ => Some t
  | [], [] => None
  end.

(** *** Proxies and requests ([_get_proxy], [_make_request],
    [src/14_linkedin_single_asset_scraper.py]) *)

(** An element of [self.proxies]: a dictionary, a string, or a value of
    another type. *)
Inductive Proxy : Type :=
  | ProxyDict (d : gmap string string)
  | ProxyStr (s : string)
  | ProxyOther.

Definition both_schemes (http https : string) : gmap string string :=
  <["https" := https]> (<["http" := http]> ∅).

(** The [isinstance] cascade of [_get_proxy]. *)
Definition proxy_mapping (proxy : Proxy) : option (gmap string string) :=
  match proxy with
  | ProxyDict d => Some d
  | ProxyStr proxy =>
      if Py.startswith "http://" proxy || Py.startswith "https://" proxy
      then Some (both_schemes proxy proxy)
      else if negb (Py.contains "://" proxy)
      then Some (both_schemes ("http://" +:+ proxy) ("https://" +:+ proxy))
      else Some (both_schemes proxy proxy)
  | ProxyOther => None
  end.

(** [_get_proxy] on [self.proxies] and [self.current_proxy_index]; the
    second component is the index after the call. *)
Definition _get_proxy (proxies : list Proxy) (current_proxy_index : nat)
  : option (gmap string string) * nat :=
  match proxies with
  | [] => (None, current_proxy_index)
  | _ =>
      match proxies !! (current_proxy_index mod length proxies) with
      | Some proxy => (proxy_mapping proxy, S current_proxy_index)
      | None => (None, S current_proxy_index)
      end
  end.

(** The results of [count] calls of [_get_proxy] in a row. *)
Fixpoint proxy_rounds (proxies : list Proxy) (count current_proxy_index : nat)
  : list (option (gmap string string)) :=
  match count with
  | O => []
  | S count' =>
      let '(proxy, index') := _get_proxy proxies current_proxy_index in
      proxy :: proxy_rounds proxies count' index'
  end.

Inductive Verb : Type := GET | POST.

(** [method.upper() == 'GET'] and [method.upper() == 'POST'].  Below code
    point 256 only an ASCII letter, in either case, has an ASCII letter as
    its upper case, so the comparison is that of the lower cases. *)
Definition verb_of (method : string) : option Verb :=
  if String.eqb (Py.lower method) "get" then Some GET
  else if String.eqb (Py.lower method) "post" then Some POST
  else None.

(** What [session.get] and [session.post] answer: a response, or one of the
    exceptions that [_make_request] tells apart, or another exception. *)
Inductive Reply (R : Type) : Type :=
  | Responded (response : R)
  | ProxyError
  | RequestException
  | OtherException.
Arguments Responded {R} response.
Arguments ProxyError {R}.
Arguments RequestException {R}.
Arguments OtherException {R}.

(** The keyword arguments that the callers of [_make_request] pass. *)
Record Kwargs : Type := {
  params : list (string * string);
  cookies : gmap string string;
  timeout : option Z
}.

(** The session and the network behind it. *)
Class Session : Type := {
  Net : Type;
  Response : Type;
  status_code : Response -> Z;
  send : Verb -> string -> Kwargs -> option (gmap string string) -> Net
         -> Reply Response * Net
}.

Section Requests.

Context `{Session}.

(** The part of the scraper object that [_make_request] works on, with a
    log of the requests sent and of the arguments of [time.sleep]. *)
Record Client : Type := {
  proxies : list Proxy;
  current_proxy_index : nat;
  net : Net;
  sent : list (Verb * string * option (gmap string string));
  slept : list Z
}.

Definition get_proxy (c : Client) : option (gmap string string) * Client :=
  let '(proxy, index) := _get_proxy (proxies c) (current_proxy_index c) in
  (proxy,
   {| proxies := proxies c; current_proxy_index := index; net := net c;
      sent := sent c; slept := slept c |}).

Definition sleep (seconds : Z) (c : Client) : Client :=
  {| proxies := proxies c; current_proxy_index := current_proxy_index c;
     net := net c; sent := sent c; slept := slept c ++ [seconds] |}.

Definition request (verb : Verb) (url : string) (kwargs : Kwargs)
  (proxy : option (gmap string string)) (c : Client) : Reply Response * Client :=
  let '(reply, n) := send verb url kwargs proxy (net c) in
  (reply,
   {| proxies := proxies c; current_proxy_index := current_proxy_index c;
      net := n; sent := sent c ++ [(verb, url, proxy)]; slept := slept c |}).

Definition max_retries : nat := 3.

(** The [for attempt in range(max_retries)] loop, from [attempt] on, with
    [remaining] turns left. *)
Fixpoint attempts (remaining attempt : nat) (method url : string)
  (kwargs : Kwargs) (proxy : option (gmap string string)) (c : Client)
  : Outcome (option Response) * Client :=
  match remaining with
  | O => (Return None, c)
  | S remaining' =>
      let kwargs :=
        {| params := params kwargs; cookies := cookies kwargs;
           timeout := Some (default 15%Z (timeout kwargs)) |} in
      match verb_of method with
      | None => (Return None, c)
      | Some verb =>
          let '(reply, c) := request verb url kwargs proxy c in
          match reply with
          | Responded response =>
              if (status_code response =? 200)%Z then (Return (Some response), c)
              else if (status_code response =? 429)%Z
                      || (status_code response =? 503)%Z
              then
                let wait_time := ((Z.of_nat attempt + 1) * 2)%Z in
                attempts remaining' (S attempt) method url kwargs proxy
                  (sleep wait_time c)
              else (Return None, c)
          | ProxyError =>
              if attempt <? max_retries - 1 then
                let '(proxy, c) := get_proxy c in
                attempts remaining' (S attempt) method url kwargs proxy c
              else (Return None, c)
          | RequestException =>
              if attempt <? max_retries - 1 then
                attempts remaining' (S attempt) method url kwargs proxy (sleep 1 c)
              else (Return None, c)
          | OtherException => (Raise, c)
          end
      end
  end.

Definition _make_request (method url : string) (kwargs : Kwargs) (c : Client)
  : Outcome (option Response) * Client :=
  let '(proxy, c) := get_proxy c in
  attempts max_retries 0 method url kwargs proxy c.

(** What a call added to the logs. *)
Definition new_sent (c c' : Client)
  : list (Verb * string * option (gmap string string)) :=
  drop (length (sent c)) (sent c').

Definition new_slept (c c' : Client) : list Z :=
  drop (length (slept c)) (slept c').

End Requests.
(** *** Values of mixed type

    The ads of the search pages are what [json.loads] or the HTML fallback
    produced; [extract_detail_links] inspects their types.  [VOther] stands
    for [None], a boolean or a number. *)
Inductive Value : Type :=
  | VStr (s : string)
  | VList (items : list Value)
  | VDict (entries : gmap string Value)
  | VOther.

(** [l[:n]] *)
Definition slice_to {A : Type} (n : Z) (l : list A) : list A :=
  if (n <? 0)%Z then take (length l - Z.to_nat (- n)) l
  else take (Z.to_nat n) l.

(** *** [urllib.parse.urlencode] for a dictionary of strings *)

Module Query.

(** [_ALWAYS_SAFE] *)
Definition is_always_safe (c : ascii) : bool :=
  Py.is_alpha c || Py.is_digit c
  || Ascii.eqb c "_" || Ascii.eqb c "." || Ascii.eqb c "-" || Ascii.eqb c "~".

Definition hex_digit (n : N) : ascii :=
  if (n <? 10)%N then ascii_of_N (48 + n) else ascii_of_N (55 + n).

(** ['%{:02X}'.format(byte)] *)
Definition percent (byte : N) : string :=
  String "%" (String (hex_digit (byte / 16)) (String (hex_digit (byte mod 16)) "")).

(** The UTF-8 bytes of a character below code point 256. *)
Definition utf8 (c : ascii) : list N :=
  if (Py.ord c <? 128)%N then [Py.ord c]
  else [(192 + Py.ord c / 64)%N; (128 + Py.ord c mod 64)%N].

(** [quote_plus(s)], one character. *)
Definition quote_char (c : ascii) : string :=
  if is_always_safe c then String c ""
  else if Ascii.eqb c " " then "+"
  else String.concat "" (map percent (utf8 c)).

Fixpoint quote_plus (s : string) : string :=
  match s with
  | EmptyString => EmptyString
  | String c s' => quote_char c +:+ quote_plus s'
  end.

(** [urlencode(query, doseq=True)] when the keys and values are strings;
    the dictionary is the list of its items in insertion order. *)
Definition urlencode (query : list (string * string)) : string :=
  Py.join "&" (map (fun '(k, v) => quote_plus k +:+ "=" +:+ quote_plus v) query).

(** [d[k] = v] on a dictionary in insertion order. *)
Fixpoint assign (k v : string) (d : list (string * string)) : list (string * string) :=
  match d with
  | [] => [(k, v)]
  | (k', v') :: d' =>
      if String.eqb k' k then (k', v) :: d' else (k', v') :: assign k v d'
  end.

End Query.

(** *** The complete scraper ([src/9_linkedin_complete_scraper.py]) *)

Module Complete.

Definition search_base_url : string := "https://www.linkedin.com/ad-library/search".
Definition detail_base_url : string := "https://www.linkedin.com".

(** [str(start)] for [start > 0]. *)
Definition str_of_pos (start : Z) : string := str_of_nat (Z.to_nat start).

Definition _build_search_url (account_owner keyword : string)
  (countries : option (list string)) (start : Z) (startdate enddate : string)
  : string :=
  let countries := default ["ALL"] countries in
  let params :=
    [ ("accountOwner", account_owner); ("keyword", keyword);
      ("startdate", startdate); ("enddate", enddate) ] in
  let params :=
    fold_left (fun params country => Query.assign "countries" country params)
              countries params in
  let params :=
    if (start >? 0)%Z then Query.assign "start" (str_of_pos start) params
    else params in
  search_base_url +:+ "?" +:+ Query.urlencode params.

(** [_extract_ad_id_from_link]: [re.search] with the pattern of
    [detail_link]. *)
Definition _extract_ad_id_from_link (link : string) : option string :=
  Regex.search detail_link link.

Definition _build_full_url (link : string) : string :=
  if Py.startswith "http" link then link
  else if Py.startswith "/" link then detail_base_url +:+ link
  else detail_base_url +:+ "/ad-library/detail/" +:+ link.

(** An entry of [detail_links]. *)
Record DetailLink : Type := {
  index : nat;
  ad_id : string;
  link : string;
  original_ad : Value
}.

(** The [for link in links] loop up to its [break]: the first link that is
    a string, contains the detail prefix and has an ad id. *)
Fixpoint first_detail_link (links : list Value) : option (string * string) :=
  match links with
  | [] => None
  | VStr link :: links' =>
      if Py.contains "/ad-library/detail/" link then
        match _extract_ad_id_from_link link with
        | Some (String c i) => Some (String c i, link)
        | _ => first_detail_link links'
        end
      else first_detail_link links'
  | _ :: links' => first_detail_link links'
  end.

(** The body of the [for i, ad in enumerate(ads)] loop. *)
Definition detail_link_of (i : nat) (ad : Value) : option DetailLink :=
  match ad with
  | VDict entries =>
      match entries !! "links" with
      | Some (VList links) =>
          match first_detail_link links with
          | Some (ad_id, link) =>
              Some {| index := i; ad_id := ad_id; link := link; original_ad := ad |}
          | None => None
          end
      | _ => None
      end
  | _ => None
  end.

Definition extract_detail_links (ads : list Value) : list DetailLink :=
  snd (fold_left
         (fun '(i, detail_links) ad =>
            (S i,
             match detail_link_of i ad with
             | Some entry => detail_links ++ [entry]
             | None => detail_links
             end))
         ads (0, [])).

(** The search service as [scrape_search_pages] sees it: [fetch_search_page]
    is a request to a remote whose state is [Listing]; [None] is a failed
    request, the empty list a page without ads. *)
Record SearchService : Type := {
  Listing : Type;
  fetch_search_page :
    string -> string -> list string -> Z -> string -> string -> Listing
    -> option (list Value) * Listing
}.

(** Why the [while] loop of [scrape_search_pages] was left. *)
Inductive SearchStop : Type :=
  | Collected        (* len(all_ads) >= max_results at the loop head *)
  | RequestFailed    (* "Request failed, stopping" *)
  | NoMoreAds        (* "No more ads found, stopping" *)
  | LastPage.        (* a short page, or the target reached by this page *)

Section Search.

Context (service : SearchService) (account_owner keyword : string)
  (countries : option (list string)) (max_results results_per_page : Z)
  (startdate enddate : string).

(** The local variables of [scrape_search_pages], the remote, and two logs:
    the value of [start] at each request, and the pages that were not
    empty.  The delay between two requests is left out. *)
Record Search : Type := {
  all_ads : list Value;
  start : Z;
  listing : Listing service;
  requested : list Z;
  pages : list (list Value)
}.

Definition search_body (w : Search) : Search * option SearchStop :=
  let '(ads, listing') :=
    fetch_search_page service account_owner keyword (default ["ALL"] countries)
      (start w) startdate enddate (listing w) in
  let w1 := {| all_ads := all_ads w; start := start w; listing := listing';
               requested := requested w ++ [start w]; pages := pages w |} in
  match ads with
  | None => (w1, Some RequestFailed)
  | Some [] => (w1, Some NoMoreAds)
  | Some ads =>
      let ads_to_add :=
        slice_to (max_results - Z.of_nat (length (all_ads w))) ads in
      let all := all_ads w ++ ads_to_add in
      if (Z.of_nat (length ads) <? results_per_page)%Z
         || (Z.of_nat (length all) >=? max_results)%Z
      then
        ({| all_ads := all; start := start w; listing := listing';
            requested := requested w ++ [start w];
            pages := pages w ++ [ads] |}, Some LastPage)
      else
        ({| all_ads := all; start := (start w + results_per_page)%Z;
            listing := listing'; requested := requested w ++ [start w];
            pages := pages w ++ [ads] |}, None)
  end.

(** The [while len(all_ads) < max_results] loop, run for at most [fuel]
    passes. *)
Fixpoint search_loop (fuel : nat) (w : Search) : Search * option SearchStop :=
  match fuel with
  | O => (w, None)
  | S k =>
      if (Z.of_nat (length (all_ads w)) <? max_results)%Z then
        match search_body w with
        | (w', Some stop) => (w', Some stop)
        | (w', None) => search_loop k w'
        end
      else (w, Some Collected)
  end.

Definition search_start (l : Listing service) : Search :=
  {| all_ads := []; start := 0; listing := l; requested := []; pages := [] |}.

(** [scrape_search_pages].  Every pass that is followed by another one adds
    an ad, so [max_results] passes and one more test of the loop condition
    are enough ([search_fuel_enough] below). *)
Definition scrape_search_pages (l : Listing service) : Search * option SearchStop :=
  search_loop (S (Z.to_nat max_results)) (search_start l).

End Search.

Arguments all_ads {service} _.
Arguments start {service} _.
Arguments listing {service} _.
Arguments requested {service} _.
Arguments pages {service} _.

(** The text blocks of [scrape_ad_detail]: [texts_by_selector] holds, for
    each of the [content_selectors] in turn, the values
    [elem.get_text(strip=True)] of the elements it selects. *)
Definition skip_phrases : list string :=
  [ "cookie"; "privacy"; "policy"; "about"; "linkedin corporation"; "please note" ].

Definition keeps_block (text : string) : bool :=
  negb (String.eqb text "")
  && (10 <? String.length text) && (String.length text <? 500)
  && negb (existsb (fun skip => Py.contains skip (Py.lower text)) skip_phrases).

Definition text_parts (texts_by_selector : list (list string)) : list string :=
  fold_left
    (fun ad_text_parts elements =>
       fold_left
         (fun ad_text_parts text =>
            if keeps_block text then ad_text_parts ++ [text] else ad_text_parts)
         (take 3 elements) ad_text_parts)
    texts_by_selector [].

(** [ad_detail["ad_text"]] *)
Definition ad_text (texts_by_selector : list (list string)) : option string :=
  match text_parts texts_by_selector with
  | [] => None
  | ad_text_parts => Some (Py.join newline (take 2 ad_text_parts))
  end.

Section Dedup.

Context `{Library}.

(** The inner loop of [_deduplicate_assets]: the first url of every
    identity, in order. *)
Definition first_of_each (identity : string -> string) (urls : list string)
  : list string :=
  snd (fold_left
         (fun '(seen_urls, kept) url =>
            if decide (identity url ∈ (seen_urls : gset string))
            then (seen_urls, kept)
            else ({[identity url]} ∪ seen_urls, kept ++ [url]))
         urls (∅, [])).

(** [asset_type] is not used by the source. *)
Definition _deduplicate_assets (assets : Assets) (asset_type : string) : Assets :=
  {| images := first_of_each _normalize_url (images assets);
     videos := first_of_each _get_video_base_path (videos assets);
     posters := first_of_each _normalize_url (posters assets) |}.

End Dedup.

End Complete.

(** A scripted search service: it serves the given answers one after the
    other and fails when they are used up. *)
Definition scripted_search : Complete.SearchService :=
  {| Complete.Listing := list (option (list Value));
     Complete.fetch_search_page := fun _ _ _ _ _ _ l =>
       match l with [] => (None, []) | p :: l' => (p, l') end |}.

(** *** The single-asset scraper ([src/14_linkedin_single_asset_scraper.py]) *)

Module Single.

Definition detail_base_url : string := "https://www.linkedin.com/ad-library/detail".

(** The [url] of [scrape_ad_detail_with_bs4]. *)
Definition detail_url (ad_id : string) : string := detail_base_url +:+ "/" +:+ ad_id.

(** [video_groups], for either identity function. *)
Definition group_by (identity : string -> string) (urls : list string)
  : list (string * list string) :=
  fold_left (fun groups url => groups_append (identity url) url groups) urls [].

Section Assets.

Context `{Library}.

(** The bare [except] returns the url itself. *)
Definition _get_video_base_path (url : string) : string :=
  match Url.urlparse url with
  | Some parsed =>
      let path := Url.path parsed in
      let path := Re.sub quality_profile_segment "/" path in
      let path := Re.sub resolution_segment "/" path in
      Url.scheme parsed +:+ "://" +:+ Url.netloc parsed +:+ path
  | None => url
  end.

(** The end of [_extract_assets_with_bs4], from [video_groups = {}] on:
    the loop over the groups appends the best url of each to
    [assets["videos"]]; when [int] raises, the [except] returns the assets
    as they are at that point. *)
Fixpoint best_of_groups (groups : list (string * list string))
  (videos : list string) : list string :=
  match groups with
  | [] => videos
  | (_, urls) :: rest =>
      match best_url urls with
      | Some best => best_of_groups rest (videos ++ [best])
      | None => videos
      end
  end.

Definition select_videos (video_urls : list string) : list string :=
  best_of_groups (group_by _get_video_base_path video_urls) [].

(** [None] stands for the [ValueError] of the unguarded [urlparse]. *)
Definition _get_file_extension (url : string) : option string :=
  match Url.urlparse url with
  | None => None
  | Some parsed =>
      let path := Py.lower (Url.path parsed) in
      Some
        (if Py.contains ".jpg" path || Py.contains ".jpeg" path then ".jpg"
         else if Py.contains ".png" path then ".png"
         else if Py.contains ".gif" path then ".gif"
         else if Py.contains ".mp4" path then ".mp4"
         else if Py.contains ".webm" path then ".webm"
         else if Py.contains "video" path || Py.contains "playlist" path then ".mp4"
         else ".jpg")
  end.

Definition _generate_filename (url : string) (asset_type : AssetType)
  (ad_id : string) (index : nat) : option string :=
  match Url.urlparse url with
  | None => None
  | Some parsed =>
      let path := Url.path parsed in
      let path_parts :=
        filter (fun p => p <> "" /\ p ∉ skipped_parts) (Py.split "/" path) in
      let base_name :=
        match last path_parts with
        | Some base_name => Py.take 50 (sanitize base_name)
        | None =>
            let url_hash := Py.take 8 (md5_hexdigest url) in
            asset_type_name asset_type +:+ "_" +:+ url_hash
        end in
      match _get_file_extension url with
      | None => None
      | Some ext =>
          Some (ad_id +:+ "_" +:+ base_name +:+ "_" +:+ str_of_nat index +:+ ext)
      end
  end.

(** Priority: videos, then images, then posters. *)
Definition _get_single_asset (assets : Assets) : option (AssetType * string) :=
  match videos assets, images assets, posters assets with
  | url :: _, _, _ => Some (Video, url)
  | [], url :: _, _ => Some (Image, url)
  | [], [], url :: _ => Some (Poster, url)
  | [], [], [] => None
  end.

(** The dictionary [downloaded]. *)
Record Downloaded : Type := {
  logo_path : option string;
  asset_path : option string;
  asset_type : option AssetType
}.

Context `{Network}.

Notation "x <- m ;; k" := (bind m (fun x => k))
  (at level 100, m at level 99, k at level 200, right associativity).

(** Name the file, download it, and return its path on success. *)
Definition fetch (asset_type : AssetType) (ad_dir ad_id url : string)
  : M (option string) :=
  filename <- lift (_generate_filename url asset_type ad_id 0) ;;
  let output_path := os_path_join ad_dir [asset_type_name asset_type; filename] in
  ok <- download url output_path ;;
  ret (if ok then Some output_path else None).

Definition _download_ad_assets (ad_id : string) (logo_url : option string)
  (assets : Assets) (output_dir : string) : M Downloaded :=
  let ad_dir := os_path_join output_dir [ad_id] in
  logo_path <-
    match logo_url with
    | Some (String c u) => fetch Logo ad_dir ad_id (String c u)
    | _ => ret None
    end ;;
  match _get_single_asset assets with
  | Some (asset_type, asset_url) =>
      asset_path <- fetch asset_type ad_dir ad_id asset_url ;;
      ret {| logo_path := logo_path; asset_path := asset_path;
             asset_type := match asset_path with
                           | Some _ => Some asset_type
                           | None => None
                           end |}
  | None =>
      ret {| logo_path := logo_path; asset_path := None; asset_type := None |}
  end.

End Assets.

End Single.
(** *** Notions used in the statements *)

(** The first element of every class of [key], in the order of the list. *)
Fixpoint firsts (key : string -> string) (l : list string) : list string :=
  match l with
  | [] => []
  | x :: l' => x :: filter (fun y => key y <> key x) (firsts key l')
  end.

(** An ad id as the pattern of [detail_link] captures it: decimal digits,
    at least one. *)
Definition digit_id (ad_id : string) : Prop :=
  ad_id <> "" /\ Url.all_chars Py.is_digit ad_id = true.

(** The literal [l] cannot match at the start of [b] followed by anything:
    the two differ at a position that both have. *)
Fixpoint mismatch (l b : string) : bool :=
  match l, b with
  | String x l', String y b' => if Ascii.eqb x y then mismatch l' b' else true
  | _, _ => false
  end.

(** No match of a pattern that begins with the literal [l] starts inside
    [pre], whatever follows [pre]. *)
Fixpoint clear_of (l pre : string) : bool :=
  match pre with
  | EmptyString => true
  | String _ pre' => mismatch l pre && clear_of l pre'
  end.

(** A part of a pattern consumes a prefix of the text: what it returns is
    what follows the match. *)
Definition trims (p : string -> option string) : Prop :=
  forall s r, p s = Some r -> exists x, s = x +:+ r.

(** A JSON fragment with an offset token, and an attribute with an API
    token. *)
Definition json_offset_page : string :=
  "{" +:+ String dquote "paginationToken" +:+ String dquote ":"
  +:+ String dquote "24#12" +:+ String dquote "}".

(** The sum of the arguments of [time.sleep]. *)
Definition total (seconds : list Z) : Z := fold_right Z.add 0%Z seconds.

(** What [kept] is for [urls] under an identity function: a sublist with
    pairwise different identities in which every identity of [urls] is
    represented, each by the first url that has it. *)
Definition first_renditions (identity : string -> string)
  (kept urls : list string) : Prop :=
  kept `sublist_of` urls
  /\ NoDup (map identity kept)
  /\ (forall u, u ∈ urls -> exists v, v ∈ kept /\ identity v = identity u)
  /\ (forall v, v ∈ kept ->
        exists i, urls !! i = Some v
                  /\ forall j u, j < i -> urls !! j = Some u -> identity u <> identity v).

(** The entries that the ads from position [i] on contribute to
    [detail_links]. *)
Fixpoint links_from (i : nat) (ads : list Value) : list Complete.DetailLink :=
  match ads with
  | [] => []
  | ad :: ads' =>
      match Complete.detail_link_of i ad with
      | Some entry => entry :: links_from (S i) ads'
      | None => links_from (S i) ads'
      end
  end.

(** What an entry of [detail_links] says about the ads it was made from. *)
Definition links_to (ads : list Value) (entry : Complete.DetailLink) : Prop :=
  ads !! Complete.index entry = Some (Complete.original_ad entry)
  /\ digit_id (Complete.ad_id entry)
  /\ Complete._extract_ad_id_from_link (Complete.link entry)
     = Some (Complete.ad_id entry)
  /\ exists entries links,
       Complete.original_ad entry = VDict entries
       /\ entries !! "links" = Some (VList links)
       /\ VStr (Complete.link entry) ∈ links.

(** What holds of the search of [src/9_linkedin_complete_scraper.py] after
    any number of passes. *)
Record SearchInv {service : Complete.SearchService}
  (max_results results_per_page : Z) (w : Complete.Search service) : Prop := {
  sinv_ads :
    Complete.all_ads w
    = take (Z.to_nat max_results) (concat (Complete.pages w));
  sinv_requested :
    forall i s, Complete.requested w !! i = Some s ->
                s = (Z.of_nat i * results_per_page)%Z;
  sinv_count : length (Complete.requested w) <= Z.to_nat max_results;
  sinv_pages :
    length (Complete.pages w) <= length (Complete.requested w)
}.

(** What holds in addition when the [while] condition is about to be
    tested. *)
Record SearchHead {service : Complete.SearchService}
  (results_per_page : Z) (w : Complete.Search service) : Prop := {
  shead_start :
    Complete.start w
    = (Z.of_nat (length (Complete.requested w)) * results_per_page)%Z;
  shead_ads : Complete.all_ads w = concat (Complete.pages w);
  shead_len : length (Complete.requested w) <= length (Complete.all_ads w)
}.

(** What [video_groups] is for the urls it was made from: the keys are
    pairwise different; a group is not empty and holds urls of the list with
    the identity that is its key; and every url is in the group of its
    identity. *)
Definition grouped (identity : string -> string) (urls : list string)
  (groups : list (string * list string)) : Prop :=
  NoDup (map fst groups)
  /\ (forall k us, (k, us) ∈ groups ->
        us <> [] /\ forall u, u ∈ us -> identity u = k /\ u ∈ urls)
  /\ (forall u, u ∈ urls -> exists us, (identity u, us) ∈ groups /\ u ∈ us).

(** The characters that [quote_plus] produces. *)
Definition is_query_safe (c : ascii) : bool :=
  Query.is_always_safe c || Ascii.eqb c "+" || Ascii.eqb c "%".

(** The path names one of the extensions that [_get_file_extension] of the
    complete scraper knows. *)
Definition names_extension (path : string) : bool :=
  Py.contains ".jpg" path || Py.contains ".jpeg" path || Py.contains ".png" path
  || Py.contains ".gif" path || Py.contains ".webp" path || Py.contains ".mp4" path
  || Py.contains ".webm" path || Py.contains ".mov" path.
(** ** Part II.  Properties *)

Example int_samples :
  Py.int " 12 " = Some 12%Z /\ Py.int "-5" = Some (-5)%Z /\ Py.int "1_000" = Some 1000%Z
  /\ Py.int "1__0" = None /\ Py.int "" = None /\ Py.int "+-5" = None
  /\ Py.int "007" = Some 7%Z /\ Py.int "0x10" = None /\ Py.int "1 2" = None.
Proof. vm_compute. repeat split. Qed.

(** *** Strings *)

Section StringFacts.

Lemma app_cons_s (c : ascii) (a b : string) : String c a +:+ b = String c (a +:+ b).
Proof. reflexivity. Qed.

Lemma app_nil_l_s (a : string) : "" +:+ a = a.
Proof. reflexivity. Qed.

Lemma app_assoc_s (a b c : string) : (a +:+ b) +:+ c = a +:+ (b +:+ c).
Proof.
  induction a as [|x a IH]; [reflexivity|].
  now rewrite !app_cons_s, IH.
Qed.

Lemma app_nil_r_s (a : string) : a +:+ "" = a.
Proof.
  induction a as [|x a IH]; [reflexivity|].
  now rewrite app_cons_s, IH.
Qed.

Lemma length_app_s (a b : string) :
  String.length (a +:+ b) = String.length a + String.length b.
Proof.
  induction a as [|x a IH]; [reflexivity|].
  rewrite app_cons_s. cbn [String.length]. now rewrite IH.
Qed.

Lemma prefix_nil (s : string) : String.prefix "" s = true.
Proof. now destruct s. Qed.

Lemma prefix_char (c a : ascii) (s : string) :
  String.prefix (String c "") (String a s) = Ascii.eqb a c.
Proof.
  simpl. destruct (ascii_dec c a) as [->|Hne].
  - now rewrite prefix_nil, Ascii.eqb_refl.
  - symmetry. apply Ascii.eqb_neq. congruence.
Qed.

Lemma contains_char_cons (c a : ascii) (s : string) :
  Py.contains (String c "") (String a s)
  = Ascii.eqb a c || Py.contains (String c "") s.
Proof. cbn [Py.contains]. now rewrite prefix_char. Qed.

Lemma contains_char_app (c : ascii) (a b : string) :
  Py.contains (String c "") (a +:+ b)
  = Py.contains (String c "") a || Py.contains (String c "") b.
Proof.
  induction a as [|x a IH].
  - reflexivity.
  - rewrite app_cons_s, !contains_char_cons, IH. now rewrite orb_assoc.
Qed.

Lemma split_nonempty (sep : ascii) (s : string) : Py.split sep s <> [].
Proof.
  induction s as [|c s IH]; simpl; [discriminate|].
  destruct (Ascii.eqb c sep); [discriminate|].
  destruct (Py.split sep s); discriminate.
Qed.

(** The first piece of [split] is the text before the first separator. *)
Lemma split_hd_before (sep : ascii) (p r : string) :
  Py.contains (String sep "") p = false ->
  hd EmptyString (Py.split sep (p +:+ String sep r)) = p.
Proof.
  induction p as [|c p IH]; intros Hp.
  - rewrite app_nil_l_s. cbn [Py.split]. now rewrite Ascii.eqb_refl.
  - rewrite contains_char_cons in Hp. apply orb_false_elim in Hp as [Hc Hp].
    rewrite app_cons_s. cbn [Py.split]. rewrite Hc. specialize (IH Hp).
    destruct (Py.split sep (p +:+ String sep r)) as [|h t] eqn:E.
    + now apply split_nonempty in E.
    + simpl in IH. now subst h.
Qed.

End StringFacts.

(** *** Pagination-token classification *)

Lemma normalize_pagination_token_nonempty (t : string) :
  t <> "" ->
  _normalize_pagination_token (Some t)
  = if Py.contains "#" t then
      match Py.int (hd EmptyString (Py.split "#" t)) with
      | Some offset => Offset offset
      | None => Api (Some t)
      end
    else Api (Some t).
Proof. destruct t; [congruence | reflexivity]. Qed.

Lemma hash_token_shape (p r : string) :
  p +:+ "#" +:+ r <> "" /\ Py.contains "#" (p +:+ "#" +:+ r) = true.
Proof.
  split.
  - destruct p; discriminate.
  - rewrite contains_char_app. change ("#" +:+ r) with (String "#" r).
    rewrite contains_char_cons. apply orb_true_r.
Qed.

(** C10.  [_normalize_pagination_token] is a total function (the only
    exceptions of the source, [ValueError] of [int] and [IndexError] of
    [split(...)[0]], are caught, and the second cannot occur), and it
    classifies as follows: [None] and the empty token give API mode with no
    value; a token whose text before the first ['#'] is accepted by [int]
    gives offset mode with that integer; a token with a ['#'] whose text
    before it is rejected by [int] gives API mode with the whole token; a
    non-empty token without ['#'] gives API mode with the token. *)
Theorem normalize_pagination_token_classification :
  _normalize_pagination_token None = Api None
  /\ _normalize_pagination_token (Some "") = Api None
  /\ (forall p r n,
        Py.contains "#" p = false -> Py.int p = Some n ->
        _normalize_pagination_token (Some (p +:+ "#" +:+ r)) = Offset n)
  /\ (forall p r,
        Py.contains "#" p = false -> Py.int p = None ->
        _normalize_pagination_token (Some (p +:+ "#" +:+ r))
        = Api (Some (p +:+ "#" +:+ r)))
  /\ (forall t,
        t <> "" -> Py.contains "#" t = false ->
        _normalize_pagination_token (Some t) = Api (Some t)).
Proof.
  repeat split.
  - intros p r n Hp Hn. destruct (hash_token_shape p r) as [Hne Hh].
    rewrite normalize_pagination_token_nonempty, Hh by exact Hne.
    change ("#" +:+ r) with (String "#" r).
    now rewrite (split_hd_before "#" p r Hp), Hn.
  - intros p r Hp Hn. destruct (hash_token_shape p r) as [Hne Hh].
    rewrite normalize_pagination_token_nonempty, Hh by exact Hne.
    change ("#" +:+ r) with (String "#" r).
    now rewrite (split_hd_before "#" p r Hp), Hn.
  - intros t Ht Hno.
    now rewrite normalize_pagination_token_nonempty, Hno by exact Ht.
Qed.

Example normalize_pagination_token_samples :
  _normalize_pagination_token (Some "24#12") = Offset 24
  /\ _normalize_pagination_token (Some "abc#12") = Api (Some "abc#12")
  /\ _normalize_pagination_token (Some "#") = Api (Some "#")
  /\ _normalize_pagination_token (Some "AQHx9") = Api (Some "AQHx9").
Proof. vm_compute. repeat split. Qed.

(** *** First-seen order *)

Section Uniq.

Lemma elem_of_uniq (x : string) (l : list string) : x ∈ uniq l <-> x ∈ l.
Proof.
  induction l as [|a l IH]; [reflexivity|].
  cbn [uniq]. rewrite !elem_of_cons, list_elem_of_filter, IH.
  destruct (decide (x = a)); tauto.
Qed.

Lemma NoDup_uniq (l : list string) : NoDup (uniq l).
Proof.
  induction l as [|a l IH]; [constructor|].
  cbn [uniq]. apply NoDup_cons. split.
  - rewrite list_elem_of_filter. tauto.
  - now apply NoDup_filter.
Qed.

(** An id seen again later does not move; a new id goes to the end. *)
Lemma uniq_snoc (l : list string) (x : string) :
  uniq (l ++ [x]) = if decide (x ∈ l) then uniq l else uniq l ++ [x].
Proof.
  induction l as [|a l IH].
  - cbn. destruct (decide (x ∈ [])) as [H|_]; [inversion H | reflexivity].
  - cbn [app uniq]. rewrite IH.
    destruct (decide (x = a)) as [->|Hne].
    + destruct (decide (a ∈ a :: l)) as [_|H]; [|exfalso; apply H; left].
      destruct (decide (a ∈ l)); [reflexivity|].
      rewrite filter_app, filter_cons_False, filter_nil by naive_solver.
      now rewrite app_nil_r.
    + destruct (decide (x ∈ l)) as [Hin|Hnin].
      * destruct (decide (x ∈ a :: l)) as [_|H]; [reflexivity|].
        exfalso. apply H. now right.
      * destruct (decide (x ∈ a :: l)) as [H|_].
        { apply elem_of_cons in H as [?|?]; congruence. }
        now rewrite filter_app, filter_cons_True, filter_nil by done.
Qed.

Lemma uniq_length_le (l : list string) : length (uniq l) <= length l.
Proof.
  induction l as [|a l IH]; [reflexivity|].
  cbn [uniq length]. pose proof (length_filter (fun y : string => y <> a) (uniq l)). lia.
Qed.

End Uniq.

(** *** The pagination walker *)

Section WalkerFacts.

Context (E : Endpoint) (account_owner : string) (max_results : Z).

#[local] Abbreviation M := (Z.to_nat max_results).
#[local] Abbreviation add := (add_ids max_results).
#[local] Abbreviation pass := (body E account_owner max_results).
#[local] Abbreviation run := (loop E account_owner max_results).
#[local] Abbreviation Walk := (Walk E).

(** One turn of the inner loop of [add_ids] keeps the accumulated list equal
    to the first [max_results] ids in first-seen order. *)
Lemma add_id_take (l : list string) (x : string) :
  (let all := take M (uniq l) in
   if (Z.of_nat (length all) >=? max_results)%Z then all
   else if decide (x ∈ all) then all else all ++ [x])
  = take M (uniq (l ++ [x])).
Proof.
  cbv zeta. rewrite uniq_snoc.
  destruct (Z.geb_spec (Z.of_nat (length (take M (uniq l)))) max_results) as [Hge|Hlt].
  - rewrite length_take in Hge.
    destruct (decide (x ∈ l)); [reflexivity|].
    rewrite take_app_le by lia. reflexivity.
  - rewrite length_take in Hlt.
    assert (Hlen : length (uniq l) < M) by lia.
    rewrite (take_ge (uniq l)) by lia.
    destruct (decide (x ∈ uniq l)) as [Hin|Hnin].
    + rewrite elem_of_uniq in Hin.
      destruct (decide (x ∈ l)); [|contradiction].
      now rewrite take_ge by lia.
    + rewrite elem_of_uniq in Hnin.
      destruct (decide (x ∈ l)); [contradiction|].
      rewrite take_ge; [reflexivity|]. rewrite length_app. cbn. lia.
Qed.

Lemma add_ids_take (l ad_ids : list string) :
  add (take M (uniq l)) ad_ids = take M (uniq (l ++ ad_ids)).
Proof.
  revert l. induction ad_ids as [|x ids IH]; intros l.
  - now rewrite app_nil_r.
  - unfold add_ids in *. cbn [fold_left].
    pose proof (add_id_take l x) as H. cbv zeta in H. rewrite H.
    rewrite IH. now rewrite <- app_assoc.
Qed.

Lemma advance_cases (w w' : Walk) (next_token : option string) (s : option Stop) :
  advance E w next_token = (w', s) ->
  all_ad_ids w' = all_ad_ids w /\ fetched w' = fetched w
  /\ page_ids w' = page_ids w /\ seen_tokens w' = seen_tokens w
  /\ (s = None ->
        pagination_token w' = next_token /\ truthy next_token = true
        /\ next_token <> pagination_token w
        /\ page_num w' = (page_num w + 1)%Z /\ (page_num w' <= 100)%Z).
Proof.
  unfold advance. intros H.
  destruct (decide (next_token = pagination_token w)) as [Heq|Hne].
  { inversion H; subst. repeat split; discriminate. }
  destruct (truthy next_token) eqn:Ht; cbn [negb] in H.
  2:{ inversion H; subst. cbn. repeat split; discriminate. }
  cbn in H.
  destruct (Z.gtb_spec (page_num w + 1) 100) as [Hgt|Hle].
  - inversion H; subst. cbn. repeat split; discriminate.
  - inversion H; subst. cbn. repeat split; try assumption. 
Qed.

(** What one pass does: either the token was seen and nothing is fetched, or
    exactly one fetch is made with the current token. *)
Lemma body_cases (w w' : Walk) (s : option Stop) :
  pass w = (w', s) ->
  (w' = w /\ s = Some TokenSeen
   /\ truthy (pagination_token w) = true
   /\ in_seen (pagination_token w) (seen_tokens w) = true)
  \/
  (truthy (pagination_token w) && in_seen (pagination_token w) (seen_tokens w) = false
   /\ fetched w' = fetched w ++ [pagination_token w]
   /\ (forall t, t ∈ seen_tokens w -> t ∈ seen_tokens w')
   /\ (forall t, pagination_token w = Some t ->
                 truthy (pagination_token w) = true -> t ∈ seen_tokens w')
   /\ ((page_ids w' = page_ids w /\ all_ad_ids w' = all_ad_ids w /\ s <> None)
       \/ exists ids,
            page_ids w' = page_ids w ++ [ids]
            /\ all_ad_ids w' = add (all_ad_ids w) ids
            /\ (s = None ->
                  truthy (pagination_token w') = true
                  /\ pagination_token w' <> pagination_token w
                  /\ page_num w' = (page_num w + 1)%Z
                  /\ (page_num w' <= 100)%Z))).
Proof.
  unfold body. intros H.
  destruct (truthy (pagination_token w) && in_seen (pagination_token w) (seen_tokens w))
    eqn:Hguard.
  { inversion H; subst. left. apply andb_true_iff in Hguard. tauto. }
  right. split; [reflexivity|].
  set (seen := match pagination_token w with
               | Some t => if truthy (pagination_token w)
                           then {[t]} ∪ seen_tokens w else seen_tokens w
               | None => seen_tokens w
               end) in *.
  assert (Hseen1 : forall t, t ∈ seen_tokens w -> t ∈ seen).
  { intros t Ht. unfold seen. destruct (pagination_token w); [|exact Ht].
    destruct (truthy _); set_solver. }
  assert (Hseen2 : forall t, pagination_token w = Some t ->
                     truthy (pagination_token w) = true -> t ∈ seen).
  { intros t Ht Htr. unfold seen. rewrite Ht in *. rewrite Htr. set_solver. }
  destruct (match _normalize_pagination_token (pagination_token w) with
            | Api value => fetch_api_page E account_owner value (remote w)
            | Offset value => fetch_offset_page E account_owner value (remote w)
            end) as [data remote'].
  destruct data as [data|].
  2:{ inversion H; subst. cbn. repeat split; auto;
    try (left; repeat split; auto; discriminate). }
  destruct (html data) as [|c h] eqn:Hhtml.
  { inversion H; subst. cbn. repeat split; auto;
    try (left; repeat split; auto; discriminate). }
  set (ids := extract_ad_ids_from_html (String c h)) in *.
  assert (Hadv : forall w2 w' s,
             advance E w2 (paginationToken data) = (w', s) ->
             fetched w2 = fetched w ++ [pagination_token w] ->
             seen_tokens w2 = seen ->
             page_ids w2 = page_ids w ++ [ids] ->
             all_ad_ids w2 = add (all_ad_ids w) ids ->
             pagination_token w2 = pagination_token w ->
             page_num w2 = page_num w ->
             fetched w' = fetched w ++ [pagination_token w]
             /\ (forall t, t ∈ seen_tokens w -> t ∈ seen_tokens w')
             /\ (forall t, pagination_token w = Some t ->
                    truthy (pagination_token w) = true -> t ∈ seen_tokens w')
             /\ ((page_ids w' = page_ids w /\ all_ad_ids w' = all_ad_ids w /\ s <> None)
                 \/ exists ids,
                     page_ids w' = page_ids w ++ [ids]
                     /\ all_ad_ids w' = add (all_ad_ids w) ids
                     /\ (s = None ->
                           truthy (pagination_token w') = true
                           /\ pagination_token w' <> pagination_token w
                           /\ page_num w' = (page_num w + 1)%Z
                           /\ (page_num w' <= 100)%Z))).
  { intros w2 w'' s'' Ha Hf Hs Hp Hi Ht Hn.
    apply advance_cases in Ha as (Ha1 & Ha2 & Ha3 & Ha4 & Ha5).
    rewrite Ha2, Ha4, Hs, Hf. repeat split; auto.
    right. exists ids. rewrite Ha3, Ha1, Hp, Hi. repeat split; auto;
      destruct (Ha5 H0) as (? & ? & ? & ? & ?); congruence. }
  destruct ids as [|i ids'] eqn:Hids.
  - destruct (truthy (paginationToken data)); cbn [negb] in H.
    + eapply Hadv; [exact H|reflexivity..].
    + inversion H; subst. cbn. repeat split; auto;
      try (right; exists []; repeat split; discriminate).
  - match type of H with
    | (if ?c then _ else _) = _ => destruct c
    end.
    + inversion H; subst. cbn. repeat split; auto;
      try (right; exists (i :: ids'); repeat split; discriminate).
    + eapply Hadv; [exact H|reflexivity..].
Qed.

Lemma body_preserves (w w' : Walk) (s : option Stop) :
  AtHead w -> WalkInv max_results w ->
  (Z.of_nat (length (all_ad_ids w)) < max_results)%Z ->
  pass w = (w', s) ->
  WalkInv max_results w' /\ (s = None -> AtHead w').
Proof.
  intros [Hnum Hlim Hpages Htok] [Iids Ind Iseen Ipg Icnt Ilast] Hlt Hb.
  apply body_cases in Hb as [(-> & -> & _) | (Hguard & Hf & Hs1 & Hs2 & Hrest)].
  { split; [now constructor | discriminate]. }
  assert (Hfresh : pagination_token w ∉ fetched w).
  { intros Hin. destruct Htok as [Hnil|Htr]; [rewrite Hnil in Hin; inversion Hin|].
    rewrite Htr in Hguard. cbn in Hguard.
    destruct (pagination_token w) as [t|] eqn:Et; [|discriminate].
    cbn in Hguard. apply bool_decide_eq_false in Hguard.
    apply Hguard, Iseen; assumption. }
  assert (Hlen : length (fetched w') = S (length (fetched w))).
  { rewrite Hf, length_app. cbn. lia. }
  assert (Hprev : take (length (fetched w') - 1) (page_ids w') = page_ids w).
  { rewrite Hlen, <- Hpages. replace (S (length (page_ids w)) - 1) with (length (page_ids w)) by lia.
    destruct Hrest as [(-> & _) | (ids & -> & _)].
    - now apply take_ge.
    - now rewrite take_app_length. }
  assert (Hids' : all_ad_ids w'
                  = take M (uniq (concat (page_ids w')))).
  { destruct Hrest as [(-> & -> & _) | (ids & -> & -> & _)]; [exact Iids|].
    rewrite Iids, add_ids_take, concat_app. cbn [concat]. now rewrite app_nil_r. }
  split.
  - constructor.
    + exact Hids'.
    + rewrite Hf. apply NoDup_app. repeat split; [exact Ind | | apply NoDup_singleton].
      intros x Hx Hx'. apply list_elem_of_singleton in Hx'. now subst x.
    + intros t Ht Hin. rewrite Hf in Hin. apply elem_of_app in Hin as [Hin|Hin].
      * apply Hs1, Iseen; assumption.
      * apply list_elem_of_singleton in Hin. apply Hs2; [congruence|].
        now rewrite <- Hin.
    + rewrite Hlen.
      destruct Hrest as [(-> & _) | (ids & -> & _)]; [lia|].
      rewrite length_app. cbn. lia.
    + lia.
    + right. rewrite Hprev, <- Iids. exact Hlt.
  - intros ->. destruct Hrest as [(_ & _ & Hs) | (ids & Hp & _ & Hnext)]; [congruence|].
    destruct (Hnext eq_refl) as (Htr & _ & Hpn & Hle).
    constructor; [lia | exact Hle | | now right].
    rewrite Hp, length_app. cbn. lia.
Qed.

(** The page counter bounds the passes: with enough fuel the loop ends with
    a stop. *)
Lemma loop_stops (fuel : nat) (w : Walk) :
  AtHead w -> WalkInv max_results w ->
  (101 - page_num w <= Z.of_nat fuel)%Z ->
  exists w' stop, run fuel w = (w', Some stop) /\ WalkInv max_results w'.
Proof.
  revert w. induction fuel as [|k IH]; intros w Hh Hi Hfuel.
  - destruct Hh. lia.
  - cbn [loop].
    destruct (Z.ltb_spec (Z.of_nat (length (all_ad_ids w))) max_results) as [Hlt|Hge].
    2:{ exists w, TargetReached. now split. }
    destruct (pass w) as [w1 [s|]] eqn:Hb.
    + exists w1, s. split; [reflexivity|].
      now apply (body_preserves w w1 (Some s)).
    + destruct (body_preserves w w1 None Hh Hi Hlt Hb) as [Hi1 Hh1].
      specialize (Hh1 eq_refl).
      apply IH; [assumption..|].
      apply body_cases in Hb as [(_ & ? & _) | (_ & _ & _ & _ & Hrest)]; [discriminate|].
      destruct Hrest as [(_ & _ & ?) | (ids & _ & _ & Hn)]; [congruence|].
      destruct (Hn eq_refl) as (_ & _ & Hpn & _). lia.
Qed.

Lemma loop_fuel_mono (fuel fuel' : nat) (w w' : Walk) (stop : Stop) :
  run fuel w = (w', Some stop) -> fuel <= fuel' ->
  run fuel' w = (w', Some stop).
Proof.
  revert fuel' w. induction fuel as [|k IH]; intros fuel' w H Hle.
  - discriminate.
  - destruct fuel' as [|k']; [lia|].
    cbn [loop] in *.
    destruct (Z.of_nat (length (all_ad_ids w)) <? max_results)%Z; [|exact H].
    destruct (pass w) as [w1 [s|]]; [exact H|].
    apply IH; [exact H | lia].
Qed.

Lemma start_head (r : Remote E) : AtHead (start E r).
Proof. constructor; cbn; [reflexivity | lia | reflexivity | now left]. Qed.

Lemma start_inv (r : Remote E) : WalkInv max_results (start E r).
Proof.
  constructor; cbn.
  - now rewrite take_nil.
  - constructor.
  - intros t _ H. inversion H.
  - lia.
  - lia.
  - now left.
Qed.

(** The walk always ends with a stop, in a state that satisfies the
    invariant, and more fuel changes nothing. *)
Lemma walk_fuel_enough (r : Remote E) :
  exists w stop,
    scrape_search_pages E account_owner max_results r = (w, Some stop)
    /\ WalkInv max_results w
    /\ forall fuel, 100 <= fuel -> run fuel (start E r) = (w, Some stop).
Proof.
  destruct (loop_stops 100 (start E r) (start_head r) (start_inv r))
    as (w & stop & Hl & Hi); [cbn; lia|].
  exists w, stop. split; [exact Hl | split; [exact Hi|]].
  intros fuel Hf. now apply (loop_fuel_mono 100).
Qed.

End WalkerFacts.

Section WalkerClaims.

Context (E : Endpoint) (account_owner : string) (max_results : Z).

(** C1.  In every walk of [scrape_search_pages] the values of
    [pagination_token] used for the fetches are pairwise different; a pass
    whose token is in [seen_tokens] stops the walk before any fetch; and a
    pass is followed by another one only if its token was not in
    [seen_tokens] and the token that the page returned differs from the token
    just used. *)
Theorem walker_never_refetches_token (r : Remote E) :
  NoDup (fetched (fst (scrape_search_pages E account_owner max_results r)))
  /\ (forall w : Walk E,
        truthy (pagination_token w) = true ->
        in_seen (pagination_token w) (seen_tokens w) = true ->
        body E account_owner max_results w = (w, Some TokenSeen))
  /\ (forall w w' : Walk E,
        body E account_owner max_results w = (w', None) ->
        fetched w' = fetched w ++ [pagination_token w]
        /\ truthy (pagination_token w)
           && in_seen (pagination_token w) (seen_tokens w) = false
        /\ pagination_token w' <> pagination_token w).
Proof.
  split; [|split].
  - destruct (walk_fuel_enough E account_owner max_results r)
      as (w & stop & -> & Hi & _).
    apply Hi.
  - intros w Ht Hs. unfold body. now rewrite Ht, Hs.
  - intros w w' Hb.
    apply body_cases in Hb as [(_ & ? & _) | (Hg & Hf & _ & _ & Hrest)];
      [discriminate|].
    repeat split; [exact Hf | exact Hg |].
    destruct Hrest as [(_ & _ & ?) | (ids & _ & _ & Hn)]; [congruence|].
    now destruct (Hn eq_refl) as (_ & ? & _).
Qed.

(** C2.  The list returned by [scrape_search_pages] is the first
    [max_results] ids, in first-seen order and without duplicates, of the
    pages of the walk; so it has no duplicate and at most [max_results]
    elements (none for a target below zero); and pages with the ids [A,B,C]
    and then [B,C,D] accumulate to [A,B,C,D]. *)
Theorem accumulated_ids_ordered_unique_truncated (r : Remote E) :
  let w := fst (scrape_search_pages E account_owner max_results r) in
  all_ad_ids w = take (Z.to_nat max_results) (uniq (concat (page_ids w)))
  /\ NoDup (all_ad_ids w)
  /\ (Z.of_nat (length (all_ad_ids w)) <= Z.max 0 max_results)%Z
  /\ (forall A B C D : string,
        A <> B -> A <> C -> A <> D -> B <> C -> B <> D -> C <> D ->
        (4 <= max_results)%Z ->
        add_ids max_results (add_ids max_results [] [A; B; C]) [B; C; D]
        = [A; B; C; D]).
Proof.
  cbv zeta.
  destruct (walk_fuel_enough E account_owner max_results r)
    as (w & stop & -> & Hi & _).
  cbn [fst]. destruct Hi as [Hids _ _ _ _ _].
  split; [exact Hids|]. rewrite Hids. split; [|split].
  - eapply sublist_NoDup; [apply NoDup_uniq | apply sublist_take].
  - rewrite length_take. lia.
  - intros A B C D HAB HAC HAD HBC HBD HCD Hmax.
    replace (add_ids max_results [] [A; B; C])
      with (add_ids max_results (take (Z.to_nat max_results) (uniq [])) [A; B; C])
      by (cbn [uniq]; now rewrite take_nil).
    rewrite !add_ids_take. cbn [app uniq].
    repeat first
      [ rewrite filter_nil
      | rewrite filter_cons_True by congruence
      | rewrite filter_cons_False by (intros Hf; now apply Hf) ].
    apply take_ge. cbn. lia.
Qed.

(** C6.  The walk of [scrape_search_pages] always ends with a stop (the
    loop is never cut short: any fuel from 100 on gives the same result),
    after at most 100 fetches; and when the first [k] pages of the walk carry
    at least [k * ipp] distinct ids, for every [k], it ends after at most
    [min(ceil(max_results / ipp), 100)] fetches. *)
Theorem walker_terminates_within_bound (r : Remote E) :
  let res := scrape_search_pages E account_owner max_results r in
  (exists stop, snd res = Some stop)
  /\ (forall fuel, 100 <= fuel ->
        loop E account_owner max_results fuel (start E r) = res)
  /\ length (fetched (fst res)) <= 100
  /\ (forall ipp : nat,
        0 < ipp -> productive ipp (page_ids (fst res)) ->
        (Z.of_nat (length (fetched (fst res)))
         <= Z.min (Z.max 0 ((max_results + Z.of_nat ipp - 1) / Z.of_nat ipp)) 100)%Z).
Proof.
  cbv zeta.
  destruct (walk_fuel_enough E account_owner max_results r)
    as (w & stop & -> & Hi & Hfuel).
  cbn [fst snd]. destruct Hi as [_ _ _ Hpg Hcnt Hlast].
  split; [now exists stop|]. split; [exact Hfuel|]. split; [exact Hcnt|].
  intros ipp Hipp Hprod.
  apply Z.min_glb; [|lia].
  destruct Hlast as [->|Hlast]; [cbn; lia|].
  set (n := length (fetched w)) in *.
  assert (Hk : n - 1 <= length (page_ids w)) by lia.
  specialize (Hprod (n - 1) Hk).
  rewrite length_take in Hlast.
  set (L := length (uniq (concat (take (n - 1) (page_ids w))))) in *.
  assert (Hbound : (Z.of_nat ((n - 1) * ipp) < max_results)%Z) by lia.
  apply Z.max_le_iff. right.
  apply Z.div_le_lower_bound; [lia|].
  destruct n as [|n']; [lia|].
  replace (S n' - 1) with n' in Hbound by lia. nia.
Qed.

End WalkerClaims.

Lemma walker_terminates_within_bound_witness :
  productive 8 (page_ids (fst (scrape_search_pages scripted "Nike" 15 twelve_then_eight)))
  /\ (Z.of_nat (length (fetched (fst (scrape_search_pages scripted "Nike" 15
                                       twelve_then_eight))))
      <= Z.min (Z.max 0 ((15 + Z.of_nat 8 - 1) / Z.of_nat 8)) 100)%Z.
Proof.
  assert (Hp : productive 8
                 (page_ids (fst (scrape_search_pages scripted "Nike" 15 twelve_then_eight)))).
  { assert (E : page_ids (fst (scrape_search_pages scripted "Nike" 15 twelve_then_eight))
                = [ids_from 1 12; ids_from 13 8]) by (vm_compute; reflexivity).
    rewrite E. intros k Hk. cbn [length] in Hk.
    destruct k as [|[|[|k]]]; [vm_compute; lia .. | lia]. }
  split; [exact Hp|].
  apply (walker_terminates_within_bound scripted "Nike" 15 twelve_then_eight);
    [lia | exact Hp].
Defined.

(** The end-to-end scenarios of the walker on scripted services: pages with
    the ids [101,102,103] and [102,103,104]; twelve then eight ids with a
    target of fifteen; a page that returns the token it was fetched with. *)

Example walk_overlapping_pages :
  let '(w, stop) :=
    scrape_search_pages scripted "Nike" 100
      [page_of ["101"; "102"; "103"] (Some "t1"); page_of ["102"; "103"; "104"] None] in
  all_ad_ids w = ["101"; "102"; "103"; "104"]
  /\ fetched w = [None; Some "t1"] /\ stop = Some NoMorePages.
Proof. vm_compute. repeat split. Qed.

Example walk_twelve_then_eight :
  let '(w, stop) :=
    scrape_search_pages scripted "Nike" 15 twelve_then_eight in
  all_ad_ids w = ids_from 1 15
  /\ length (fetched w) = 2 /\ stop = Some NoMorePages.
Proof. vm_compute. repeat split. Qed.

Example walk_same_token :
  let '(w, stop) :=
    scrape_search_pages scripted "Nike" 100
      [page_of ["7"; "8"] None; page_of ["9"] None] in
  all_ad_ids w = ["7"; "8"] /\ fetched w = [None] /\ stop = Some SameToken.
Proof. vm_compute. repeat split. Qed.

(** *** Substrings *)

Section Substrings.

Lemma prefix_spec (p s : string) :
  String.prefix p s = true <-> exists b, s = p +:+ b.
Proof.
  revert s. induction p as [|c p IH]; intros s.
  - rewrite prefix_nil. split; [intros _; now exists s | reflexivity].
  - destruct s as [|a s]; cbn [String.prefix].
    + split; [discriminate | intros [b Hb]; discriminate].
    + destruct (ascii_dec c a) as [->|Hne].
      * rewrite IH. split; intros [b Hb]; exists b.
        -- now rewrite app_cons_s, <- Hb.
        -- rewrite app_cons_s in Hb. now inversion Hb.
      * split; [discriminate|]. intros [b Hb].
        rewrite app_cons_s in Hb. inversion Hb. congruence.
Qed.

(** [Py.contains sub s] is the substring relation. *)
Lemma contains_spec (sub s : string) :
  Py.contains sub s = true <-> exists a b, s = a +:+ sub +:+ b.
Proof.
  induction s as [|c s IH]; cbn [Py.contains].
  - rewrite prefix_spec. split.
    + intros [b Hb]. exists "", b. exact Hb.
    + intros (a & b & H). destruct a; [|discriminate].
      exists b. exact H.
  - rewrite orb_true_iff, prefix_spec, IH. split.
    + intros [[b Hb] | (a & b & Hab)].
      * exists "", b. exact Hb.
      * exists (String c a), b. now rewrite app_cons_s, <- Hab.
    + intros (a & b & H). destruct a as [|x a].
      * left. exists b. exact H.
      * right. rewrite app_cons_s in H. inversion H. now exists a, b.
Qed.

End Substrings.

(** *** Detail-page text cleaning *)

Section TextCleaning.

Lemma collect_text_parts_elem (texts : list string) (t : string) :
  t ∈ collect_text_parts texts ->
  t ∈ texts /\ exists seen, keeps_text seen t = true.
Proof.
  unfold collect_text_parts.
  assert (H : forall seen parts,
             t ∈ snd (fold_left
                        (fun '(seen_texts, ad_text_parts) text =>
                           if keeps_text seen_texts text
                           then ({[text]} ∪ seen_texts, ad_text_parts ++ [text])
                           else (seen_texts, ad_text_parts))
                        texts (seen, parts)) ->
             t ∈ parts \/ (t ∈ texts /\ exists seen, keeps_text seen t = true)).
  { induction texts as [|x texts IH]; intros seen parts Hin; [now left|].
    cbn [fold_left] in Hin.
    destruct (keeps_text seen x) eqn:Hk.
    - apply IH in Hin as [Hin | (Hin & Hs)].
      + apply elem_of_app in Hin as [Hin|Hin]; [now left|].
        apply list_elem_of_singleton in Hin. subst x.
        right. split; [left | now exists seen].
      + right. split; [now right | exact Hs].
    - apply IH in Hin as [Hin | (Hin & Hs)]; [now left|].
      right. split; [now right | exact Hs]. }
  intros Hin. apply H in Hin as [Hin|Hin]; [inversion Hin | exact Hin].
Qed.

Lemma apart_snoc (l : list string) (t : string) :
  apart l ->
  existsb (fun existing => Py.contains t existing || Py.contains existing t) l = false ->
  apart (l ++ [t]).
Proof.
  intros Hl Hex i j ti tj Hij Hi Hj.
  assert (Hjlen : j < length (l ++ [t])) by (eapply lookup_lt_Some; eassumption).
  rewrite length_app in Hjlen. cbn in Hjlen.
  destruct (decide (j < length l)) as [Hlt|Hge].
  - rewrite lookup_app_l in Hi by lia. rewrite lookup_app_l in Hj by lia.
    now apply (Hl i j).
  - assert (j = length l) by lia. subst j.
    rewrite lookup_app_l in Hi by lia.
    rewrite list_lookup_middle in Hj by reflexivity. inversion Hj; subst tj.
    assert (Hin : In ti l).
    { apply list_elem_of_In, list_elem_of_lookup. now exists i. }
    rewrite <- not_true_iff_false, existsb_exists in Hex.
    destruct (Py.contains ti t) eqn:E1, (Py.contains t ti) eqn:E2; try (split; reflexivity);
      exfalso; apply Hex; exists ti; (split; [exact Hin|]);
      rewrite ?E1, ?E2; reflexivity.
Qed.

Lemma unique_texts_spec (parts : list string) :
  apart (unique_texts parts)
  /\ forall t, t ∈ unique_texts parts -> t ∈ parts.
Proof.
  unfold unique_texts.
  assert (H : forall acc,
             apart acc ->
             let r := fold_left
               (fun unique text =>
                  if existsb (fun existing =>
                       Py.contains text existing || Py.contains existing text) unique
                  then unique else unique ++ [text]) parts acc in
             apart r /\ forall t, t ∈ r -> t ∈ acc \/ t ∈ parts).
  { induction parts as [|x parts IH]; intros acc Hacc; cbn [fold_left].
    - split; [exact Hacc | now left].
    - destruct (existsb _ acc) eqn:Hex.
      + destruct (IH acc Hacc) as [Ha Hb]. split; [exact Ha|].
        intros t Ht. destruct (Hb t Ht); [now left | right; now right].
      + destruct (IH (acc ++ [x]) (apart_snoc acc x Hacc Hex)) as [Ha Hb].
        split; [exact Ha|]. intros t Ht.
        destruct (Hb t Ht) as [Hin|Hin]; [|right; now right].
        apply elem_of_app in Hin as [Hin|Hin]; [now left|].
        apply list_elem_of_singleton in Hin. subst. right; left. }
  destruct (H []) as [Ha Hb].
  { intros i j ti tj _ Hi. inversion Hi. }
  split; [exact Ha|]. intros t Ht. destruct (Hb t Ht) as [Hin|Hin]; [inversion Hin | exact Hin].
Qed.

(** C8.  The text blocks kept for [ad_text] are at most five; each is one of
    the candidates, has more than 10 and fewer than 2000 characters and
    contains (in lower case) none of the boilerplate phrases; no kept block
    is a substring of, or contains, a block kept before it; and of the
    candidates "Buy now", "Buy now today", "Cookie policy applies" only
    "Buy now today" is kept. *)
Theorem kept_texts_clean (texts : list string) :
  length (kept_texts texts) <= 5
  /\ (forall t, t ∈ kept_texts texts ->
        t ∈ texts
        /\ 10 < String.length t < 2000
        /\ forall skip, skip ∈ boilerplate -> Py.contains skip (Py.lower t) = false)
  /\ (forall i j ti tj,
        i < j -> kept_texts texts !! i = Some ti -> kept_texts texts !! j = Some tj ->
        Py.contains ti tj = false /\ Py.contains tj ti = false)
  /\ kept_texts ["Buy now"; "Buy now today"; "Cookie policy applies"]
     = ["Buy now today"].
Proof.
  unfold kept_texts.
  destruct (unique_texts_spec (collect_text_parts texts)) as [Hapart Hsub].
  split; [|split; [|split]].
  - rewrite length_take. lia.
  - intros t Ht.
    assert (Hin : t ∈ unique_texts (collect_text_parts texts)).
    { eapply elem_of_sublist; [exact Ht | apply sublist_take]. }
    apply Hsub, collect_text_parts_elem in Hin as (Hin & seen & Hk).
    split; [exact Hin|].
    unfold keeps_text in Hk. rewrite !andb_true_iff in Hk.
    destruct Hk as ((((_ & Hlo) & Hhi) & _) & Hb).
    apply Nat.ltb_lt in Hlo, Hhi. split; [lia|].
    intros skip Hskip. apply negb_true_iff in Hb.
    unfold is_boilerplate in Hb.
    rewrite <- not_true_iff_false, existsb_exists in Hb.
    destruct (Py.contains skip (Py.lower t)) eqn:Ec; [|reflexivity].
    exfalso. apply Hb. exists skip. split; [now apply list_elem_of_In | exact Ec].
  - intros i j ti tj Hij Hi Hj.
    apply lookup_take_Some in Hi as [Hi _], Hj as [Hj _].
    now apply (Hapart i j).
  - vm_compute. reflexivity.
Qed.

End TextCleaning.

(** *** Ad-type inference *)

(** C9.  Without an explicit marker the type recorded by
    [scrape_ad_detail_with_bs4] is absent whatever assets the page has: the
    heuristic block runs while [ad_detail["assets"]] still holds the empty
    lists it was created with.  For a page with one video and no marker the
    record has the video and no type, where the asset shapes give
    "Video Ad". *)
Theorem ad_type_inferred_before_assets :
  (forall extracted,
     ad_type (detail_type_and_assets None extracted) = None
     /\ assets (detail_type_and_assets None extracted) = extracted)
  /\ (let page := {| images := [];
                     videos := ["https://dms.licdn.com/playlist/vid/v2/clip.mp4"];
                     posters := [] |} in
      ad_type (detail_type_and_assets None page) = None
      /\ spec_ad_type None page = Some "Video Ad").
Proof. split; [intros extracted; split; reflexivity | split; reflexivity]. Qed.

(** With an explicit marker both agree, and the heuristics themselves follow
    the asset shapes when the record holds the assets. *)
Lemma infer_ad_type_shapes (a : Assets) :
  ad_type (infer_ad_type {| ad_type := None; assets := a |}) = spec_ad_type None a.
Proof.
  unfold infer_ad_type, spec_ad_type. cbn.
  destruct (videos a), (images a) as [|? [|? ?]]; reflexivity.
Qed.

(** *** [urlparse] and the query string *)

Section UrlFacts.

Context `{Library}.

Lemma lstrip_app_tail (P : ascii -> bool) (b t : string) :
  match t with EmptyString => True | String c _ => P c = false end ->
  Py.lstrip P (b +:+ t) = Py.lstrip P b +:+ t.
Proof.
  intros Ht. induction b as [|x b IH].
  - rewrite !app_nil_l_s. destruct t as [|c t]; [reflexivity|].
    cbn [Py.lstrip]. now rewrite Ht.
  - rewrite app_cons_s. cbn [Py.lstrip]. destruct (P x); [exact IH | reflexivity].
Qed.

Lemma remove_chars_app (P : ascii -> bool) (a b : string) :
  Py.remove_chars P (a +:+ b) = Py.remove_chars P a +:+ Py.remove_chars P b.
Proof.
  induction a as [|x a IH]; [reflexivity|].
  rewrite app_cons_s. cbn [Py.remove_chars].
  destruct (P x); [exact IH | now rewrite app_cons_s, IH].
Qed.

Lemma contains_char_lstrip (c : ascii) (P : ascii -> bool) (s : string) :
  Py.contains (String c "") s = false ->
  Py.contains (String c "") (Py.lstrip P s) = false.
Proof.
  induction s as [|x s IH]; [reflexivity|].
  intros Hs. cbn [Py.lstrip]. destruct (P x); [|exact Hs].
  rewrite contains_char_cons in Hs. apply orb_false_elim in Hs as [_ Hs]. auto.
Qed.

Lemma contains_char_remove (c : ascii) (P : ascii -> bool) (s : string) :
  Py.contains (String c "") s = false ->
  Py.contains (String c "") (Py.remove_chars P s) = false.
Proof.
  induction s as [|x s IH]; [reflexivity|].
  intros Hs. rewrite contains_char_cons in Hs. apply orb_false_elim in Hs as [Hx Hs].
  cbn [Py.remove_chars]. destruct (P x); [auto|].
  rewrite contains_char_cons, Hx. cbn. auto.
Qed.

Lemma split_once_app (c : ascii) (b x : string) :
  Py.contains (String c "") b = false ->
  Py.split_once c (b +:+ x)
  = (b +:+ fst (Py.split_once c x), snd (Py.split_once c x)).
Proof.
  induction b as [|a b IH]; intros Hb.
  - rewrite !app_nil_l_s. now destruct (Py.split_once c x).
  - rewrite contains_char_cons in Hb. apply orb_false_elim in Hb as [Ha Hb].
    rewrite app_cons_s. cbn [Py.split_once]. rewrite Ha, (IH Hb).
    now rewrite app_cons_s.
Qed.

Lemma split_once_absent (c : ascii) (s : string) :
  Py.contains (String c "") s = false -> Py.split_once c s = (s, "").
Proof.
  intros Hs. pose proof (split_once_app c s "" Hs) as E.
  rewrite app_nil_r_s in E. cbn [Py.split_once fst snd] in E.
  now rewrite app_nil_r_s in E.
Qed.

(** Both parts of [split_once] are made of characters of the argument. *)
Lemma split_once_contains (c d : ascii) (s : string) :
  Py.contains (String d "") s = false ->
  Py.contains (String d "") (fst (Py.split_once c s)) = false
  /\ Py.contains (String d "") (snd (Py.split_once c s)) = false.
Proof.
  induction s as [|a s IH]; intros Hs; [now split|].
  rewrite contains_char_cons in Hs. apply orb_false_elim in Hs as [Ha Hs].
  cbn [Py.split_once]. destruct (Ascii.eqb a c).
  - now split.
  - destruct (IH Hs) as [I1 I2]. destruct (Py.split_once c s) as [x y].
    cbn [fst snd] in *. rewrite contains_char_cons, Ha. now split.
Qed.

Lemma span_app_tail (P : ascii -> bool) (x t : string) :
  match t with EmptyString => True | String c _ => P c = false end ->
  Re.span P (x +:+ t) = (fst (Re.span P x), snd (Re.span P x) +:+ t).
Proof.
  intros Ht. induction x as [|a x IH].
  - rewrite app_nil_l_s. destruct t as [|c t]; [reflexivity|].
    cbn [Re.span fst snd]. now rewrite Ht.
  - rewrite app_cons_s. cbn [Re.span]. destruct (P a).
    + rewrite IH. now destruct (Re.span P x).
    + cbn [fst snd]. now rewrite app_cons_s.
Qed.

Lemma span_contains (P : ascii -> bool) (d : ascii) (s : string) :
  Py.contains (String d "") s = false ->
  Py.contains (String d "") (snd (Re.span P s)) = false.
Proof.
  induction s as [|a s IH]; intros Hs; [reflexivity|].
  cbn [Re.span]. destruct (P a); [|exact Hs].
  rewrite contains_char_cons in Hs. apply orb_false_elim in Hs as [_ Hs].
  specialize (IH Hs). now destruct (Re.span P s).
Qed.

Lemma drop_contains (d : ascii) (n : nat) (s : string) :
  Py.contains (String d "") s = false ->
  Py.contains (String d "") (Py.drop n s) = false.
Proof.
  revert s. induction n as [|n IH]; intros s Hs; [now destruct s|].
  destruct s as [|a s]; [reflexivity|]. cbn [Py.drop].
  rewrite contains_char_cons in Hs. apply orb_false_elim in Hs as [_ Hs]. auto.
Qed.

Lemma all_chars_app (P : ascii -> bool) (a b : string) :
  Url.all_chars P (a +:+ b) = Url.all_chars P a && Url.all_chars P b.
Proof.
  induction a as [|x a IH]; [reflexivity|].
  rewrite app_cons_s. cbn [Url.all_chars]. now rewrite IH, andb_assoc.
Qed.

Lemma split_once_present (c : ascii) (b t : string) :
  Py.contains (String c "") b = true ->
  Py.split_once c (b +:+ t)
  = (fst (Py.split_once c b), snd (Py.split_once c b) +:+ t).
Proof.
  induction b as [|a b IH]; intros Hb; [discriminate|].
  rewrite contains_char_cons in Hb. rewrite app_cons_s. cbn [Py.split_once].
  destruct (Ascii.eqb a c); [reflexivity|].
  cbn [orb] in Hb. rewrite (IH Hb). now destruct (Py.split_once c b).
Qed.

Lemma query_fragment_not_space (t : string) :
  query_fragment t ->
  match t with
  | EmptyString => True
  | String c _ => Url.is_c0_control_or_space c = false
  end.
Proof. destruct t as [|c t]; [trivial|]. now intros [->| ->]. Qed.

Lemma query_fragment_delim (t : string) :
  query_fragment t ->
  match t with
  | EmptyString => True
  | String c _ => negb (Url.is_netloc_delim c) = false
  end.
Proof. destruct t as [|c t]; [trivial|]. now intros [->| ->]. Qed.

Lemma query_fragment_remove (t : string) :
  query_fragment t -> query_fragment (Py.remove_chars Url.is_unsafe t).
Proof.
  destruct t as [|c t]; [trivial|].
  intros [->| ->]; cbn [Py.remove_chars];
    [change (Url.is_unsafe "?") with false | change (Url.is_unsafe "#") with false];
    cbn [query_fragment]; auto.
Qed.

Lemma split_scheme_app_tail (b t : string) :
  no_query_fragment b -> query_fragment t ->
  Url.split_scheme (b +:+ t)
  = (fst (Url.split_scheme b), snd (Url.split_scheme b) +:+ t)
  /\ no_query_fragment (snd (Url.split_scheme b)).
Proof.
  intros [Hq Hf] Ht. unfold Url.split_scheme.
  rewrite contains_char_app.
  destruct (Py.contains ":" b) eqn:Hc.
  - cbn [orb]. rewrite (split_once_present ":" b t Hc).
    destruct (split_once_contains ":" "?" b Hq) as [_ Hq2].
    destruct (split_once_contains ":" "#" b Hf) as [_ Hf2].
    destruct (Py.split_once ":" b) as [before after]. cbn [fst snd] in *.
    destruct before as [|c before]; [now split|].
    destruct (Py.is_alpha c && Url.all_chars Url.is_scheme_char (String c before));
      now split.
  - cbn [orb fst snd]. split; [|now split].
    destruct (Py.contains ":" t) eqn:Hct; [|reflexivity].
    rewrite (split_once_app ":" b t Hc).
    destruct t as [|x t]; [discriminate|].
    assert (Hx : Ascii.eqb x ":" = false /\ Url.is_scheme_char x = false)
      by (destruct Ht as [->| ->]; now split).
    destruct Hx as [Hx1 Hx2].
    cbn [Py.split_once]. rewrite Hx1.
    destruct (Py.split_once ":" t) as [tb ta]. cbn [fst snd].
    destruct (b +:+ String x tb) as [|c before] eqn:Eb; [reflexivity|].
    rewrite <- Eb, all_chars_app. cbn [Url.all_chars]. rewrite Hx2.
    cbn [andb]. now rewrite !andb_false_r.
Qed.

Lemma startswith_slashes_app_tail (b t : string) :
  query_fragment t ->
  Py.startswith "//" (b +:+ t) = Py.startswith "//" b.
Proof.
  intros Ht. unfold Py.startswith.
  destruct b as [|x [|y b]].
  - rewrite app_nil_l_s. destruct t as [|c t]; [reflexivity|].
    destruct Ht as [->| ->]; reflexivity.
  - rewrite app_cons_s, app_nil_l_s. cbn [String.prefix].
    destruct (ascii_dec "/" x); [|reflexivity].
    destruct t as [|c t]; [reflexivity|].
    destruct Ht as [->| ->]; reflexivity.
  - rewrite !app_cons_s. cbn [String.prefix].
    destruct (ascii_dec "/" x); [|reflexivity].
    destruct (ascii_dec "/" y); [|reflexivity].
    now rewrite !prefix_nil.
Qed.

Lemma splitnetloc_app_tail (b t : string) :
  Py.startswith "//" b = true -> query_fragment t ->
  Url.splitnetloc (b +:+ t)
  = (fst (Url.splitnetloc b), snd (Url.splitnetloc b) +:+ t).
Proof.
  intros Hb Ht. unfold Url.splitnetloc.
  unfold Py.startswith in Hb.
  destruct b as [|x [|y b]]; cbn [String.prefix] in Hb.
  - discriminate.
  - destruct (ascii_dec "/" x); discriminate.
  - rewrite !app_cons_s. cbn [Py.drop].
    assert (Hd : forall s, Py.drop 0 s = s) by (now intros []).
    rewrite ?Hd. apply span_app_tail. now apply query_fragment_delim.
Qed.

Lemma path_app_tail (r t : string) :
  no_query_fragment r -> query_fragment t ->
  fst (Py.split_once "?" (fst (Py.split_once "#" (r +:+ t)))) = r.
Proof.
  intros [Hq Hf] Ht.
  rewrite (split_once_app "#" r t Hf). cbn [fst].
  rewrite (split_once_app "?" r _ Hq). cbn [fst].
  destruct t as [|c t]; [apply app_nil_r_s|].
  destruct Ht as [->| ->]; cbn [Py.split_once]; cbn.
  - destruct (Py.split_once "#" t). cbn. apply app_nil_r_s.
  - apply app_nil_r_s.
Qed.

(** A query string and a fragment change nothing but the [query] and
    [fragment] of the parse. *)
Lemma urlsplit_app_tail (b t : string) :
  no_query_fragment b -> query_fragment t ->
  exists q f,
    Url.urlsplit (b +:+ t)
    = match Url.urlsplit b with
      | Some (s, n, p, _, _) => Some (s, n, p, q, f)
      | None => None
      end.
Proof.
  intros [Hq Hf] Ht. unfold Url.urlsplit.
  rewrite lstrip_app_tail by now apply query_fragment_not_space.
  rewrite remove_chars_app.
  set (b1 := Py.remove_chars Url.is_unsafe (Py.lstrip Url.is_c0_control_or_space b)).
  set (t1 := Py.remove_chars Url.is_unsafe t).
  assert (Hb1 : no_query_fragment b1).
  { split; apply contains_char_remove, contains_char_lstrip; assumption. }
  assert (Ht1 : query_fragment t1) by now apply query_fragment_remove.
  destruct (split_scheme_app_tail b1 t1 Hb1 Ht1) as [-> Hb2].
  destruct (Url.split_scheme b1) as [s b2]. cbn [fst snd] in *.
  rewrite (startswith_slashes_app_tail b2 t1 Ht1).
  assert (Hstage : exists n b3,
             (if Py.startswith "//" b2 then Url.splitnetloc b2 else ("", b2)) = (n, b3)
             /\ (if Py.startswith "//" b2 then Url.splitnetloc (b2 +:+ t1)
                 else ("", b2 +:+ t1)) = (n, b3 +:+ t1)
             /\ no_query_fragment b3).
  { destruct (Py.startswith "//" b2) eqn:Hs.
    - rewrite (splitnetloc_app_tail b2 t1 Hs Ht1).
      exists (fst (Url.splitnetloc b2)), (snd (Url.splitnetloc b2)).
      split; [now destruct (Url.splitnetloc b2)|]. split; [reflexivity|].
      unfold Url.splitnetloc. destruct Hb2 as [H1 H2].
      split; apply span_contains, drop_contains; assumption.
    - exists "", b2. split; [reflexivity|]. split; [reflexivity | exact Hb2]. }
  destruct Hstage as (n & b3 & -> & -> & Hb3).
  destruct (negb (Url.netloc_ok n)); [now exists "", ""|].
  pose proof (path_app_tail b3 t1 Hb3 Ht1) as Hpath.
  destruct Hb3 as [H1 H2].
  rewrite (split_once_absent "#" b3 H2), (split_once_absent "?" b3 H1).
  destruct (Py.split_once "#" (b3 +:+ t1)) as [u f]. cbn [fst] in Hpath.
  destruct (Py.split_once "?" u) as [p q]. cbn [fst] in Hpath. subst p.
  now exists q, f.
Qed.

Lemma urlparse_app_tail (b t : string) :
  no_query_fragment b -> query_fragment t ->
  exists q f,
    Url.urlparse (b +:+ t)
    = match Url.urlparse b with
      | Some p =>
          Some {| Url.scheme := Url.scheme p; Url.netloc := Url.netloc p;
                  Url.path := Url.path p; Url.params := Url.params p;
                  Url.query := q; Url.fragment := f |}
      | None => None
      end.
Proof.
  intros Hb Ht. destruct (urlsplit_app_tail b t Hb Ht) as (q & f & E).
  exists q, f. unfold Url.urlparse. rewrite E.
  destruct (Url.urlsplit b) as [[[[[s n] p] q0] f0]|]; [|reflexivity].
  destruct (bool_decide (s ∈ Url.uses_params) && Py.contains ";" p);
    [destruct (Url.splitparams p)|]; reflexivity.
Qed.

Lemma normalize_url_app_tail (b t : string) :
  no_query_fragment b -> query_fragment t ->
  (Url.urlparse (b +:+ t) = None <-> Url.urlparse b = None)
  /\ (Url.urlparse b <> None -> _normalize_url (b +:+ t) = _normalize_url b).
Proof.
  intros Hb Ht. destruct (urlparse_app_tail b t Hb Ht) as (q & f & E).
  unfold _normalize_url. rewrite E.
  destruct (Url.urlparse b) as [p|]; split; try easy.
Qed.

End UrlFacts.

(** *** Patterns *)

Section PatternFacts.

Lemma drop_length_app (a r : string) : Py.drop (String.length a) (a +:+ r) = r.
Proof.
  induction a as [|x a IH]; [now destruct r|].
  rewrite app_cons_s. exact IH.
Qed.

Lemma lit_spec (l s r : string) : Re.lit l s = Some r <-> s = l +:+ r.
Proof.
  unfold Re.lit. destruct (String.prefix l s) eqn:Hp.
  - apply prefix_spec in Hp as [b ->]. rewrite drop_length_app. split.
    + now intros [= ->].
    + intros Hb. f_equal. revert Hb. clear. induction l as [|x l IH].
      * now rewrite !app_nil_l_s.
      * rewrite !app_cons_s. intros [= Hb]. auto.
  - split; [discriminate|]. intros ->.
    assert (String.prefix l (l +:+ r) = true) by (apply prefix_spec; now exists r).
    congruence.
Qed.

Lemma span_spec (P : ascii -> bool) (s : string) :
  s = fst (Re.span P s) +:+ snd (Re.span P s)
  /\ Url.all_chars P (fst (Re.span P s)) = true
  /\ match snd (Re.span P s) with
     | EmptyString => True
     | String c _ => P c = false
     end.
Proof.
  induction s as [|c s (I1 & I2 & I3)]; [now repeat split|].
  cbn [Re.span]. destruct (P c) eqn:Hc.
  - destruct (Re.span P s) as [a r]. cbn [fst snd] in *.
    rewrite app_cons_s, <- I1. cbn [Url.all_chars]. rewrite Hc, I2. now repeat split.
  - cbn [fst snd]. now repeat split.
Qed.

Lemma span_intro (P : ascii -> bool) (a r : string) :
  Url.all_chars P a = true ->
  match r with EmptyString => True | String c _ => P c = false end ->
  Re.span P (a +:+ r) = (a, r).
Proof.
  intros Ha Hr. induction a as [|x a IH].
  - rewrite app_nil_l_s. destruct r as [|c r]; [reflexivity|].
    cbn [Re.span]. now rewrite Hr.
  - cbn [Url.all_chars] in Ha. apply andb_true_iff in Ha as [Hx Ha].
    rewrite app_cons_s. cbn [Re.span]. now rewrite Hx, (IH Ha).
Qed.

Lemma plus_spec (P : ascii -> bool) (s r : string) :
  plus P s = Some r <->
  exists a, a <> "" /\ Url.all_chars P a = true /\ s = a +:+ r
            /\ match r with EmptyString => True | String c _ => P c = false end.
Proof.
  unfold plus, Re.many1. split.
  - destruct (span_spec P s) as (E & Ha & Hr).
    destruct (Re.span P s) as [[|x a] r0]; [discriminate|].
    cbn [option_map snd fst] in *. intros [= <-].
    exists (String x a). now repeat split.
  - intros (a & Hne & Ha & -> & Hr). rewrite (span_intro P a r Ha Hr).
    destruct a; [congruence | reflexivity].
Qed.

(** The matches of [r'/mp4-\d+p-\d+fp-[^/]+/'] are the encoding-profile
    segments with the slashes around them. *)
Lemma quality_profile_segment_spec (s r : string) :
  quality_profile_segment s = Some r <->
  exists segment, encoding_profile segment /\ s = "/" +:+ segment +:+ "/" +:+ r.
Proof.
  unfold quality_profile_segment, pattern. cbn [fold_left]. split.
  - destruct (Re.lit "/mp4-" s) as [s1|] eqn:E1; [|discriminate].
    destruct (plus Py.is_digit s1) as [s2|] eqn:E2; [|discriminate].
    destruct (Re.lit "p-" s2) as [s3|] eqn:E3; [|discriminate].
    destruct (plus Py.is_digit s3) as [s4|] eqn:E4; [|discriminate].
    destruct (Re.lit "fp-" s4) as [s5|] eqn:E5; [|discriminate].
    destruct (plus not_slash s5) as [s6|] eqn:E6; [|discriminate].
    intros E7.
    apply lit_spec in E1, E3, E5, E7.
    apply plus_spec in E2 as (d1 & N1 & A1 & -> & _).
    apply plus_spec in E4 as (d2 & N2 & A2 & -> & _).
    apply plus_spec in E6 as (q & N3 & A3 & -> & _).
    subst.
    exists ("mp4-" +:+ d1 +:+ "p-" +:+ d2 +:+ "fp-" +:+ q). split.
    + exists d1, d2, q. now repeat split.
    + now rewrite !app_assoc_s.
  - intros (segment & (d1 & d2 & q & -> & N1 & A1 & N2 & A2 & N3 & A3) & ->).
    assert (L1 : Re.lit "/mp4-"
                   ("/" +:+ ("mp4-" +:+ d1 +:+ "p-" +:+ d2 +:+ "fp-" +:+ q) +:+ "/" +:+ r)
                 = Some (d1 +:+ "p-" +:+ d2 +:+ "fp-" +:+ q +:+ "/" +:+ r)).
    { apply lit_spec. now rewrite !app_assoc_s. }
    rewrite L1.
    assert (L2 : plus Py.is_digit (d1 +:+ "p-" +:+ d2 +:+ "fp-" +:+ q +:+ "/" +:+ r)
                 = Some ("p-" +:+ d2 +:+ "fp-" +:+ q +:+ "/" +:+ r)).
    { apply plus_spec. exists d1. now repeat split. }
    rewrite L2.
    assert (L3 : Re.lit "p-" ("p-" +:+ d2 +:+ "fp-" +:+ q +:+ "/" +:+ r)
                 = Some (d2 +:+ "fp-" +:+ q +:+ "/" +:+ r)) by now apply lit_spec.
    rewrite L3.
    assert (L4 : plus Py.is_digit (d2 +:+ "fp-" +:+ q +:+ "/" +:+ r)
                 = Some ("fp-" +:+ q +:+ "/" +:+ r)).
    { apply plus_spec. exists d2. now repeat split. }
    rewrite L4.
    assert (L5 : Re.lit "fp-" ("fp-" +:+ q +:+ "/" +:+ r) = Some (q +:+ "/" +:+ r))
      by now apply lit_spec.
    rewrite L5.
    assert (L6 : plus not_slash (q +:+ "/" +:+ r) = Some ("/" +:+ r)).
    { apply plus_spec. exists q. now repeat split. }
    rewrite L6. now apply lit_spec.
Qed.

End PatternFacts.

(** *** [re.sub] *)

Section SubFacts.

Context (m : string -> option string) (repl : string).

Lemma sub_from_skip (a b : string) :
  Re.sub_from m repl (String.length a) (a +:+ b) = Re.sub m repl b.
Proof.
  induction a as [|x a IH]; [now destruct b|].
  rewrite app_cons_s. exact IH.
Qed.

(** At a match, the replacement is followed by the substitution in what
    comes after the match. *)
Lemma sub_match (matched rest : string) :
  matched <> "" -> m (matched +:+ rest) = Some rest ->
  Re.sub m repl (matched +:+ rest) = repl +:+ Re.sub m repl rest.
Proof.
  intros Hne Hm. destruct matched as [|c a]; [congruence|].
  unfold Re.sub. rewrite app_cons_s in *. cbn [Re.sub_from]. rewrite Hm.
  replace (String.length (String c (a +:+ rest)) - String.length rest - 1)
    with (String.length a).
  - now rewrite sub_from_skip.
  - cbn [String.length]. rewrite length_app_s. lia.
Qed.

(** Without a match that starts in [pre], [pre] is copied. *)
Lemma sub_unmatched_prefix (pre rest : string) :
  (forall a b, pre = a +:+ b -> b <> "" -> m (b +:+ rest) = None) ->
  Re.sub m repl (pre +:+ rest) = pre +:+ Re.sub m repl rest.
Proof.
  induction pre as [|c pre IH]; intros Hno; [reflexivity|].
  unfold Re.sub in *. rewrite !app_cons_s. cbn [Re.sub_from].
  rewrite <- app_cons_s, (Hno "" (String c pre)) by easy.
  f_equal. apply IH. intros a b -> Hb.
  apply (Hno (String c a) b); [now rewrite app_cons_s | exact Hb].
Qed.

Lemma matches_somewhere_false (s : string) :
  matches_somewhere m s = false ->
  forall a b, s = a +:+ b -> b <> "" -> m b = None.
Proof.
  induction s as [|c s IH]; intros Hs a b E Hb.
  - destruct a; [|discriminate]. rewrite app_nil_l_s in E. congruence.
  - cbn [matches_somewhere] in Hs.
    destruct (m (String c s)) eqn:Hm; [discriminate|].
    destruct a as [|x a].
    + rewrite app_nil_l_s in E. now subst b.
    + rewrite app_cons_s in E. injection E as _ E. now apply (IH Hs a b).
Qed.

End SubFacts.

(** *** Patterns that match one path segment with its slashes *)

Section SegmentPattern.

Context (m : string -> option string) (C : string -> Prop).

Hypothesis m_spec :
  forall s r, m s = Some r <-> exists segment, C segment /\ s = "/" +:+ segment +:+ "/" +:+ r.
Hypothesis C_no_slash : forall segment, C segment -> Url.all_chars not_slash segment = true.

(** Up to the first slash two equal texts agree. *)
Lemma first_slash_split (segment x r y : string) :
  Url.all_chars not_slash segment = true ->
  segment +:+ "/" +:+ r = x +:+ "/" +:+ y ->
  exists x', x = segment +:+ x' /\ (x' = "" \/ exists x'', x' = "/" +:+ x'').
Proof.
  revert x. induction segment as [|c segment IH]; intros x Hb E.
  - rewrite app_nil_l_s in E. destruct x as [|a x].
    + exists "". split; [reflexivity | now left].
    + rewrite app_cons_s in E. injection E as <- _.
      exists (String "/" x). split; [reflexivity|]. right. now exists x.
  - cbn [Url.all_chars] in Hb. apply andb_true_iff in Hb as [Hc Hb].
    rewrite app_cons_s in E. destruct x as [|a x].
    + rewrite app_nil_l_s in E. injection E as -> _. discriminate.
    + rewrite app_cons_s in E. injection E as <- E.
      destruct (IH x Hb E) as (x' & -> & Hx'). exists x'. now rewrite app_cons_s.
Qed.

Lemma segment_unique (s1 s2 r1 r2 : string) :
  Url.all_chars not_slash s1 = true -> Url.all_chars not_slash s2 = true ->
  s1 +:+ "/" +:+ r1 = s2 +:+ "/" +:+ r2 -> s1 = s2.
Proof.
  revert s2. induction s1 as [|c s1 IH]; intros s2 H1 H2 E.
  - destruct s2 as [|a s2]; [reflexivity|].
    rewrite app_nil_l_s, app_cons_s in E. injection E as <- _.
    cbn [Url.all_chars] in H2. discriminate.
  - cbn [Url.all_chars] in H1. apply andb_true_iff in H1 as [Hc H1].
    rewrite app_cons_s in E. destruct s2 as [|a s2].
    + rewrite app_nil_l_s in E. injection E as -> _. discriminate.
    + rewrite app_cons_s in E. injection E as <- E.
      cbn [Url.all_chars] in H2. apply andb_true_iff in H2 as [_ H2].
      f_equal. now apply (IH s2).
Qed.

Lemma match_starts_with_slash (c : ascii) (s : string) :
  c <> "/"%char -> m (String c s) = None.
Proof.
  intros Hc. destruct (m (String c s)) as [r|] eqn:Hm; [|reflexivity].
  apply m_spec in Hm as (segment & _ & E).
  rewrite app_cons_s in E. injection E as -> _. congruence.
Qed.

(** A match that starts in [b] ends in [b] or at the slash that follows
    it. *)
Lemma segment_match_local (b rest : string) :
  b <> "" -> m (b +:+ "/") = None -> m (b +:+ "/" +:+ rest) = None.
Proof.
  intros Hb Hno.
  destruct (m (b +:+ "/" +:+ rest)) as [r|] eqn:Hm; [|reflexivity].
  exfalso. apply m_spec in Hm as (segment & Hseg & E).
  destruct b as [|c b']; [congruence|].
  rewrite !app_cons_s in E. rewrite app_nil_l_s in E. injection E as -> E.
  symmetry in E.
  destruct (first_slash_split segment b' r rest (C_no_slash segment Hseg) E)
    as (x' & -> & Hx').
  assert (Hsome : exists r0, m (String "/" (segment +:+ x') +:+ "/") = Some r0).
  { destruct Hx' as [->|(x'' & ->)].
    - exists "". apply m_spec. exists segment.
      split; [exact Hseg|]. now rewrite app_nil_r_s, app_cons_s.
    - exists (x'' +:+ "/"). apply m_spec. exists segment.
      split; [exact Hseg|]. now rewrite !app_cons_s, !app_assoc_s. }
  destruct Hsome as [r0 Hr0]. congruence.
Qed.

Lemma sub_before_segment (pre rest : string) :
  matches_somewhere m (pre +:+ "/") = false ->
  Re.sub m "/" (pre +:+ "/" +:+ rest) = pre +:+ Re.sub m "/" ("/" +:+ rest).
Proof.
  intros Hpre. apply sub_unmatched_prefix.
  intros a b -> Hb. apply segment_match_local; [exact Hb|].
  apply (matches_somewhere_false _ _ Hpre a (b +:+ "/")).
  - now rewrite app_assoc_s.
  - destruct b; discriminate.
Qed.

(** The substitution removes a segment of the class that no other one
    precedes. *)
Lemma sub_segment (pre segment post : string) :
  matches_somewhere m (pre +:+ "/") = false -> C segment ->
  Re.sub m "/" (pre +:+ "/" +:+ segment +:+ "/" +:+ post)
  = pre +:+ "/" +:+ Re.sub m "/" post.
Proof.
  intros Hpre Hseg. rewrite sub_before_segment by exact Hpre. f_equal.
  replace ("/" +:+ segment +:+ "/" +:+ post)
    with (("/" +:+ segment +:+ "/") +:+ post) by now rewrite !app_assoc_s.
  apply sub_match; [discriminate|].
  apply m_spec. exists segment. split; [exact Hseg | now rewrite !app_assoc_s].
Qed.

Lemma suffix_no_slash (segment a b : string) :
  Url.all_chars not_slash segment = true -> segment = a +:+ b -> b <> "" ->
  exists c b', b = String c b' /\ c <> "/"%char.
Proof.
  intros Hs -> Hb. rewrite all_chars_app in Hs. apply andb_true_iff in Hs as [_ Hs].
  destruct b as [|c b']; [congruence|]. exists c, b'. split; [reflexivity|].
  cbn [Url.all_chars] in Hs. apply andb_true_iff in Hs as [Hc _].
  intros ->. discriminate.
Qed.

(** The substitution keeps a segment that is not of the class. *)
Lemma sub_other_segment (pre segment post : string) :
  matches_somewhere m (pre +:+ "/") = false ->
  Url.all_chars not_slash segment = true -> ~ C segment ->
  Re.sub m "/" (pre +:+ "/" +:+ segment +:+ "/" +:+ post)
  = pre +:+ "/" +:+ segment +:+ Re.sub m "/" ("/" +:+ post).
Proof.
  intros Hpre Hslash Hnot. rewrite sub_before_segment by exact Hpre. f_equal.
  replace ("/" +:+ segment +:+ "/" +:+ post)
    with (("/" +:+ segment) +:+ "/" +:+ post) by now rewrite !app_assoc_s.
  rewrite sub_unmatched_prefix; [now rewrite !app_assoc_s|].
  intros a b E Hb. destruct a as [|x a].
  - rewrite app_nil_l_s in E. subst b.
    destruct (m (("/" +:+ segment) +:+ "/" +:+ post)) as [r|] eqn:Hm; [|reflexivity].
    exfalso. apply m_spec in Hm as (segment' & Hseg' & E).
    rewrite !app_assoc_s in E. rewrite !app_cons_s, !app_nil_l_s in E.
    injection E as E.
    apply segment_unique in E; [| exact Hslash | now apply C_no_slash].
    now subst segment'.
  - rewrite !app_cons_s, app_nil_l_s in E. injection E as _ E.
    destruct (suffix_no_slash segment a b Hslash E Hb) as (c & b' & -> & Hc).
    rewrite app_cons_s. now apply match_starts_with_slash.
Qed.

Lemma sub_keeps_leading_slash (post : string) :
  exists y, Re.sub m "/" ("/" +:+ post) = "/" +:+ y.
Proof.
  unfold Re.sub. rewrite app_cons_s, app_nil_l_s. cbn [Re.sub_from].
  destruct (m (String "/" post)); eexists; reflexivity.
Qed.

End SegmentPattern.

(** *** Video identity *)

Section VideoIdentity.

Context `{Library}.

Lemma digits_no_slash (d : string) :
  Url.all_chars Py.is_digit d = true -> Url.all_chars not_slash d = true.
Proof.
  induction d as [|c d IH]; [reflexivity|]. cbn [Url.all_chars].
  intros Hc. apply andb_true_iff in Hc as [Hc Hd]. rewrite (IH Hd), andb_true_r.
  unfold not_slash. destruct (Ascii.eqb_spec c "/") as [->|]; [discriminate|reflexivity].
Qed.

Lemma encoding_profile_no_slash (segment : string) :
  encoding_profile segment -> Url.all_chars not_slash segment = true.
Proof.
  intros (d1 & d2 & q & -> & _ & A1 & _ & A2 & _ & A3).
  rewrite !all_chars_app, (digits_no_slash d1 A1), (digits_no_slash d2 A2), A3.
  reflexivity.
Qed.

Lemma resolution_only_no_slash (segment : string) :
  resolution_only segment -> Url.all_chars not_slash segment = true.
Proof.
  intros (d & -> & _ & A). now rewrite !all_chars_app, (digits_no_slash d A).
Qed.

(** The matches of [r'/mp4-\d+p/'] are the resolution segments with the
    slashes around them. *)
Lemma resolution_segment_spec (s r : string) :
  resolution_segment s = Some r <->
  exists segment, resolution_only segment /\ s = "/" +:+ segment +:+ "/" +:+ r.
Proof.
  unfold resolution_segment, pattern. cbn [fold_left]. split.
  - destruct (Re.lit "/mp4-" s) as [s1|] eqn:E1; [|discriminate].
    destruct (plus Py.is_digit s1) as [s2|] eqn:E2; [|discriminate].
    intros E3. apply lit_spec in E1, E3.
    apply plus_spec in E2 as (d & N & A & -> & _). subst.
    exists ("mp4-" +:+ d +:+ "p"). split.
    + exists d. now repeat split.
    + now rewrite !app_assoc_s.
  - intros (segment & (d & -> & N & A) & ->).
    assert (L1 : Re.lit "/mp4-" ("/" +:+ ("mp4-" +:+ d +:+ "p") +:+ "/" +:+ r)
                 = Some (d +:+ "p/" +:+ r)).
    { apply lit_spec. now rewrite !app_assoc_s. }
    rewrite L1.
    assert (L2 : plus Py.is_digit (d +:+ "p/" +:+ r) = Some ("p/" +:+ r)).
    { apply plus_spec. exists d. now repeat split. }
    rewrite L2. now apply lit_spec.
Qed.

(** A resolution segment is not an encoding profile: after the digits one
    has the end of the segment, the other [-]. *)
Lemma resolution_only_not_profile (segment : string) :
  resolution_only segment -> ~ encoding_profile segment.
Proof.
  intros (d & -> & N & A) (d1 & d2 & q & E & _ & A1 & _).
  assert (E' : d +:+ "p" = d1 +:+ "p-" +:+ d2 +:+ "fp-" +:+ q).
  { rewrite !app_cons_s, !app_nil_l_s in E. now injection E. }
  assert (S1 : Re.span Py.is_digit (d +:+ "p") = (d, "p")) by now apply span_intro.
  assert (S2 : Re.span Py.is_digit (d1 +:+ "p-" +:+ d2 +:+ "fp-" +:+ q)
               = (d1, "p-" +:+ d2 +:+ "fp-" +:+ q)) by now apply span_intro.
  rewrite E' in S1. rewrite S1 in S2. injection S2 as _ S2. discriminate.
Qed.

(** The first substitution of [_get_video_base_path] removes an encoding
    profile that no other profile precedes. *)
Lemma sub_profile (pre segment post : string) :
  matches_somewhere quality_profile_segment (pre +:+ "/") = false ->
  encoding_profile segment ->
  Re.sub quality_profile_segment "/" (pre +:+ "/" +:+ segment +:+ "/" +:+ post)
  = pre +:+ "/" +:+ Re.sub quality_profile_segment "/" post.
Proof.
  apply (sub_segment quality_profile_segment encoding_profile
           quality_profile_segment_spec encoding_profile_no_slash).
Qed.

(** The first two substitutions remove a resolution segment that neither an
    encoding profile nor a resolution segment precedes; what is left does
    not depend on the resolution. *)
Lemma sub_resolution (pre segment post : string) :
  matches_somewhere quality_profile_segment (pre +:+ "/") = false ->
  matches_somewhere resolution_segment (pre +:+ "/") = false ->
  resolution_only segment ->
  exists y,
    Re.sub quality_profile_segment "/" ("/" +:+ post) = "/" +:+ y
    /\ Re.sub resolution_segment "/"
         (Re.sub quality_profile_segment "/"
            (pre +:+ "/" +:+ segment +:+ "/" +:+ post))
       = pre +:+ "/" +:+ Re.sub resolution_segment "/" y.
Proof.
  intros H1 H2 Hseg.
  destruct (sub_keeps_leading_slash quality_profile_segment post) as [y Hy].
  exists y. split; [exact Hy|].
  rewrite (sub_other_segment quality_profile_segment encoding_profile
             quality_profile_segment_spec encoding_profile_no_slash)
    by first [ assumption
             | now apply resolution_only_no_slash
             | now apply resolution_only_not_profile ].
  rewrite Hy.
  apply (sub_segment resolution_segment resolution_only
           resolution_segment_spec resolution_only_no_slash); assumption.
Qed.

End VideoIdentity.

Section BestUrl.

Lemma max_from_spec (todo done : list string) (best : string) (kb : Z) (ib : nat)
  (r : string) :
  done !! ib = Some best -> quality best = Some kb ->
  (forall j u, done !! j = Some u ->
     exists ku, quality u = Some ku /\ (ku <= kb)%Z /\ (j < ib -> (ku < kb)%Z)) ->
  max_from best kb todo = Some r ->
  exists i kr,
    (done ++ todo) !! i = Some r /\ quality r = Some kr
    /\ forall j u, (done ++ todo) !! j = Some u ->
         exists ku, quality u = Some ku /\ (ku <= kr)%Z /\ (j < i -> (ku < kr)%Z).
Proof.
  revert done best kb ib. induction todo as [|x todo IH];
    intros done best kb ib Hb Hq Hinv Hm.
  - cbn in Hm. injection Hm as <-. exists ib, kb. rewrite app_nil_r. auto.
  - cbn [max_from] in Hm. destruct (quality x) as [k|] eqn:Hx; [|discriminate].
    replace (done ++ x :: todo) with ((done ++ [x]) ++ todo)
      by now rewrite <- app_assoc.
    destruct (Z.ltb_spec kb k) as [Hlt|Hge].
    + apply (IH (done ++ [x]) x k (length done)); [| exact Hx | | exact Hm].
      * now rewrite list_lookup_middle.
      * intros j u Hj.
        destruct (decide (j < length done)) as [Hjl|Hjl].
        -- rewrite lookup_app_l in Hj by lia.
           destruct (Hinv j u Hj) as (ku & Hku & Hle & _).
           exists ku. repeat split; [exact Hku | lia | lia].
        -- assert (Hlen : j < length (done ++ [x]))
             by (eapply lookup_lt_Some; exact Hj).
           rewrite length_app in Hlen. cbn in Hlen.
           assert (j = length done) by lia. subst j.
           rewrite list_lookup_middle in Hj by reflexivity. injection Hj as <-.
           exists k. repeat split; [exact Hx | lia | lia].
    + apply (IH (done ++ [x]) best kb ib); [| exact Hq | | exact Hm].
      * rewrite lookup_app_l; [exact Hb|]. eapply lookup_lt_Some; exact Hb.
      * intros j u Hj.
        destruct (decide (j < length done)) as [Hjl|Hjl].
        -- rewrite lookup_app_l in Hj by lia. now apply Hinv.
        -- assert (Hlen : j < length (done ++ [x]))
             by (eapply lookup_lt_Some; exact Hj).
           rewrite length_app in Hlen. cbn in Hlen.
           assert (j = length done) by lia. subst j.
           rewrite list_lookup_middle in Hj by reflexivity. injection Hj as <-.
           exists k. repeat split; [exact Hx | lia |].
           intros Hlt. apply lookup_lt_Some in Hb. lia.
Qed.

(** [best_url] is the first of the urls whose key is the largest. *)
Lemma best_url_spec (video_urls : list string) (best : string) :
  best_url video_urls = Some best ->
  exists i k,
    video_urls !! i = Some best /\ quality best = Some k
    /\ forall j u, video_urls !! j = Some u ->
         exists ku, quality u = Some ku /\ (ku <= k)%Z /\ (j < i -> (ku < k)%Z).
Proof.
  destruct video_urls as [|x urls]; [discriminate|].
  cbn [best_url]. destruct (quality x) as [k|] eqn:Hx; [|discriminate].
  intros Hm. apply (max_from_spec urls [x] x k 0 best); [reflexivity | exact Hx | | exact Hm].
  intros j u Hj. destruct j as [|j]; [|now destruct j].
  injection Hj as <-. exists k. repeat split; [exact Hx | lia | lia].
Qed.

End BestUrl.

Section MarkerFacts.

Lemma findall_from_elem (m : string -> option (string * string)) (g s : string)
  (skip : nat) :
  g ∈ Re.findall_from m skip s ->
  exists a b rest, s = a +:+ b /\ m b = Some (g, rest).
Proof.
  revert skip. induction s as [|c s IH]; intros skip Hg; [inversion Hg|].
  assert (Hshift : forall k, g ∈ Re.findall_from m k s ->
            exists a b rest, String c s = a +:+ b /\ m b = Some (g, rest)).
  { intros k Hk. destruct (IH k Hk) as (a & b & rest & -> & Hm).
    exists (String c a), b, rest. now rewrite app_cons_s. }
  cbn [Re.findall_from] in Hg. destruct skip as [|k]; [|now apply (Hshift k)].
  destruct (m (String c s)) as [[g0 rest0]|] eqn:Hm; [|now apply (Hshift 0)].
  apply elem_of_cons in Hg as [->|Hg]; [|now apply (Hshift _ Hg)].
  now exists "", (String c s), rest0.
Qed.

Lemma resolution_marker_spec (b g rest : string) :
  resolution_marker b = Some (g, rest) -> b = g +:+ "p" +:+ rest.
Proof.
  unfold resolution_marker, Re.many1.
  destruct (span_spec Py.is_digit b) as (E & _ & _).
  destruct (Re.span Py.is_digit b) as [[|x a] r]; [discriminate|].
  cbn [fst snd] in E. destruct (Re.lit "p" r) as [rest0|] eqn:Hl; [|discriminate].
  intros [= <- <-]. apply lit_spec in Hl. now rewrite E, Hl.
Qed.

Lemma max_list_cases (ints : list Z) :
  fold_right Z.max 0%Z ints = 0%Z \/ fold_right Z.max 0%Z ints ∈ ints.
Proof.
  induction ints as [|z ints IH]; [now left|].
  cbn [fold_right]. destruct (Z.max_spec z (fold_right Z.max 0%Z ints)) as [[_ ->]|[_ ->]].
  - destruct IH as [IH|IH]; [now left | right; now right].
  - right. left.
Qed.

(** The key of [best_url] is 0 or the value of some [<digits>p] marker of
    the url. *)
Lemma quality_marker (x : string) (k : Z) :
  quality x = Some k ->
  k = 0%Z \/ exists digits before after,
               x = before +:+ digits +:+ "p" +:+ after /\ Py.int digits = Some k.
Proof.
  unfold quality.
  destruct (mapM Py.int (Re.findall resolution_marker x)) as [ints|] eqn:Hm;
    [|discriminate].
  intros [= <-]. destruct (max_list_cases ints) as [H0|Hin]; [now left|]. right.
  apply mapM_Some in Hm.
  apply list_elem_of_lookup in Hin as [i Hi].
  destruct (Forall2_lookup_r _ _ _ _ _ Hm Hi) as (g & Hg & Hint).
  assert (Hin : g ∈ Re.findall resolution_marker x)
    by (apply list_elem_of_lookup; now exists i).
  apply findall_from_elem in Hin as (a & b & rest & -> & Hb).
  apply resolution_marker_spec in Hb as ->.
  now exists g, a, rest.
Qed.

End MarkerFacts.

Section VideoClaims.

Context `{Library}.

(** C3, as the code has it.  Two urls that [urlparse] accepts, with the same
    scheme and host, whose paths differ only in one encoding-profile segment
    [mp4-<digits>p-<digits>fp-<tag>] that no other such segment precedes, or
    only in one resolution segment [mp4-<digits>p] that no segment of either
    shape precedes (query string, fragment and params are free), have the
    same [_get_video_base_path]; and [best_url] is the first url of its
    group whose key is the largest, the key being the largest [<digits>p]
    marker of the whole url string, 0 without one. *)
Theorem video_identity_and_best_rendition :
  (forall u1 u2 p1 p2 pre post segment1 segment2,
     Url.urlparse u1 = Some p1 -> Url.urlparse u2 = Some p2 ->
     Url.scheme p1 = Url.scheme p2 -> Url.netloc p1 = Url.netloc p2 ->
     Url.path p1 = pre +:+ "/" +:+ segment1 +:+ "/" +:+ post ->
     Url.path p2 = pre +:+ "/" +:+ segment2 +:+ "/" +:+ post ->
     matches_somewhere quality_profile_segment (pre +:+ "/") = false ->
     (encoding_profile segment1 /\ encoding_profile segment2)
     \/ (resolution_only segment1 /\ resolution_only segment2
         /\ matches_somewhere resolution_segment (pre +:+ "/") = false) ->
     _get_video_base_path u1 = _get_video_base_path u2)
  /\ (forall video_urls best,
        best_url video_urls = Some best ->
        exists i k,
          video_urls !! i = Some best
          /\ quality best = Some k
          /\ (k = 0%Z \/ exists digits before after,
                best = before +:+ digits +:+ "p" +:+ after /\ Py.int digits = Some k)
          /\ forall j u, video_urls !! j = Some u ->
               exists ku, quality u = Some ku /\ (ku <= k)%Z /\ (j < i -> (ku < k)%Z)).
Proof.
  split.
  - intros u1 u2 p1 p2 pre post s1 s2 E1 E2 Hs Hn P1 P2 Hpre Hsegs.
    unfold _get_video_base_path. rewrite E1, E2, Hs, Hn, P1, P2.
    destruct Hsegs as [[S1 S2] | (S1 & S2 & Hpre2)].
    + now rewrite !sub_profile.
    + destruct (sub_resolution pre s1 post Hpre Hpre2 S1) as (y1 & Hy1 & ->).
      destruct (sub_resolution pre s2 post Hpre Hpre2 S2) as (y2 & Hy2 & ->).
      rewrite Hy1 in Hy2. rewrite !app_cons_s, !app_nil_l_s in Hy2.
      now injection Hy2 as <-.
  - intros urls best Hb.
    destruct (best_url_spec urls best Hb) as (i & k & Hi & Hk & Hall).
    exists i, k. repeat split; [exact Hi | exact Hk | now apply quality_marker | exact Hall].
Qed.

End VideoClaims.

Lemma video_identity_and_best_rendition_witness :
  encoding_profile "mp4-720p-30fp-crf28"
  /\ encoding_profile "mp4-360p-30fp-crf28"
  /\ matches_somewhere quality_profile_segment ("/playlist/vid/v2/D4D10AQ" +:+ "/") = false
  /\ @_get_video_base_path plain_library rendition_720
     = @_get_video_base_path plain_library rendition_360.
Proof.
  assert (H720 : encoding_profile "mp4-720p-30fp-crf28").
  { exists "720", "30", "crf28". repeat split; discriminate. }
  assert (H360 : encoding_profile "mp4-360p-30fp-crf28").
  { exists "360", "30", "crf28". repeat split; discriminate. }
  assert (Hpre : matches_somewhere quality_profile_segment
                   ("/playlist/vid/v2/D4D10AQ" +:+ "/") = false)
    by (vm_compute; reflexivity).
  split; [exact H720|]. split; [exact H360|]. split; [exact Hpre|].
  apply (proj1 (@video_identity_and_best_rendition plain_library))
    with (p1 := {| Url.scheme := "https"; Url.netloc := "dms.licdn.com";
                   Url.path := "/playlist/vid/v2/D4D10AQ" +:+ "/"
                               +:+ "mp4-720p-30fp-crf28" +:+ "/" +:+ "B4DZ/clip.mp4";
                   Url.params := ""; Url.query := ""; Url.fragment := "" |})
         (p2 := {| Url.scheme := "https"; Url.netloc := "dms.licdn.com";
                   Url.path := "/playlist/vid/v2/D4D10AQ" +:+ "/"
                               +:+ "mp4-360p-30fp-crf28" +:+ "/" +:+ "B4DZ/clip.mp4";
                   Url.params := ""; Url.query := "e=17&v=beta"; Url.fragment := "" |})
         (pre := "/playlist/vid/v2/D4D10AQ") (post := "B4DZ/clip.mp4")
         (segment1 := "mp4-720p-30fp-crf28") (segment2 := "mp4-360p-30fp-crf28");
    [ vm_compute; reflexivity | vm_compute; reflexivity | reflexivity | reflexivity
    | reflexivity | reflexivity | exact Hpre | left; now split ].
Defined.

(** The renditions of one video at 720p and at 360p have one identity, and
    the 720p rendition is chosen. *)
Example renditions_share_identity :
  @_get_video_base_path plain_library rendition_720
  = "https://dms.licdn.com/playlist/vid/v2/D4D10AQ/B4DZ/clip.mp4"
  /\ @_get_video_base_path plain_library rendition_360
     = "https://dms.licdn.com/playlist/vid/v2/D4D10AQ/B4DZ/clip.mp4"
  /\ best_url [rendition_360; rendition_720] = Some rendition_720.
Proof. vm_compute. repeat split. Qed.

(** Renditions that differ in a resolution segment. *)
Example resolution_segments_share_identity :
  @_get_video_base_path plain_library "https://cdn.example.com/v/77/mp4-720p/clip.mp4?s=1"
  = @_get_video_base_path plain_library "https://cdn.example.com/v/77/mp4-360p/clip.mp4".
Proof. vm_compute. reflexivity. Qed.

(** The claim of C3 fails twice: the key of [best_url] reads the whole url,
    so a [<digits>p] in the query string outweighs the resolution in the
    path; and an encoding profile that follows another one is not removed,
    so renditions that differ only in it keep different identities. *)
Lemma best_rendition_counterexample :
  (@_get_video_base_path plain_library rendition_720
   = @_get_video_base_path plain_library rendition_360_signed
   /\ @path_quality plain_library rendition_720 = Some 720%Z
   /\ @path_quality plain_library rendition_360_signed = Some 360%Z
   /\ best_url [rendition_720; rendition_360_signed] = Some rendition_360_signed)
  /\ @_get_video_base_path plain_library after_profile_30fp
     <> @_get_video_base_path plain_library after_profile_24fp.
Proof. vm_compute. repeat split. discriminate. Qed.

(** *** Identity of images, logos and posters *)

(** C4, as the code has it.  Two urls that [urlparse] accepts and that
    differ only in their query string or fragment have the same
    [_normalize_url], which is scheme, [://], host and path of the parse. *)
Theorem normalize_url_ignores_query_and_fragment `{Library}
  (base t1 t2 : string) :
  no_query_fragment base -> query_fragment t1 -> query_fragment t2 ->
  Url.urlparse (base +:+ t1) <> None ->
  _normalize_url (base +:+ t1) = _normalize_url (base +:+ t2)
  /\ exists parsed,
       Url.urlparse (base +:+ t1) = Some parsed
       /\ _normalize_url (base +:+ t1)
          = Url.scheme parsed +:+ "://" +:+ Url.netloc parsed +:+ Url.path parsed.
Proof.
  intros Hb H1 H2 Hparse.
  destruct (normalize_url_app_tail base t1 Hb H1) as [Hn1 He1].
  destruct (normalize_url_app_tail base t2 Hb H2) as [_ He2].
  assert (Hbase : Url.urlparse base <> None) by (intros E; now apply Hparse, Hn1).
  split.
  - now rewrite He1, He2.
  - unfold _normalize_url.
    destruct (Url.urlparse (base +:+ t1)) as [parsed|]; [|congruence].
    now exists parsed.
Qed.

Lemma normalize_url_ignores_query_and_fragment_witness :
  no_query_fragment "https://media.licdn.com/dms/image/v2/D4E/logo.png"
  /\ query_fragment "?e=2147483647&v=beta&t=Ab1"
  /\ query_fragment "#top"
  /\ @Url.urlparse plain_library
       ("https://media.licdn.com/dms/image/v2/D4E/logo.png"
        +:+ "?e=2147483647&v=beta&t=Ab1") <> None
  /\ (@_normalize_url plain_library
        ("https://media.licdn.com/dms/image/v2/D4E/logo.png"
         +:+ "?e=2147483647&v=beta&t=Ab1")
      = @_normalize_url plain_library
          ("https://media.licdn.com/dms/image/v2/D4E/logo.png" +:+ "#top")
      /\ exists parsed,
           @Url.urlparse plain_library
             ("https://media.licdn.com/dms/image/v2/D4E/logo.png"
              +:+ "?e=2147483647&v=beta&t=Ab1")
           = Some parsed
           /\ @_normalize_url plain_library
                ("https://media.licdn.com/dms/image/v2/D4E/logo.png"
                 +:+ "?e=2147483647&v=beta&t=Ab1")
              = Url.scheme parsed +:+ "://" +:+ Url.netloc parsed
                +:+ Url.path parsed).
Proof.
  assert (H1 : no_query_fragment "https://media.licdn.com/dms/image/v2/D4E/logo.png")
    by (split; reflexivity).
  assert (H2 : query_fragment "?e=2147483647&v=beta&t=Ab1") by now left.
  assert (H3 : query_fragment "#top") by now right.
  assert (H4 : @Url.urlparse plain_library
                 ("https://media.licdn.com/dms/image/v2/D4E/logo.png"
                  +:+ "?e=2147483647&v=beta&t=Ab1") <> None)
    by (vm_compute; discriminate).
  repeat split; try assumption;
    apply (@normalize_url_ignores_query_and_fragment plain_library _ _ _ H1 H2 H3 H4).
Defined.

(** The claim of C4 fails for urls that [urlparse] rejects: each is its own
    identity, so two of them that differ only in the query string have
    different identities. *)
Lemma normalize_url_counterexample :
  unparsable_1 = "http://[/a.jpg" +:+ "?x=1"
  /\ unparsable_2 = "http://[/a.jpg" +:+ "?x=2"
  /\ no_query_fragment "http://[/a.jpg"
  /\ @_normalize_url plain_library unparsable_1
     <> @_normalize_url plain_library unparsable_2.
Proof. vm_compute. repeat split. discriminate. Qed.

(** The identity functions are total, and a url that [urlparse] rejects is
    its own identity. *)
Lemma identity_fails_closed `{Library} (url : string) :
  Url.urlparse url = None ->
  _normalize_url url = url /\ _get_video_base_path url = url.
Proof.
  intros E. unfold _get_video_base_path, _normalize_url. now rewrite E.
Qed.

(** *** The deduplicating asset fetcher *)

Section FetcherFacts.

Context `{Library} `{Network}.

Lemma app_nonempty_r (a b : string) : b <> "" -> a +:+ b <> "".
Proof. destruct a; [now rewrite app_nil_l_s | discriminate]. Qed.

Lemma app_nonempty_l (a b : string) : a <> "" -> a +:+ b <> "".
Proof. destruct a; [congruence | discriminate]. Qed.

Lemma os_path_join_nonempty (a subdir filename : string) :
  subdir <> "" -> os_path_join a [subdir; filename] <> "".
Proof.
  intros Hs. unfold os_path_join. cbn [fold_left].
  set (p1 := if Py.startswith "/" subdir then subdir
             else if String.eqb a "" || endswith_slash a then a +:+ subdir
             else a +:+ "/" +:+ subdir).
  assert (Hp1 : p1 <> "").
  { unfold p1. destruct (Py.startswith "/" subdir); [exact Hs|].
    destruct (String.eqb a "" || endswith_slash a).
    - now apply app_nonempty_r.
    - apply app_nonempty_r. discriminate. }
  destruct (Py.startswith "/" filename) eqn:Hf.
  - destruct filename; [discriminate | discriminate].
  - destruct (String.eqb p1 "" || endswith_slash p1); now apply app_nonempty_l.
Qed.

Lemma seen_of_insert (t : AssetType) (key path : string) (s : SeenAssets) :
  seen_of t (seen_insert t key path s) = <[key := path]> (seen_of t s).
Proof. now destruct t. Qed.

Lemma seen_of_insert_other (t t' : AssetType) (key path : string) (s : SeenAssets) :
  t' <> t -> seen_of t' (seen_insert t key path s) = seen_of t' s.
Proof. intros Ht. destruct t, t'; try reflexivity; congruence. Qed.

Lemma hit_insert (c : gmap string string) (key path : string) :
  path <> "" -> hit (<[key := path]> c) key = Some path.
Proof.
  intros Hp. unfold hit. rewrite lookup_insert_eq. destruct path; congruence.
Qed.

Lemma hit_insert_other (c : gmap string string) (key key' path : string) :
  key <> key' -> hit (<[key := path]> c) key' = hit c key'.
Proof. intros Hk. unfold hit. now rewrite lookup_insert_ne. Qed.


Lemma reusable_hit (url : string) (t : AssetType) (s : SeenAssets) :
  reusable (_is_duplicate_asset url t s) = hit (seen_of t s) (asset_identity url t).
Proof.
  unfold _is_duplicate_asset, hit.
  now destruct (seen_of t s !! asset_identity url t) as [[|a q]|].
Qed.

Lemma new_downloads_app (st st' : State) (new : list (string * string * bool)) :
  downloads st' = downloads st ++ new -> new_downloads st st' = new.
Proof. intros E. unfold new_downloads. now rewrite E, drop_app_length. Qed.

Lemma Grows_refl (t : AssetType) (st : State) : Grows t st st.
Proof.
  constructor; auto.
  unfold new_downloads. now rewrite drop_all, app_nil_r.
Qed.

Lemma Grows_new_trans (t t' : AssetType) (st1 st2 st3 : State) :
  Grows t st1 st2 -> Grows t' st2 st3 ->
  new_downloads st1 st3 = new_downloads st1 st2 ++ new_downloads st2 st3.
Proof.
  intros [L1 _ _ _] [L2 _ _ _]. apply new_downloads_app.
  now rewrite L2, L1 at 1; rewrite <- app_assoc.
Qed.

Lemma Grows_trans (t : AssetType) (st1 st2 st3 : State) :
  Grows t st1 st2 -> Grows t st2 st3 -> Grows t st1 st3.
Proof.
  intros G1 G2. pose proof (Grows_new_trans t t st1 st2 st3 G1 G2) as Hnew.
  destruct G1 as [L1 S1 F1 O1], G2 as [L2 S2 F2 O2]. constructor.
  - rewrite Hnew, L2, L1 at 1. now rewrite <- app_assoc.
  - auto.
  - intros t' Ht. now rewrite F2, F1.
  - intros key p Hp. rewrite Hnew.
    destruct (O2 key p Hp) as [Hold|(url & Hu)].
    + destruct (O1 key p Hold) as [?|(url & Hu)]; [now left|].
      right. exists url. apply elem_of_app. now left.
    + right. exists url. apply elem_of_app. now right.
Qed.

Lemma fetch_new_like (t : AssetType) (subdir ad_dir ad_id : string) (i : nat)
  (url key : string) :
  subdir <> "" -> fetch_like t key (fetch_new t subdir ad_dir ad_id i url key).
Proof.
  intros Hs st r st'. unfold fetch_new, bind, lift, download, register, ret.
  destruct (_generate_filename url t ad_id i) as [filename|]; [|discriminate].
  destruct (_download_asset url (os_path_join ad_dir [subdir; filename]) (world st))
    as [ok w].
  intros E. exists url, (os_path_join ad_dir [subdir; filename]), ok.
  destruct ok; injection E as <- <-; cbn [downloads seen_assets].
  - split; [reflexivity|]. split; [now apply os_path_join_nonempty|]. left. now repeat split.
  - split; [reflexivity|]. split; [now apply os_path_join_nonempty|]. right. now repeat split.
Qed.

Lemma best_fetch_like (ad_dir ad_id : string) (i : nat) (video_urls : list string)
  (key : string) :
  fetch_like Video key
    (bind (lift (best_url video_urls))
          (fun best => fetch_new Video "videos" ad_dir ad_id i best key)).
Proof.
  intros st r st'. unfold bind at 1. unfold lift.
  destruct (best_url video_urls) as [best|]; [|discriminate].
  now apply fetch_new_like.
Qed.

(** One asset, first time: the state grows, and when the download (if any)
    succeeded there is a path, which the cache now holds for the identity. *)
Lemma reuse_or_fetch_first (t : AssetType) (url key : string)
  (fetch : M (option string)) (st st' : State) (r : option string) :
  asset_identity url t = key -> fetch_like t key fetch ->
  reuse_or_fetch t url fetch st = (Return r, st') ->
  Grows t st st'
  /\ (all_succeeded (new_downloads st st') ->
      exists p, r = Some p /\ hit (seen_of t (seen_assets st')) key = Some p).
Proof.
  intros Hkey Hfetch. unfold reuse_or_fetch, bind, is_duplicate, ret.
  rewrite reusable_hit, Hkey.
  destruct (hit (seen_of t (seen_assets st)) key) as [p|] eqn:Hhit.
  - intros [= <- <-]. split; [apply Grows_refl|]. intros _. now exists p.
  - intros E. destruct (Hfetch st r st' E) as (u & path & ok & Hlog & Hpath & Hcase).
    pose proof (new_downloads_app st st' _ Hlog) as Hnew.
    split.
    + constructor.
      * now rewrite Hnew.
      * intros k q Hq. destruct Hcase as [(_ & _ & ->)|(_ & _ & ->)]; [|exact Hq].
        rewrite seen_of_insert. destruct (decide (key = k)) as [<-|Hne]; [congruence|].
        now rewrite hit_insert_other.
      * intros t' Ht'. destruct Hcase as [(_ & _ & ->)|(_ & _ & ->)]; [|reflexivity].
        now apply seen_of_insert_other.
      * intros k q Hq. destruct Hcase as [(-> & _ & Hs)|(_ & _ & Hs)];
          rewrite Hs in Hq; [|now left].
        rewrite seen_of_insert in Hq. destruct (decide (key = k)) as [<-|Hne].
        -- rewrite lookup_insert_eq in Hq. injection Hq as <-.
           right. exists u. rewrite Hnew. left.
        -- rewrite lookup_insert_ne in Hq by exact Hne. now left.
    + rewrite Hnew. intros Hok. unfold all_succeeded in Hok.
      rewrite Forall_singleton in Hok. cbn in Hok.
      destruct Hcase as [(_ & -> & ->)|(Hfalse & _)]; [|congruence].
      exists path. split; [reflexivity|]. rewrite seen_of_insert. now apply hit_insert.
Qed.

(** One asset, when the cache holds its identity: the path is reused and
    nothing else happens. *)
Lemma reuse_or_fetch_replay (t : AssetType) (url : string)
  (fetch : M (option string)) (st : State) (p : string) :
  hit (seen_of t (seen_assets st)) (asset_identity url t) = Some p ->
  reuse_or_fetch t url fetch st = (Return (Some p), st).
Proof.
  intros Hhit. unfold reuse_or_fetch, bind, is_duplicate, ret.
  now rewrite reusable_hit, Hhit.
Qed.

Lemma all_succeeded_app (l1 l2 : list (string * string * bool)) :
  all_succeeded (l1 ++ l2) <-> all_succeeded l1 /\ all_succeeded l2.
Proof. apply Forall_app. Qed.

Lemma download_each_first (t : AssetType) (subdir ad_dir ad_id : string) :
  t <> Video -> subdir <> "" ->
  forall urls i got st out st',
    download_each t subdir ad_dir ad_id i urls got st = (Return out, st') ->
    Grows t st st'
    /\ (all_succeeded (new_downloads st st') ->
        exists ps, out = got ++ ps
          /\ Forall2 (fun url p => hit (seen_of t (seen_assets st'))
                                       (asset_identity url t) = Some p) urls ps).
Proof.
  intros Ht Hs. induction urls as [|url urls IH]; intros i got st out st' E.
  - cbn in E. injection E as <- <-. split; [apply Grows_refl|].
    intros _. exists []. now rewrite app_nil_r.
  - cbn [download_each] in E. unfold bind at 1 in E.
    destruct (reuse_or_fetch t url _ st) as [[path|] st1] eqn:E1; [|discriminate].
    apply (reuse_or_fetch_first t url (_normalize_url url)) in E1 as [G1 S1];
      [| now destruct t | now apply fetch_new_like].
    destruct (IH _ _ _ _ _ E) as [G2 S2].
    split; [now apply (Grows_trans t st st1 st')|].
    rewrite (Grows_new_trans t t st st1 st' G1 G2). intros Hok.
    apply all_succeeded_app in Hok as [Hok1 Hok2].
    destruct (S1 Hok1) as (p & -> & Hp). destruct (S2 Hok2) as (ps & -> & Hps).
    exists (p :: ps). cbn [append_path]. split; [now rewrite <- app_assoc|].
    constructor; [|exact Hps].
    replace (asset_identity url t) with (_normalize_url url) by now destruct t.
    now apply (grows_stable t st1 st' G2).
Qed.

Lemma download_each_replay (t : AssetType) (subdir ad_dir ad_id : string)
  (urls ps : list string) :
  forall st i got,
    Forall2 (fun url p => hit (seen_of t (seen_assets st))
                              (asset_identity url t) = Some p) urls ps ->
    download_each t subdir ad_dir ad_id i urls got st = (Return (got ++ ps), st).
Proof.
  intros st i got Hall. revert i got.
  induction Hall as [|url p urls ps Hp _ IH]; intros i got.
  - cbn. unfold ret. now rewrite app_nil_r.
  - cbn [download_each]. unfold bind at 1.
    rewrite (reuse_or_fetch_replay t url _ st p Hp). cbn [append_path].
    rewrite IH. now rewrite <- app_assoc.
Qed.

Lemma groups_append_well_grouped (url : string)
  (groups : list (string * list string)) :
  well_grouped groups ->
  well_grouped (groups_append (_get_video_base_path url) url groups).
Proof.
  unfold well_grouped. induction 1 as [|[k us] groups (u & Hu & Hk) Htail IH].
  - cbn. constructor; [|constructor]. now exists url.
  - cbn [groups_append]. destruct (String.eqb k (_get_video_base_path url)).
    + constructor; [|exact Htail]. exists u. cbn [fst snd] in *.
      split; [|exact Hk]. destruct us; [discriminate | exact Hu].
    + constructor; [|exact IH]. now exists u.
Qed.

Lemma group_videos_well_grouped (video_urls : list string) :
  well_grouped (group_videos video_urls).
Proof.
  unfold group_videos.
  assert (Hgen : forall groups, well_grouped groups ->
            well_grouped (fold_left
              (fun groups url => groups_append (_get_video_base_path url) url groups)
              video_urls groups)).
  { induction video_urls as [|u us IH]; intros groups Hg; [exact Hg|].
    cbn [fold_left]. now apply IH, groups_append_well_grouped. }
  apply Hgen. constructor.
Qed.

Lemma download_videos_first (ad_dir ad_id : string) :
  forall groups got st out st',
    well_grouped groups ->
    download_videos ad_dir ad_id groups got st = (Return out, st') ->
    Grows Video st st'
    /\ (all_succeeded (new_downloads st st') ->
        exists ps, out = got ++ ps
          /\ Forall2 (fun g p => hit (seen_of Video (seen_assets st')) (fst g) = Some p)
                     groups ps).
Proof.
  induction groups as [|[k us] groups IH]; intros got st out st' Hwf E.
  - cbn in E. injection E as <- <-. split; [apply Grows_refl|].
    intros _. exists []. now rewrite app_nil_r.
  - apply Forall_cons in Hwf as [(u & Hu & Hk) Hwf]. cbn [fst snd] in Hu, Hk.
    cbn [download_videos] in E. unfold bind at 1 in E. unfold lift at 1 in E.
    rewrite Hu in E. unfold bind at 1 in E.
    destruct (reuse_or_fetch Video u _ st) as [[path|] st1] eqn:E1; [|discriminate].
    apply (reuse_or_fetch_first Video u k) in E1 as [G1 S1];
      [| exact Hk | apply best_fetch_like].
    destruct (IH _ _ _ _ Hwf E) as [G2 S2].
    split; [now apply (Grows_trans Video st st1 st')|].
    rewrite (Grows_new_trans Video Video st st1 st' G1 G2). intros Hok.
    apply all_succeeded_app in Hok as [Hok1 Hok2].
    destruct (S1 Hok1) as (p & -> & Hp). destruct (S2 Hok2) as (ps & -> & Hps).
    exists (p :: ps). cbn [append_path]. split; [now rewrite <- app_assoc|].
    constructor; [|exact Hps]. now apply (grows_stable Video st1 st' G2).
Qed.

Lemma download_videos_replay (ad_dir ad_id : string)
  (groups : list (string * list string)) (ps : list string) :
  forall st got,
    well_grouped groups ->
    Forall2 (fun g p => hit (seen_of Video (seen_assets st)) (fst g) = Some p)
            groups ps ->
    download_videos ad_dir ad_id groups got st = (Return (got ++ ps), st).
Proof.
  intros st got Hwf Hall. revert got.
  induction Hall as [|[k us] p groups ps Hp _ IH]; intros got.
  - cbn. unfold ret. now rewrite app_nil_r.
  - apply Forall_cons in Hwf as [(u & Hu & Hk) Hwf]. cbn [fst snd] in Hu, Hk, Hp.
    cbn [download_videos]. unfold bind at 1. unfold lift at 1. rewrite Hu.
    unfold bind at 1. rewrite (reuse_or_fetch_replay Video u _ st p).
    + cbn [append_path]. rewrite (IH Hwf). now rewrite <- app_assoc.
    + cbn [asset_identity]. now rewrite Hk.
Qed.

(** The three kinds of phases of [_download_ad_assets_with_dedup]: after a
    run without a failed download, the phase is settled. *)
Lemma each_phase (t : AssetType) (subdir ad_dir ad_id : string)
  (urls out : list string) (st st' : State) :
  t <> Video -> subdir <> "" ->
  download_each t subdir ad_dir ad_id 1 urls [] st = (Return out, st') ->
  Grows t st st'
  /\ (all_succeeded (new_downloads st st') ->
      settled t (download_each t subdir ad_dir ad_id 1 urls []) out st').
Proof.
  intros Ht Hs E. destruct (download_each_first t subdir ad_dir ad_id Ht Hs _ _ _ _ _ _ E)
    as [G S].
  split; [exact G|]. intros Hok st'' Hsame.
  destruct (S Hok) as (ps & -> & Hps).
  apply download_each_replay. now rewrite Hsame.
Qed.

Lemma videos_phase (ad_dir ad_id : string) (video_urls out : list string)
  (st st' : State) :
  download_videos ad_dir ad_id (group_videos video_urls) [] st = (Return out, st') ->
  Grows Video st st'
  /\ (all_succeeded (new_downloads st st') ->
      settled Video (download_videos ad_dir ad_id (group_videos video_urls) []) out st').
Proof.
  intros E. pose proof (group_videos_well_grouped video_urls) as Hwf.
  destruct (download_videos_first ad_dir ad_id _ _ _ _ _ Hwf E) as [G S].
  split; [exact G|]. intros Hok st'' Hsame.
  destruct (S Hok) as (ps & -> & Hps).
  apply download_videos_replay; [exact Hwf|]. now rewrite Hsame.
Qed.

Lemma logo_phase (ad_dir ad_id : string) (logo_url out : option string)
  (st st' : State) :
  download_logo ad_dir ad_id logo_url st = (Return out, st') ->
  Grows Logo st st'
  /\ (all_succeeded (new_downloads st st') ->
      settled Logo (download_logo ad_dir ad_id logo_url) out st').
Proof.
  unfold download_logo. destruct logo_url as [[|c u]|].
  1,3: intros [= <- <-]; (split; [apply Grows_refl | now intros _ st'' _]).
  intros E.
  apply (reuse_or_fetch_first Logo (String c u) (_normalize_url (String c u))) in E
    as [G S]; [| reflexivity | now apply fetch_new_like].
  split; [exact G|]. intros Hok st'' Hsame.
  destruct (S Hok) as (p & -> & Hp).
  apply reuse_or_fetch_replay. cbn [asset_identity]. now rewrite Hsame.
Qed.

Lemma new_downloads_trans (st1 st2 st3 : State) :
  downloads st2 = downloads st1 ++ new_downloads st1 st2 ->
  downloads st3 = downloads st2 ++ new_downloads st2 st3 ->
  downloads st3 = downloads st1 ++ new_downloads st1 st3
  /\ new_downloads st1 st3 = new_downloads st1 st2 ++ new_downloads st2 st3.
Proof.
  intros L1 L2.
  assert (E : downloads st3
              = downloads st1 ++ (new_downloads st1 st2 ++ new_downloads st2 st3))
    by (rewrite L2, L1 at 1; now rewrite <- app_assoc).
  rewrite (new_downloads_app st1 st3 _ E). now split.
Qed.

(** C5, as the code has it.  After a materialization that returned, every
    entry of the cache is an old one or the path of a successful download of
    that run; and when no download of that run failed, a second
    materialization of the same record returns the same paths and leaves the
    state as it is: no download is attempted, nothing is registered. *)
Theorem materialization_idempotent (ad_id : string) (logo_url : option string)
  (assets : Assets) (output_dir : string) (st st' : State) (d : Downloaded) :
  _download_ad_assets_with_dedup ad_id logo_url assets output_dir st = (Return d, st') ->
  (forall t key p,
     seen_of t (seen_assets st') !! key = Some p ->
     seen_of t (seen_assets st) !! key = Some p
     \/ exists url, (url, p, true) ∈ new_downloads st st')
  /\ (all_succeeded (new_downloads st st') ->
      _download_ad_assets_with_dedup ad_id logo_url assets output_dir st'
      = (Return d, st')).
Proof.
  unfold _download_ad_assets_with_dedup.
  set (ad_dir := os_path_join output_dir [ad_id]).
  set (m_logo := download_logo ad_dir ad_id logo_url).
  set (m_images := download_each Image "images" ad_dir ad_id 1 (images assets) []).
  set (m_videos := download_videos ad_dir ad_id (group_videos (videos assets)) []).
  set (m_posters := download_each Poster "posters" ad_dir ad_id 1 (posters assets) []).
  unfold bind, ret. intros E.
  destruct (m_logo st) as [[lg|] sA] eqn:EA; [|discriminate].
  destruct (m_images sA) as [[im|] sB] eqn:EB; [|discriminate].
  destruct (m_videos sB) as [[vd|] sC] eqn:EC; [|discriminate].
  destruct (m_posters sC) as [[ps|] sD] eqn:ED; [|discriminate].
  injection E as <- <-.
  apply logo_phase in EA as [GA SA].
  apply each_phase in EB as [GB SB]; [| discriminate | discriminate].
  apply videos_phase in EC as [GC SC].
  apply each_phase in ED as [GD SD]; [| discriminate | discriminate].
  destruct (new_downloads_trans st sA sB (grows_log _ _ _ GA) (grows_log _ _ _ GB))
    as [LB NB].
  destruct (new_downloads_trans st sB sC LB (grows_log _ _ _ GC)) as [LC NC].
  destruct (new_downloads_trans st sC sD LC (grows_log _ _ _ GD)) as [LD ND].
  pose proof (grows_frame _ _ _ GA) as FA. pose proof (grows_frame _ _ _ GB) as FB.
  pose proof (grows_frame _ _ _ GC) as FC. pose proof (grows_frame _ _ _ GD) as FD.
  split.
  - intros t key p Hp. rewrite ND, NC, NB.
    destruct t.
    + rewrite (FD Logo), (FC Logo), (FB Logo) in Hp by discriminate.
      destruct (grows_success _ _ _ GA key p Hp) as [?|(u & Hu)]; [now left|].
      right. exists u. rewrite !elem_of_app. tauto.
    + rewrite (FD Image), (FC Image) in Hp by discriminate.
      destruct (grows_success _ _ _ GB key p Hp) as [Hold|(u & Hu)].
      * left. now rewrite (FA Image) in Hold by discriminate.
      * right. exists u. rewrite !elem_of_app. tauto.
    + rewrite (FD Video) in Hp by discriminate.
      destruct (grows_success _ _ _ GC key p Hp) as [Hold|(u & Hu)].
      * left. now rewrite (FB Video), (FA Video) in Hold by discriminate.
      * right. exists u. rewrite !elem_of_app. tauto.
    + destruct (grows_success _ _ _ GD key p Hp) as [Hold|(u & Hu)].
      * left. now rewrite (FC Poster), (FB Poster), (FA Poster) in Hold by discriminate.
      * right. exists u. rewrite !elem_of_app. tauto.
  - rewrite ND, NC, NB. intros Hok.
    apply all_succeeded_app in Hok as [Hok HD].
    apply all_succeeded_app in Hok as [Hok HC].
    apply all_succeeded_app in Hok as [HA HB].
    unfold m_logo, m_images, m_videos, m_posters.
    rewrite (SA HA sD) by now rewrite (FD Logo), (FC Logo), (FB Logo) by discriminate.
    rewrite (SB HB sD) by now rewrite (FD Image), (FC Image) by discriminate.
    rewrite (SC HC sD) by now rewrite (FD Video) by discriminate.
    now rewrite (SD HD sD).
Qed.

End FetcherFacts.

Lemma materialization_idempotent_witness :
  exists d st',
    reliable_first = (Return d, st')
    /\ ((forall t key p,
           seen_of t (seen_assets st') !! key = Some p ->
           seen_of t (seen_assets (@fresh reliable tt)) !! key = Some p
           \/ exists url, (url, p, true) ∈ new_downloads (@fresh reliable tt) st')
        /\ (all_succeeded (new_downloads (@fresh reliable tt) st') ->
            @materialize_example reliable st' = (Return d, st'))).
Proof.
  eexists. eexists. split.
  - vm_compute. reflexivity.
  - apply (@materialization_idempotent plain_library reliable).
    vm_compute. reflexivity.
Defined.

(** On the reliable network the example record is materialized with four
    downloads (one per identity, the video at 720p), and a second time with
    none. *)
Example materialize_twice_reliable :
  fst reliable_first = fst reliable_second
  /\ snd reliable_first = snd reliable_second
  /\ map (fun e => fst (fst e)) (downloads (snd reliable_first))
     = [ "https://media.licdn.com/dms/image/v2/D4E/logo.png?e=1";
         "https://media.licdn.com/dms/image/v2/D4E/pic.jpg?e=1";
         rendition_720;
         "https://media.licdn.com/dms/image/v2/D4E/poster.png" ].
Proof. vm_compute. repeat split. Qed.

(** The claim of C5 fails when a download failed the first time: the
    identity was not registered, so the second materialization downloads
    again, and here it returns a logo path where the first returned none. *)
Lemma materialization_counterexample :
  (exists d1 d2,
     fst flaky_first = Return d1 /\ fst flaky_second = Return d2
     /\ logo d1 = None
     /\ logo d2 = Some "downloaded_assets/9001/logo/9001_logo_png_0.png")
  /\ new_downloads (snd flaky_first) (snd flaky_second)
     = [ ("https://media.licdn.com/dms/image/v2/D4E/logo.png?e=1",
          "downloaded_assets/9001/logo/9001_logo_png_0.png", true) ].
Proof. split; [eexists; eexists|]; vm_compute; repeat split. Qed.

(** *** Malformed asset urls *)

(** C7.  The identity functions are total and fail closed: a url that
    [urlparse] rejects is its own identity, for every kind.  The pipeline
    still aborts on such a url: [_generate_filename] parses it again without
    a guard, so the materialization of a record with one such image
    raises. *)
Theorem identity_fails_closed_but_fetch_raises :
  (forall (L : Library) (url : string) (kind : AssetType),
     @Url.urlparse L url = None -> @asset_identity L url kind = url)
  /\ @Url.urlparse plain_library unparsable_1 = None
  /\ fst (@_download_ad_assets_with_dedup plain_library reliable "9001" None
            bad_image_assets "downloaded_assets" (@fresh reliable tt))
     = Raise.
Proof.
  split; [|split; vm_compute; reflexivity].
  intros L url kind E. destruct (@identity_fails_closed L url E) as [E1 E2].
  now destruct kind.
Qed.
(** *** First elements of the classes of a key *)

Section Firsts.

Context (key : string -> string).

Lemma firsts_elem (x : string) (l : list string) : x ∈ firsts key l -> x ∈ l.
Proof.
  induction l as [|a l IH]; [easy|]. cbn [firsts].
  rewrite !elem_of_cons, list_elem_of_filter. tauto.
Qed.

Lemma firsts_keys (k : string) (l : list string) :
  k ∈ map key (firsts key l) <-> k ∈ map key l.
Proof.
  induction l as [|a l IH]; [reflexivity|]. cbn [firsts map].
  rewrite !elem_of_cons, <- IH, !list_elem_of_fmap. split.
  - intros [->|(y & -> & Hy)]; [now left|]. apply list_elem_of_filter in Hy as [_ Hy].
    right. now exists y.
  - intros [->|(y & -> & Hy)]; [now left|].
    destruct (decide (key y = key a)) as [E|Hne]; [now left|].
    right. exists y. split; [reflexivity|]. now apply list_elem_of_filter.
Qed.

Lemma firsts_snoc (l : list string) (x : string) :
  firsts key (l ++ [x])
  = if decide (key x ∈ map key l) then firsts key l else firsts key l ++ [x].
Proof.
  induction l as [|a l IH].
  - cbn. destruct (decide (key x ∈ [])) as [Hin|_]; [inversion Hin | reflexivity].
  - cbn [app firsts map]. rewrite IH.
    destruct (decide (key x ∈ map key l)) as [Hin|Hnin].
    + destruct (decide (key x ∈ key a :: map key l)) as [_|Hn]; [reflexivity|].
      exfalso. apply Hn. now right.
    + destruct (decide (key x = key a)) as [E|Hne].
      * destruct (decide (key x ∈ key a :: map key l)) as [_|Hn];
          [|exfalso; apply Hn; rewrite E; left].
        rewrite filter_app, filter_cons_False, filter_nil by (intros Hf; now apply Hf).
        now rewrite app_nil_r.
      * destruct (decide (key x ∈ key a :: map key l)) as [Hin|_].
        { apply elem_of_cons in Hin as [?|?]; congruence. }
        now rewrite filter_app, filter_cons_True, filter_nil by exact Hne.
Qed.

Lemma firsts_sublist (l : list string) : firsts key l `sublist_of` l.
Proof.
  induction l as [|a l IH]; [constructor|]. cbn [firsts].
  apply sublist_skip. etransitivity; [apply sublist_filter | exact IH].
Qed.

Lemma firsts_NoDup (l : list string) : NoDup (map key (firsts key l)).
Proof.
  induction l as [|a l IH]; [constructor|]. cbn [firsts map].
  apply NoDup_cons. split.
  - rewrite list_elem_of_fmap. intros (y & E & Hy).
    apply list_elem_of_filter in Hy as [Hy _]. congruence.
  - eapply sublist_NoDup; [exact IH|]. apply fmap_sublist, sublist_filter.
Qed.

(** Every kept element is the first of the list with its key. *)
Lemma firsts_first (l : list string) (y : string) :
  y ∈ firsts key l ->
  exists i, l !! i = Some y
            /\ forall j z, j < i -> l !! j = Some z -> key z <> key y.
Proof.
  induction l as [|a l IH]; [easy|]. cbn [firsts].
  rewrite elem_of_cons. intros [->|Hy].
  - exists 0. split; [reflexivity|]. intros j z Hj. lia.
  - apply list_elem_of_filter in Hy as [Hne Hy].
    destruct (IH Hy) as (i & Hi & Hfirst). exists (S i). split; [exact Hi|].
    intros [|j] z Hj Hz.
    + injection Hz as <-. congruence.
    + apply (Hfirst j); [lia | exact Hz].
Qed.

Lemma firsts_covers (l : list string) (x : string) :
  x ∈ l -> exists y, y ∈ firsts key l /\ key y = key x.
Proof.
  intros Hx.
  assert (Hk : key x ∈ map key (firsts key l)).
  { apply firsts_keys, list_elem_of_fmap. now exists x. }
  apply list_elem_of_fmap in Hk as (y & E & Hy). now exists y.
Qed.

Lemma filter_all (P : string -> Prop) `{!forall x, Decision (P x)} (l : list string) :
  Forall P l -> filter P l = l.
Proof.
  induction 1 as [|x l Hx _ IH]; [reflexivity|].
  now rewrite filter_cons_True, IH by exact Hx.
Qed.

Lemma firsts_fixed (l : list string) : NoDup (map key l) -> firsts key l = l.
Proof.
  induction l as [|a l IH]; [reflexivity|]. cbn [firsts map].
  intros Hnd. apply NoDup_cons in Hnd as [Ha Hnd]. rewrite (IH Hnd). f_equal.
  apply filter_all. apply Forall_forall. intros y Hy E. apply Ha.
  rewrite <- E. apply list_elem_of_fmap. now exists y.
Qed.

Lemma firsts_idempotent (l : list string) :
  firsts key (firsts key l) = firsts key l.
Proof. apply firsts_fixed, firsts_NoDup. Qed.

(** The loop with its [seen] set computes [firsts]. *)
Lemma first_of_each_firsts (l : list string) :
  Complete.first_of_each key l = firsts key l.
Proof.
  unfold Complete.first_of_each.
  assert (Hgen : forall (done : list string) (seen : gset string) (todo : list string),
             (forall k, k ∈ seen <-> k ∈ map key done) ->
             snd (fold_left
                    (fun '(seen_urls, kept) url =>
                       if decide (key url ∈ (seen_urls : gset string))
                       then (seen_urls, kept)
                       else ({[key url]} ∪ seen_urls, kept ++ [url]))
                    todo (seen, firsts key done))
             = firsts key (done ++ todo)).
  { intros done seen todo. revert done seen.
    induction todo as [|x todo IH]; intros done seen Hseen.
    - now rewrite app_nil_r.
    - cbn [fold_left].
      replace (done ++ x :: todo) with ((done ++ [x]) ++ todo)
        by now rewrite <- app_assoc.
      destruct (decide (key x ∈ seen)) as [Hin|Hnin].
      + rewrite <- (IH (done ++ [x]) seen).
        * rewrite firsts_snoc. apply Hseen in Hin.
          now destruct (decide (key x ∈ map key done)).
        * intros k. rewrite map_app, elem_of_app, <- Hseen. cbn.
          rewrite list_elem_of_singleton. split; [tauto|]. now intros [?| ->].
      + rewrite <- (IH (done ++ [x]) ({[key x]} ∪ seen)).
        * rewrite firsts_snoc. rewrite Hseen in Hnin.
          now destruct (decide (key x ∈ map key done)).
        * intros k. rewrite map_app, elem_of_app, <- Hseen. cbn.
          rewrite list_elem_of_singleton. set_solver. }
  apply (Hgen [] ∅ l). intros k. cbn. set_solver.
Qed.

End Firsts.

(** *** Matches of a pattern that begins with a literal *)

Section LiteralFirst.

Lemma mismatch_prefix (l b s : string) :
  mismatch l b = true -> String.prefix l (b +:+ s) = false.
Proof.
  revert b. induction l as [|x l IH]; intros [|y b] H; try discriminate.
  rewrite app_cons_s. cbn [mismatch String.prefix] in *.
  destruct (ascii_dec x y) as [->|Hne].
  - rewrite Ascii.eqb_refl in H. auto.
  - reflexivity.
Qed.

Context (l : string) (m : string -> option (string * string)).

Hypothesis m_literal : forall x, String.prefix l x = false -> m x = None.

Lemma mismatch_none (b s : string) : mismatch l b = true -> m (b +:+ s) = None.
Proof. intros H. now apply m_literal, mismatch_prefix. Qed.

Lemma findall_clear (pre s : string) :
  clear_of l pre = true -> Re.findall m (pre +:+ s) = Re.findall m s.
Proof.
  unfold Re.findall. induction pre as [|c pre IH]; intros H; [reflexivity|].
  cbn [clear_of] in H. apply andb_true_iff in H as [H1 H2].
  pose proof (mismatch_none _ s H1) as Hn. rewrite app_cons_s in *.
  cbn [Re.findall_from]. rewrite Hn. auto.
Qed.

Lemma search_clear (pre s : string) :
  clear_of l pre = true -> Regex.search m (pre +:+ s) = Regex.search m s.
Proof.
  induction pre as [|c pre IH]; intros H; [reflexivity|].
  cbn [clear_of] in H. apply andb_true_iff in H as [H1 H2].
  pose proof (mismatch_none _ s H1) as Hn. rewrite app_cons_s in *.
  cbn [Regex.search]. rewrite Hn. auto.
Qed.

End LiteralFirst.

Lemma findall_from_short (m : string -> option (string * string)) (skip : nat)
  (s : string) :
  String.length s <= skip -> Re.findall_from m skip s = [].
Proof.
  revert skip. induction s as [|c s IH]; intros skip Hs; [reflexivity|].
  cbn [String.length] in Hs. destruct skip as [|k]; [lia|].
  cbn [Re.findall_from]. apply IH. lia.
Qed.

(** A match that reaches the end of the text is the only one from there
    on. *)
Lemma findall_last_match (m : string -> option (string * string)) (s g : string) :
  s <> "" -> m s = Some (g, "") -> Re.findall m s = [g].
Proof.
  intros Hs Hm. destruct s as [|c s]; [congruence|].
  unfold Re.findall. cbn [Re.findall_from]. rewrite Hm. f_equal.
  apply findall_from_short. cbn. lia.
Qed.

(** *** Ad ids *)

Section AdIds.

Lemma many1_spec (P : ascii -> bool) (s g r : string) :
  Re.many1 P s = Some (g, r) <->
  g <> "" /\ Url.all_chars P g = true /\ s = g +:+ r
  /\ match r with EmptyString => True | String c _ => P c = false end.
Proof.
  unfold Re.many1. split.
  - destruct (span_spec P s) as (E & Ha & Hr).
    destruct (Re.span P s) as [[|x a] r0]; [discriminate|].
    cbn [fst snd] in *. intros [= <- <-]. now repeat split.
  - intros (Hne & Ha & -> & Hr). rewrite (span_intro P g r Ha Hr).
    destruct g; [congruence | reflexivity].
Qed.

(** The matches of [detail_link]: the prefix, then the whole run of
    digits. *)
Lemma detail_link_spec (s g r : string) :
  detail_link s = Some (g, r) <->
  digit_id g /\ s = "/ad-library/detail/" +:+ g +:+ r
  /\ match r with EmptyString => True | String c _ => Py.is_digit c = false end.
Proof.
  unfold detail_link, digit_id. split.
  - destruct (Re.lit "/ad-library/detail/" s) as [t|] eqn:El; [|discriminate].
    apply lit_spec in El. intros Hm. apply many1_spec in Hm as (Hne & Ha & -> & Hr).
    now repeat split.
  - intros ((Hne & Ha) & -> & Hr).
    assert (El : Re.lit "/ad-library/detail/" ("/ad-library/detail/" +:+ g +:+ r)
                 = Some (g +:+ r)) by now apply lit_spec.
    rewrite El. now apply many1_spec.
Qed.

Lemma detail_link_literal (x : string) :
  String.prefix "/ad-library/detail/" x = false -> detail_link x = None.
Proof. intros Hx. unfold detail_link, Re.lit. now rewrite Hx. Qed.

Lemma extract_ad_ids_firsts (html_fragment : string) :
  extract_ad_ids_from_html html_fragment
  = firsts (fun x => x) (Re.findall detail_link html_fragment).
Proof.
  rewrite <- first_of_each_firsts. reflexivity.
Qed.

Lemma extract_ad_ids_elem (html_fragment ad_id : string) :
  ad_id ∈ extract_ad_ids_from_html html_fragment ->
  digit_id ad_id
  /\ exists before after,
       html_fragment = before +:+ "/ad-library/detail/" +:+ ad_id +:+ after
       /\ match after with
          | EmptyString => True
          | String c _ => Py.is_digit c = false
          end.
Proof.
  rewrite extract_ad_ids_firsts. intros Hin. apply firsts_elem in Hin.
  apply findall_from_elem in Hin as (a & b & rest & -> & Hm).
  apply detail_link_spec in Hm as (Hd & -> & Hr).
  split; [exact Hd|]. now exists a, rest.
Qed.

End AdIds.

(** X1.  The ids that [extract_ad_ids_from_html] returns are pairwise
    different; each is a non-empty string of decimal digits that stands in
    the fragment right after [/ad-library/detail/] and is the whole run of
    digits there; and a fragment without that prefix has no ids. *)
Theorem extracted_ad_ids_distinct_digit_runs (html_fragment : string) :
  NoDup (extract_ad_ids_from_html html_fragment)
  /\ (forall ad_id, ad_id ∈ extract_ad_ids_from_html html_fragment ->
        digit_id ad_id
        /\ exists before after,
             html_fragment = before +:+ "/ad-library/detail/" +:+ ad_id +:+ after
             /\ match after with
                | EmptyString => True
                | String c _ => Py.is_digit c = false
                end)
  /\ (Py.contains "/ad-library/detail/" html_fragment = false ->
      extract_ad_ids_from_html html_fragment = []).
Proof.
  split; [|split].
  - rewrite extract_ad_ids_firsts.
    pose proof (firsts_NoDup (fun x => x) (Re.findall detail_link html_fragment)) as Hn.
    now rewrite map_id in Hn.
  - apply extract_ad_ids_elem.
  - intros Hno.
    destruct (extract_ad_ids_from_html html_fragment) as [|i ids] eqn:E; [reflexivity|].
    exfalso.
    destruct (extract_ad_ids_elem html_fragment i) as (_ & a & b & Hh & _).
    { rewrite E. left. }
    assert (Hc : Py.contains "/ad-library/detail/" html_fragment = true).
    { apply contains_spec. exists a, (i +:+ b). exact Hh. }
    congruence.
Qed.

Lemma digit_not_letter (c : ascii) (s : string) (l : ascii) :
  Py.is_digit c = true -> Py.is_digit l = false ->
  String.prefix (String l "") (String c s) = false.
Proof.
  intros Hc Hl. rewrite prefix_char. apply Ascii.eqb_neq. intros ->. congruence.
Qed.

(** X2.  The url of a detail page leads back to its ad id: from the url
    that [scrape_ad_detail_with_bs4] builds for an id of decimal digits,
    [extract_ad_ids_from_html] extracts that id and nothing else. *)
Theorem detail_url_round_trip (ad_id : string) :
  digit_id ad_id ->
  extract_ad_ids_from_html (Single.detail_url ad_id) = [ad_id].
Proof.
  intros Hd. rewrite extract_ad_ids_firsts.
  assert (E : Re.findall detail_link (Single.detail_url ad_id) = [ad_id]).
  { unfold Single.detail_url, Single.detail_base_url.
    change ("https://www.linkedin.com/ad-library/detail" +:+ "/" +:+ ad_id)
      with ("https://www.linkedin.com" +:+ ("/ad-library/detail/" +:+ ad_id)).
    rewrite (findall_clear "/ad-library/detail/" detail_link detail_link_literal)
      by reflexivity.
    apply findall_last_match; [discriminate|].
    apply detail_link_spec. split; [exact Hd|]. now rewrite app_nil_r_s. }
  rewrite E. reflexivity.
Qed.

Lemma detail_url_round_trip_witness :
  digit_id "7001234" /\ extract_ad_ids_from_html (Single.detail_url "7001234") = ["7001234"].
Proof.
  assert (H : digit_id "7001234") by (split; [discriminate | reflexivity]).
  split; [exact H | exact (detail_url_round_trip "7001234" H)].
Defined.
(** *** More on the pagination walker *)

Lemma elem_of_concat {A : Type} (x : A) (ls : list (list A)) :
  x ∈ concat ls <-> exists l, x ∈ l /\ l ∈ ls.
Proof.
  rewrite list_elem_of_In, in_concat. split.
  - intros (l & H1 & H2). exists l. now rewrite !list_elem_of_In.
  - intros (l & H1 & H2). exists l. now rewrite <- !list_elem_of_In.
Qed.

Section WalkerMore.

Context (E : Endpoint) (account_owner : string) (max_results : Z).

(** A pass never reports the target as reached, and the ids that it logs
    for a page are those that [extract_ad_ids_from_html] found in it. *)
Lemma body_pages (w w' : Walk E) (s : option Stop) :
  body E account_owner max_results w = (w', s) ->
  s <> Some TargetReached
  /\ (page_ids w' = page_ids w
      \/ exists html_fragment,
           page_ids w' = page_ids w ++ [extract_ad_ids_from_html html_fragment]).
Proof.
  assert (Hadv : forall (w2 w3 : Walk E) next s3,
             advance E w2 next = (w3, s3) ->
             s3 <> Some TargetReached /\ page_ids w3 = page_ids w2).
  { intros w2 w3 next s3. unfold advance.
    destruct (decide (next = pagination_token w2)); [intros [= <- <-]; now split|].
    destruct (negb (truthy next)); [intros [= <- <-]; now split|].
    cbn. destruct (page_num w2 + 1 >? 100)%Z; intros [= <- <-]; now split. }
  unfold body.
  destruct (truthy (pagination_token w) && in_seen (pagination_token w) (seen_tokens w)).
  { intros [= <- <-]. split; [discriminate | now left]. }
  destruct (match _normalize_pagination_token (pagination_token w) with
            | Api value => fetch_api_page E account_owner value (remote w)
            | Offset value => fetch_offset_page E account_owner value (remote w)
            end) as [[data|] remote'].
  2:{ intros [= <- <-]. split; [discriminate | now left]. }
  destruct (html data) as [|c h].
  { intros [= <- <-]. split; [discriminate | now left]. }
  destruct (extract_ad_ids_from_html (String c h)) as [|i ids] eqn:Hids.
  - destruct (negb (truthy (paginationToken data))).
    + intros [= <- <-]. split; [discriminate|]. right. exists (String c h).
      cbn. now rewrite Hids.
    + intros Ha. apply Hadv in Ha as [Hs Hp]. split; [exact Hs|]. right.
      exists (String c h). rewrite Hp. cbn. now rewrite Hids.
  - match goal with
    | |- (if ?b then _ else _) = _ -> _ => destruct b
    end.
    + intros [= <- <-]. split; [discriminate|]. right. exists (String c h).
      cbn. now rewrite Hids.
    + intros Ha. apply Hadv in Ha as [Hs Hp]. split; [exact Hs|]. right.
      exists (String c h). rewrite Hp. cbn. now rewrite Hids.
Qed.

(** What every pass preserves holds at the end of the loop. *)
Lemma loop_invariant (P : Walk E -> Prop) :
  (forall w w' s, P w -> body E account_owner max_results w = (w', s) -> P w') ->
  forall fuel w w' s,
    P w -> loop E account_owner max_results fuel w = (w', s) -> P w'.
Proof.
  intros Hstep. induction fuel as [|k IH]; intros w w' s Hw.
  - now intros [= <- <-].
  - cbn [loop]. destruct (Z.of_nat (length (all_ad_ids w)) <? max_results)%Z.
    + destruct (body E account_owner max_results w) as [w1 [s1|]] eqn:Hb.
      * intros [= <- <-]. eapply Hstep; eassumption.
      * apply IH. eapply Hstep; eassumption.
    + now intros [= <- <-].
Qed.

(** The loop reports the target as reached only at its head, with the
    target met. *)
Lemma loop_target_reached (fuel : nat) (w w' : Walk E) :
  loop E account_owner max_results fuel w = (w', Some TargetReached) ->
  (max_results <= Z.of_nat (length (all_ad_ids w')))%Z.
Proof.
  revert w. induction fuel as [|k IH]; intros w; [discriminate|].
  cbn [loop].
  destruct (Z.ltb_spec (Z.of_nat (length (all_ad_ids w))) max_results) as [Hlt|Hge].
  - destruct (body E account_owner max_results w) as [w1 [s1|]] eqn:Hb.
    + intros [= <- ->]. apply body_pages in Hb as [Hs _]. congruence.
    + apply IH.
  - now intros [= <-].
Qed.

(** X3.  Every id that [scrape_search_pages] returns is a non-empty string
    of decimal digits, whatever the listing service answers. *)
Theorem walker_returns_digit_ids (r : Remote E) :
  Forall digit_id
    (all_ad_ids (fst (scrape_search_pages E account_owner max_results r))).
Proof.
  destruct (walk_fuel_enough E account_owner max_results r) as (w & stop & Hw & Hi & _).
  assert (Hp : Forall (Forall digit_id) (page_ids w)).
  { apply (loop_invariant (fun w => Forall (Forall digit_id) (page_ids w)))
      with (fuel := 100) (w := start E r) (s := Some stop); [| constructor | exact Hw].
    intros w1 w2 s Hw1 Hb. apply body_pages in Hb as [_ [->|(h & ->)]]; [exact Hw1|].
    apply Forall_app. split; [exact Hw1|]. constructor; [|constructor].
    apply Forall_forall. intros i Hin. now apply extract_ad_ids_elem in Hin. }
  rewrite Hw. cbn [fst]. rewrite (inv_ids _ _ Hi).
  apply Forall_forall. intros i Hin.
  assert (Hin' : i ∈ uniq (concat (page_ids w))).
  { eapply elem_of_sublist; [exact Hin | apply sublist_take]. }
  rewrite elem_of_uniq in Hin'. apply elem_of_concat in Hin' as (ids & Hi1 & Hi2).
  rewrite Forall_forall in Hp. specialize (Hp ids Hi2).
  rewrite Forall_forall in Hp. now apply Hp.
Qed.

(** X4.  A target that is not positive sends no request and returns the
    empty list; and the walk ends with [TargetReached] only when it has
    collected exactly [max_results] ids, so a shorter list always comes with
    another of the stops. *)
Theorem walker_target_reached_exactly (r : Remote E) :
  let res := scrape_search_pages E account_owner max_results r in
  ((max_results <= 0)%Z -> res = (start E r, Some TargetReached))
  /\ (snd res = Some TargetReached ->
      Z.of_nat (length (all_ad_ids (fst res))) = Z.max 0 max_results)
  /\ ((Z.of_nat (length (all_ad_ids (fst res))) < max_results)%Z ->
      exists stop, snd res = Some stop /\ stop <> TargetReached).
Proof.
  cbv zeta. split; [|].
  - intros Hle. unfold scrape_search_pages. cbn [loop start all_ad_ids length].
    destruct (Z.ltb_spec (Z.of_nat 0) max_results) as [Hlt|_]; [lia | reflexivity].
  - destruct (walk_fuel_enough E account_owner max_results r) as (w & stop & Hw & Hi & _).
    rewrite Hw. cbn [fst snd].
    assert (Hlen : (Z.of_nat (length (all_ad_ids w)) <= Z.max 0 max_results)%Z).
    { rewrite (inv_ids _ _ Hi), length_take. lia. }
    split.
    + intros [= ->]. unfold scrape_search_pages in Hw.
      apply loop_target_reached in Hw. lia.
    + intros Hlt. exists stop. split; [reflexivity|]. intros ->.
      unfold scrape_search_pages in Hw. apply loop_target_reached in Hw. lia.
Qed.

End WalkerMore.
(** *** Parts of patterns *)

Section Parts.

Lemma take_drop_s (n : nat) (s : string) : Py.take n s +:+ Py.drop n s = s.
Proof.
  revert s. induction n as [|n IH]; intros [|c s]; try reflexivity.
  cbn [Py.take Py.drop]. now rewrite app_cons_s, IH.
Qed.

Lemma lit_i_trims (l : string) : trims (Regex.lit_i l).
Proof.
  intros s r. unfold Regex.lit_i. destruct (Regex.prefix_i l s); [|discriminate].
  intros [= <-]. exists (Py.take (String.length l) s). now rewrite take_drop_s.
Qed.

Lemma star_trims (P : ascii -> bool) : trims (Regex.star P).
Proof.
  intros s r [= <-]. exists (fst (Re.span P s)). apply span_spec.
Qed.

Lemma opt_trims (P : ascii -> bool) : trims (Regex.opt P).
Proof.
  intros [|c s] r; cbn [Regex.opt].
  - intros [= <-]. now exists "".
  - destruct (P c); intros [= <-]; [now exists (String c "") | now exists ""].
Qed.

Lemma one_spec (P : ascii -> bool) (s r : string) :
  Regex.one P s = Some r <-> exists c, P c = true /\ s = String c r.
Proof.
  destruct s as [|c s]; cbn [Regex.one].
  - split; [discriminate | now intros (c & _ & ?)].
  - destruct (P c) eqn:Hc; split.
    + intros [= <-]. now exists c.
    + now intros (c' & _ & [= <- <-]).
    + discriminate.
    + intros (c' & Hc' & [= <- <-]). congruence.
Qed.

Lemma one_trims (P : ascii -> bool) : trims (Regex.one P).
Proof.
  intros s r Hs. apply one_spec in Hs as (c & _ & ->). now exists (String c "").
Qed.

Lemma pattern_none (parts : list (string -> option string)) :
  fold_left (fun r m => match r with Some t => m t | None => None end) parts None
  = None.
Proof. induction parts as [|p parts IH]; [reflexivity | exact IH]. Qed.

Lemma pattern_cons (p : string -> option string)
  (parts : list (string -> option string)) (s : string) :
  pattern (p :: parts) s
  = match p s with Some t => pattern parts t | None => None end.
Proof.
  unfold pattern. cbn [fold_left]. destruct (p s); [reflexivity | apply pattern_none].
Qed.

Lemma pattern_snoc (parts : list (string -> option string))
  (p : string -> option string) (s : string) :
  pattern (parts ++ [p]) s
  = match pattern parts s with Some t => p t | None => None end.
Proof. unfold pattern. now rewrite fold_left_app. Qed.

Lemma pattern_trims (parts : list (string -> option string)) :
  Forall trims parts -> trims (pattern parts).
Proof.
  induction 1 as [|p parts Hp _ IH]; intros s r.
  - intros [= <-]. now exists "".
  - rewrite pattern_cons. destruct (p s) as [t|] eqn:Hs; [|discriminate].
    intros Hr. destruct (Hp s t Hs) as [x ->]. destruct (IH t r Hr) as [y ->].
    exists (x +:+ y). now rewrite app_assoc_s.
Qed.

(** A group that follows a quote: the group is not empty, is made of
    characters of its class, and stands in the text right after a
    character of the class [Q]. *)
Lemma group1_quoted (init : list (string -> option string)) (Q P : ascii -> bool)
  (post : list (string -> option string)) (b g rest : string) :
  Forall trims init ->
  Regex.group1 (init ++ [Regex.one Q]) P post b = Some (g, rest) ->
  g <> "" /\ Url.all_chars P g = true
  /\ exists x q after, Q q = true /\ b = x +:+ String q (g +:+ after).
Proof.
  intros Hinit. unfold Regex.group1. rewrite pattern_snoc.
  destruct (pattern init b) as [r0|] eqn:E0; [|discriminate].
  destruct (Regex.one Q r0) as [r|] eqn:E1; [|discriminate].
  destruct (Re.many1 P r) as [[g' r']|] eqn:E2; [|discriminate].
  destruct (pattern post r') as [rest'|]; [|discriminate].
  intros [= <- <-].
  apply many1_spec in E2 as (Hne & Ha & -> & _).
  apply one_spec in E1 as (q & Hq & ->).
  destruct (pattern_trims init Hinit b _ E0) as [x ->].
  split; [exact Hne|]. split; [exact Ha|]. now exists x, q, r'.
Qed.

Lemma group1_literal_first (l : string) (parts : list (string -> option string))
  (P : ascii -> bool) (post : list (string -> option string)) (b : string) :
  Regex.prefix_i l b = false ->
  Regex.group1 (Regex.lit_i l :: parts) P post b = None.
Proof.
  intros Hl. unfold Regex.group1. rewrite pattern_cons. unfold Regex.lit_i.
  now rewrite Hl.
Qed.

Lemma lower_app (a b : string) : Py.lower (a +:+ b) = Py.lower a +:+ Py.lower b.
Proof.
  induction a as [|c a IH]; [reflexivity|].
  rewrite app_cons_s. cbn [Py.lower]. now rewrite app_cons_s, IH.
Qed.

Lemma prefix_i_lower (l s : string) :
  Regex.prefix_i l s = true -> exists y, Py.lower s = Py.lower l +:+ y.
Proof.
  revert s. induction l as [|a l IH]; intros s H.
  - now exists (Py.lower s).
  - destruct s as [|b s]; [discriminate|]. cbn [Regex.prefix_i] in H.
    apply andb_true_iff in H as [Hc H]. apply Ascii.eqb_eq in Hc.
    destruct (IH s H) as [y Hy]. exists y. cbn [Py.lower].
    now rewrite app_cons_s, Hc, Hy.
Qed.

End Parts.

(** *** The next pagination token *)

Section NextToken.

Lemma keep_tokens_elem (toks acc : list string) (t : string) :
  t ∈ fold_left
        (fun tokens_found token =>
           if keeps_token tokens_found token then tokens_found ++ [token]
           else tokens_found)
        toks acc ->
  t ∈ acc \/ (t ∈ toks /\ t <> "" /\ t <> "null").
Proof.
  revert acc. induction toks as [|x toks IH]; intros acc Hin; [now left|].
  cbn [fold_left] in Hin. destruct (keeps_token acc x) eqn:Hk.
  - apply IH in Hin as [Hin|(Hin & Hne)].
    + apply elem_of_app in Hin as [Hin|Hin]; [now left|].
      apply list_elem_of_singleton in Hin. subst x. right.
      unfold keeps_token in Hk. rewrite !andb_true_iff, !negb_true_iff in Hk.
      destruct Hk as [[H1 H2] _]. apply String.eqb_neq in H1, H2.
      split; [left | now split].
    + right. split; [now right | exact Hne].
  - apply IH in Hin as [Hin|(Hin & Hne)]; [now left|].
    right. split; [now right | exact Hne].
Qed.

Lemma find_tokens_elem (html t : string) :
  t ∈ find_tokens html ->
  t <> "" /\ t <> "null"
  /\ exists p, p ∈ token_patterns /\ t ∈ Re.findall p html.
Proof.
  unfold find_tokens.
  assert (Hgen : forall ps acc,
             t ∈ fold_left
                   (fun tokens_found p =>
                      fold_left
                        (fun tokens_found token =>
                           if keeps_token tokens_found token
                           then tokens_found ++ [token] else tokens_found)
                        (Re.findall p html) tokens_found)
                   ps acc ->
             t ∈ acc \/ (t <> "" /\ t <> "null"
                         /\ exists p, p ∈ ps /\ t ∈ Re.findall p html)).
  { induction ps as [|p ps IH]; intros acc Hin; [now left|].
    cbn [fold_left] in Hin. apply IH in Hin as [Hin|(H1 & H2 & q & Hq & Ht)].
    - apply keep_tokens_elem in Hin as [Hin|(Hin & H1 & H2)]; [now left|].
      right. split; [exact H1|]. split; [exact H2|]. exists p. split; [left | exact Hin].
    - right. split; [exact H1|]. split; [exact H2|]. exists q. split; [now right | exact Ht]. }
  intros Hin. apply Hgen in Hin as [Hin|Hin]; [inversion Hin | exact Hin].
Qed.

Lemma not_quote_not_dquote (g : string) :
  Url.all_chars (fun c => negb (is_quote c)) g = true ->
  Url.all_chars (fun c => negb (is_dquote c)) g = true.
Proof.
  induction g as [|c g IH]; [reflexivity|]. cbn [Url.all_chars].
  rewrite !andb_true_iff. intros [Hc Hg]. split; [|auto].
  unfold is_quote, is_dquote in *. now destruct (Ascii.eqb c dquote).
Qed.

Lemma no_dquote_contains (g : string) :
  Url.all_chars (fun c => negb (is_dquote c)) g = true ->
  Py.contains (String dquote "") g = false.
Proof.
  induction g as [|c g IH]; [reflexivity|]. cbn [Url.all_chars].
  rewrite andb_true_iff. intros [Hc Hg]. rewrite contains_char_cons, (IH Hg).
  unfold is_dquote in Hc. now destruct (Ascii.eqb c dquote).
Qed.

Ltac trims_all :=
  repeat first
    [ apply Forall_nil_2
    | apply Forall_cons_2;
      [ first [ apply lit_i_trims | apply star_trims | apply opt_trims | apply one_trims ] | ] ].

(** What a match of one of the four patterns captures. *)
Lemma token_pattern_match (p : string -> option (string * string))
  (b g rest : string) :
  p ∈ token_patterns -> p b = Some (g, rest) ->
  g <> "" /\ Url.all_chars (fun c => negb (is_dquote c)) g = true
  /\ exists x q after, is_quote q = true /\ b = x +:+ String q (g +:+ after).
Proof.
  unfold token_patterns. rewrite !elem_of_cons, elem_of_nil.
  intros [->|[->|[->|[->|[]]]]] Hm.
  - change [ Regex.lit_i (String dquote "paginationToken"); Regex.one is_dquote;
             Regex.star Regex.is_space; Regex.lit_i ":"; Regex.star Regex.is_space;
             Regex.one is_dquote ]
      with ([ Regex.lit_i (String dquote "paginationToken"); Regex.one is_dquote;
              Regex.star Regex.is_space; Regex.lit_i ":"; Regex.star Regex.is_space ]
            ++ [Regex.one is_dquote]) in Hm.
    apply group1_quoted in Hm as (H1 & H2 & x & q & after & Hq & ->); [|trims_all].
    split; [exact H1|]. split; [exact H2|]. exists x, q, after.
    split; [|reflexivity]. unfold is_quote, is_dquote in *. now rewrite Hq.
  - change [ Regex.lit_i "paginationToken"; Regex.opt is_quote;
             Regex.star Regex.is_space; Regex.one is_colon_or_equals;
             Regex.star Regex.is_space; Regex.one is_quote ]
      with ([ Regex.lit_i "paginationToken"; Regex.opt is_quote;
              Regex.star Regex.is_space; Regex.one is_colon_or_equals;
              Regex.star Regex.is_space ] ++ [Regex.one is_quote]) in Hm.
    apply group1_quoted in Hm as (H1 & H2 & x & q & after & Hq & ->); [|trims_all].
    split; [exact H1|]. split; [now apply not_quote_not_dquote|]. now exists x, q, after.
  - change [ Regex.lit_i "data-pagination-token="; Regex.one is_dquote ]
      with ([ Regex.lit_i "data-pagination-token=" ] ++ [Regex.one is_dquote]) in Hm.
    apply group1_quoted in Hm as (H1 & H2 & x & q & after & Hq & ->); [|trims_all].
    split; [exact H1|]. split; [exact H2|]. exists x, q, after.
    split; [|reflexivity]. unfold is_quote, is_dquote in *. now rewrite Hq.
  - change [ Regex.lit_i "pagination-token"; Regex.opt is_quote;
             Regex.star Regex.is_space; Regex.one is_colon_or_equals;
             Regex.star Regex.is_space; Regex.one is_quote ]
      with ([ Regex.lit_i "pagination-token"; Regex.opt is_quote;
              Regex.star Regex.is_space; Regex.one is_colon_or_equals;
              Regex.star Regex.is_space ] ++ [Regex.one is_quote]) in Hm.
    apply group1_quoted in Hm as (H1 & H2 & x & q & after & Hq & ->); [|trims_all].
    split; [exact H1|]. split; [now apply not_quote_not_dquote|]. now exists x, q, after.
Qed.

(** Each of the four patterns begins with a literal that contains
    [paginationtoken] or [pagination-token] in lower case. *)
Lemma token_pattern_marker (p : string -> option (string * string))
  (b g rest : string) :
  p ∈ token_patterns -> p b = Some (g, rest) ->
  Py.contains "paginationtoken" (Py.lower b) = true
  \/ Py.contains "pagination-token" (Py.lower b) = true.
Proof.
  assert (Hlit : forall l parts P post pre post',
             Py.lower l = pre +:+ post' ->
             Regex.group1 (Regex.lit_i l :: parts) P post b = Some (g, rest) ->
             exists y, Py.lower b = pre +:+ post' +:+ y).
  { intros l parts P post pre post' Hl Hm.
    destruct (Regex.prefix_i l b) eqn:Hp.
    - apply prefix_i_lower in Hp as [y Hy]. exists y.
      now rewrite Hy, Hl, app_assoc_s.
    - rewrite group1_literal_first in Hm by exact Hp. discriminate. }
  unfold token_patterns. rewrite !elem_of_cons, elem_of_nil.
  intros [->|[->|[->|[->|[]]]]] Hm.
  - left. apply (Hlit _ _ _ _ (String dquote "") "paginationtoken") in Hm as [y Hy];
      [|reflexivity].
    apply contains_spec. exists (String dquote ""), y. exact Hy.
  - left. apply (Hlit _ _ _ _ "" "paginationtoken") in Hm as [y Hy]; [|reflexivity].
    apply contains_spec. exists "", y. exact Hy.
  - right. apply (Hlit _ _ _ _ "data-" "pagination-token=") in Hm as [y Hy];
      [|reflexivity].
    apply contains_spec. exists "data-", ("=" +:+ y). rewrite Hy. reflexivity.
  - right. apply (Hlit _ _ _ _ "" "pagination-token") in Hm as [y Hy]; [|reflexivity].
    apply contains_spec. exists "", y. exact Hy.
Qed.

Lemma contains_in_suffix (sub a b : string) :
  Py.contains sub b = true -> Py.contains sub (a +:+ b) = true.
Proof.
  intros H. apply contains_spec in H as (x & y & ->). apply contains_spec.
  exists (a +:+ x), y. now rewrite !app_assoc_s.
Qed.

(** The token that is returned is one of those found, an offset token if
    there is one. *)
Lemma extract_next_token_choice (html : string) :
  match extract_next_token_from_html html with
  | Some t =>
      t ∈ find_tokens html
      /\ (has_hash t = false ->
          forall t', t' ∈ find_tokens html -> has_hash t' = false)
  | None => find_tokens html = []
  end.
Proof.
  unfold extract_next_token_from_html. cbv zeta.
  set (toks := find_tokens html).
  destruct (List.filter has_hash toks) as [|t ts] eqn:Eo.
  - assert (Hall : forall t', t' ∈ toks -> has_hash t' = false).
    { intros t' Hin. destruct (has_hash t') eqn:Eh; [|reflexivity].
      assert (Hf : In t' (List.filter has_hash toks)).
      { apply filter_In. split; [now apply list_elem_of_In | exact Eh]. }
      rewrite Eo in Hf. destruct Hf. }
    destruct (List.filter (fun t => negb (has_hash t)) toks) as [|t ts] eqn:Ea.
    + destruct toks as [|x toks']; [reflexivity|]. exfalso.
      assert (Hf : In x (List.filter (fun t => negb (has_hash t)) (x :: toks'))).
      { apply filter_In. split; [now left|]. rewrite (Hall x); [reflexivity | left]. }
      rewrite Ea in Hf. destruct Hf.
    + assert (Hf : In t (List.filter (fun t => negb (has_hash t)) toks))
        by (rewrite Ea; now left).
      apply filter_In in Hf as [Hin _]. split; [now apply list_elem_of_In | auto].
  - assert (Hf : In t (List.filter has_hash toks)) by (rewrite Eo; now left).
    apply filter_In in Hf as [Hin Hh]. split; [now apply list_elem_of_In|].
    congruence.
Qed.

End NextToken.

(** X5.  A token that [extract_next_token_from_html] returns is not empty,
    is not the word [null], contains no double quote, stands in the page
    right after a quote, and is never classified as the first page by
    [_normalize_pagination_token]. *)
Theorem next_token_shape (html t : string) :
  extract_next_token_from_html html = Some t ->
  t <> "" /\ t <> "null"
  /\ Py.contains (String dquote "") t = false
  /\ (exists before q after,
        is_quote q = true /\ html = before +:+ String q (t +:+ after))
  /\ _normalize_pagination_token (Some t) <> Api None.
Proof.
  intros He. pose proof (extract_next_token_choice html) as Hc. rewrite He in Hc.
  destruct Hc as [Hin _].
  apply find_tokens_elem in Hin as (H1 & H2 & p & Hp & Hf).
  apply findall_from_elem in Hf as (a & b & rest & -> & Hm).
  apply (token_pattern_match p b t rest Hp) in Hm
    as (_ & Hq & x & q & after & Hqq & ->).
  split; [exact H1|]. split; [exact H2|]. split; [now apply no_dquote_contains|].
  split.
  - exists (a +:+ x), q, after. split; [exact Hqq | now rewrite app_assoc_s].
  - destruct t as [|c t]; [congruence|]. cbn [_normalize_pagination_token].
    destruct (Py.contains "#" (String c t)); [|discriminate].
    destruct (Py.int _); discriminate.
Qed.

Lemma next_token_shape_witness :
  extract_next_token_from_html json_offset_page = Some "24#12"
  /\ "24#12" <> ""
  /\ _normalize_pagination_token (Some "24#12") <> Api None.
Proof.
  assert (He : extract_next_token_from_html json_offset_page = Some "24#12")
    by (vm_compute; reflexivity).
  destruct (next_token_shape json_offset_page "24#12" He) as (H1 & _ & _ & _ & H5).
  split; [exact He|]. split; [exact H1 | exact H5].
Defined.

(** X6.  [extract_next_token_from_html] returns nothing exactly when no
    token was found; the token it returns is one of those found, and it has
    no [#] only when none of the found tokens has one (offset tokens come
    first); and a page that contains neither [paginationtoken] nor
    [pagination-token], in any case of the letters, has no token. *)
Theorem next_token_prefers_offset (html : string) :
  (extract_next_token_from_html html = None <-> find_tokens html = [])
  /\ (forall t, extract_next_token_from_html html = Some t ->
        t ∈ find_tokens html
        /\ (has_hash t = false ->
            forall t', t' ∈ find_tokens html -> has_hash t' = false))
  /\ (Py.contains "paginationtoken" (Py.lower html) = false ->
      Py.contains "pagination-token" (Py.lower html) = false ->
      extract_next_token_from_html html = None).
Proof.
  pose proof (extract_next_token_choice html) as Hc.
  assert (Hnone : find_tokens html = [] -> extract_next_token_from_html html = None).
  { intros E. unfold extract_next_token_from_html. now rewrite E. }
  split; [|split].
  - split; [|exact Hnone]. intros E. now rewrite E in Hc.
  - intros t E. now rewrite E in Hc.
  - intros Hm1 Hm2. apply Hnone.
    destruct (find_tokens html) as [|t toks] eqn:Et; [reflexivity|]. exfalso.
    assert (Hin : t ∈ find_tokens html) by (rewrite Et; left).
    apply find_tokens_elem in Hin as (_ & _ & p & Hp & Hf).
    apply findall_from_elem in Hf as (a & b & rest & Hh & Hm).
    apply (token_pattern_marker p b t rest Hp) in Hm.
    rewrite Hh, lower_app in Hm1, Hm2.
    destruct Hm as [Hm|Hm]; apply (contains_in_suffix _ (Py.lower a)) in Hm; congruence.
Qed.
(** *** Proxies *)

Section Proxies.

Lemma get_proxy_nonempty (proxies : list Proxy) (i : nat) (proxy : Proxy) :
  proxies !! (i mod length proxies) = Some proxy ->
  _get_proxy proxies i = (proxy_mapping proxy, S i).
Proof.
  intros Hp. unfold _get_proxy. destruct proxies as [|p ps]; [discriminate|].
  now rewrite Hp.
Qed.

Lemma get_proxy_index (proxies : list Proxy) (i : nat) :
  proxies <> [] -> snd (_get_proxy proxies i) = S i.
Proof.
  intros Hne. unfold _get_proxy. destruct proxies as [|p ps]; [congruence|].
  now destruct ((p :: ps) !! (i mod length (p :: ps))).
Qed.

(** From a multiple of the number of proxies on, successive calls serve
    the proxies in the order of the list. *)
Lemma proxy_rounds_from (proxies : list Proxy) (k : nat) :
  forall count i,
    i + count <= length proxies ->
    proxy_rounds proxies count (k * length proxies + i)
    = map proxy_mapping (take count (drop i proxies)).
Proof.
  induction count as [|count IH]; intros i Hi; [reflexivity|].
  cbn [proxy_rounds].
  assert (Hlt : i < length proxies) by lia.
  destruct (lookup_lt_is_Some_2 proxies i Hlt) as [proxy Hp].
  assert (Hmod : (k * length proxies + i) mod length proxies = i).
  { rewrite Nat.add_comm, Nat.Div0.mod_add. now apply Nat.mod_small. }
  rewrite (get_proxy_nonempty proxies _ proxy) by now rewrite Hmod.
  replace (S (k * length proxies + i)) with (k * length proxies + S i) by lia.
  rewrite IH by lia. rewrite (drop_S proxies proxy i Hp). reflexivity.
Qed.

Lemma proxy_str_mapping (s : string) :
  exists http https,
    proxy_mapping (ProxyStr s) = Some (both_schemes http https)
    /\ Py.contains "://" http = true /\ Py.contains "://" https = true.
Proof.
  cbn [proxy_mapping].
  destruct (Py.startswith "http://" s || Py.startswith "https://" s) eqn:Hs.
  - exists s, s. split; [reflexivity|].
    assert (Hc : Py.contains "://" s = true).
    { apply orb_true_iff in Hs as [Hs|Hs]; apply prefix_spec in Hs as [b ->];
        apply contains_spec.
      - now exists "http", b.
      - now exists "https", b. }
    now split.
  - destruct (Py.contains "://" s) eqn:Hc; cbn [negb].
    + exists s, s. now repeat split.
    + exists ("http://" +:+ s), ("https://" +:+ s). split; [reflexivity|].
      split; apply contains_spec; [now exists "http", s | now exists "https", s].
Qed.

End Proxies.

(** X7.  [_get_proxy] rotates through the proxies: without proxies it
    returns nothing and leaves the index as it is; otherwise every call
    moves the index by one, a call [len(proxies)] calls later serves the
    same proxy, and [len(proxies)] calls in a row from a multiple of it serve
    every proxy once, in the order of the list; and a proxy given as a
    string always yields an [http] and an [https] entry, both with a
    scheme. *)
Theorem get_proxy_round_robin (proxies : list Proxy) :
  (forall i, _get_proxy [] i = (None, i))
  /\ (proxies <> [] -> forall i, snd (_get_proxy proxies i) = S i)
  /\ (forall i, fst (_get_proxy proxies (i + length proxies))
                = fst (_get_proxy proxies i))
  /\ (forall k, proxy_rounds proxies (length proxies) (k * length proxies)
                = map proxy_mapping proxies)
  /\ (forall s, exists http https,
        proxy_mapping (ProxyStr s) = Some (both_schemes http https)
        /\ Py.contains "://" http = true /\ Py.contains "://" https = true).
Proof.
  split; [reflexivity|]. split; [intros Hne i; now apply get_proxy_index|].
  split; [|split].
  - intros i. unfold _get_proxy. destruct proxies as [|p ps]; [reflexivity|].
    replace ((i + length (p :: ps)) mod length (p :: ps)) with (i mod length (p :: ps)).
    + now destruct ((p :: ps) !! (i mod length (p :: ps))).
    + replace (i + length (p :: ps)) with (i + 1 * length (p :: ps)) by lia.
      now rewrite Nat.Div0.mod_add.
  - intros k.
    replace (k * length proxies) with (k * length proxies + 0) by lia.
    rewrite proxy_rounds_from by lia. now rewrite drop_0, firstn_all.
  - apply proxy_str_mapping.
Qed.

(** *** Requests *)

Section RequestFacts.

Context `{Session}.

Lemma get_proxy_fields (c : Client) :
  let c' := snd (get_proxy c) in
  sent c' = sent c /\ slept c' = slept c /\ proxies c' = proxies c
  /\ current_proxy_index c <= current_proxy_index c' <= S (current_proxy_index c).
Proof.
  unfold get_proxy, _get_proxy. destruct (proxies c) as [|p ps] eqn:Ep.
  - cbn. repeat split; lia.
  - destruct ((p :: ps) !! (current_proxy_index c mod length (p :: ps)));
      cbn; repeat split; lia.
Qed.

Lemma total_app (a b : list Z) : total (a ++ b) = (total a + total b)%Z.
Proof.
  unfold total. induction a as [|x a IH]; cbn [app fold_right]; [reflexivity|].
  rewrite IH. lia.
Qed.

(** What the retry loop does from [attempt] on. *)
Lemma attempts_spec (remaining : nat) :
  forall attempt method url kwargs proxy c out c',
    attempt + remaining = 3 ->
    attempts remaining attempt method url kwargs proxy c = (out, c') ->
    exists reqs naps,
      sent c' = sent c ++ reqs /\ slept c' = slept c ++ naps
      /\ length reqs <= remaining
      /\ Forall (fun e => verb_of method = Some (fst (fst e)) /\ snd (fst e) = url) reqs
      /\ Forall (fun z => (1 <= z)%Z) naps
      /\ (total naps <= (3 - Z.of_nat attempt) * (Z.of_nat attempt + 4))%Z
      /\ current_proxy_index c' <= current_proxy_index c + (2 - attempt)
      /\ (forall response, out = Return (Some response) ->
            status_code response = 200%Z /\ reqs <> [])
      /\ (verb_of method = None -> out = Return None /\ reqs = [] /\ naps = []).
Proof.
  induction remaining as [|remaining IH];
    intros attempt method url kwargs proxy c out c' Hsum.
  - cbn [attempts]. intros [= <- <-]. exists [], []. rewrite !app_nil_r.
    split; [reflexivity|]. split; [reflexivity|]. split; [cbn; lia|].
    split; [constructor|]. split; [constructor|].
    split; [unfold total; cbn [fold_right]; nia|]. split; [lia|].
    split; [discriminate|]. intros _. now repeat split.
  - cbn [attempts]. destruct (verb_of method) as [verb|] eqn:Hv.
    2:{ intros [= <- <-]. exists [], []. rewrite !app_nil_r.
        split; [reflexivity|]. split; [reflexivity|]. split; [cbn; lia|].
        split; [constructor|]. split; [constructor|].
        split; [unfold total; cbn [fold_right]; nia|]. split; [lia|].
        split; [discriminate|]. intros _. now repeat split. }
    set (kwargs' := {| params := params kwargs; cookies := cookies kwargs;
                       timeout := Some (default 15%Z (timeout kwargs)) |}).
    unfold request.
    destruct (send verb url kwargs' proxy (net c)) as [reply n].
    set (c1 := {| proxies := proxies c; current_proxy_index := current_proxy_index c;
                  net := n; sent := sent c ++ [(verb, url, proxy)];
                  slept := slept c |}).
    assert (Hdone : forall o,
               (forall response, o = Return (Some response) ->
                                 status_code response = 200%Z) ->
               exists reqs naps,
                 sent c1 = sent c ++ reqs /\ slept c1 = slept c ++ naps
                 /\ length reqs <= S remaining
                 /\ Forall (fun e => Some verb = Some (fst (fst e)) /\ snd (fst e) = url) reqs
                 /\ Forall (fun z => (1 <= z)%Z) naps
                 /\ (total naps <= (3 - Z.of_nat attempt) * (Z.of_nat attempt + 4))%Z
                 /\ current_proxy_index c1 <= current_proxy_index c + (2 - attempt)
                 /\ (forall response, o = Return (Some response) ->
                       status_code response = 200%Z /\ reqs <> [])
                 /\ (Some verb = None -> o = Return None /\ reqs = [] /\ naps = [])).
    { intros o Ho. exists [(verb, url, proxy)], [].
      cbn [sent slept c1 current_proxy_index]. rewrite app_nil_r.
      split; [reflexivity|]. split; [reflexivity|]. split; [cbn; lia|].
      split; [constructor; [now split | constructor]|]. split; [constructor|].
      split; [unfold total; cbn [fold_right]; nia|]. split; [lia|].
      split; [|discriminate].
      intros response Hr. split; [now apply Ho | discriminate]. }
    assert (Hmore : forall c2 kw prx o c3 nap,
               sent c2 = sent c1 -> slept c2 = slept c1 ++ nap ->
               Forall (fun z => (1 <= z)%Z) nap ->
               (total nap <= 2 * (Z.of_nat attempt + 1))%Z ->
               current_proxy_index c2 + (2 - S attempt)
               <= current_proxy_index c + (2 - attempt) ->
               attempts remaining (S attempt) method url kw prx c2 = (o, c3) ->
               exists reqs naps,
                 sent c3 = sent c ++ reqs /\ slept c3 = slept c ++ naps
                 /\ length reqs <= S remaining
                 /\ Forall (fun e => Some verb = Some (fst (fst e)) /\ snd (fst e) = url) reqs
                 /\ Forall (fun z => (1 <= z)%Z) naps
                 /\ (total naps <= (3 - Z.of_nat attempt) * (Z.of_nat attempt + 4))%Z
                 /\ current_proxy_index c3 <= current_proxy_index c + (2 - attempt)
                 /\ (forall response, o = Return (Some response) ->
                       status_code response = 200%Z /\ reqs <> [])
                 /\ (Some verb = None -> o = Return None /\ reqs = [] /\ naps = [])).
    { intros c2 kw prx o c3 nap Hs Hn Hnap Htot Hidx Ha.
      apply IH in Ha as (reqs & naps & E1 & E2 & L & F1 & F2 & T & I & R & _); [|lia].
      exists ((verb, url, proxy) :: reqs), (nap ++ naps).
      rewrite E1, E2, Hs, Hn. cbn [sent slept c1]. rewrite <- !app_assoc.
      split; [reflexivity|]. split; [reflexivity|]. split; [cbn; lia|].
      split.
      { constructor; [now split|]. rewrite Hv in F1. exact F1. }
      split; [now apply Forall_app|].
      split; [rewrite total_app; nia|].
      split; [lia|].
      split; [|discriminate].
      intros response Hr. destruct (R response Hr) as [R1 _]. split; [exact R1 | discriminate]. }
    destruct reply as [response| | |].
    + destruct (Z.eqb_spec (status_code response) 200) as [H200|Hn200].
      * intros [= <- <-]. apply Hdone. intros r [= <-]. exact H200.
      * destruct ((status_code response =? 429)%Z || (status_code response =? 503)%Z).
        -- apply (Hmore _ _ _ _ _ [((Z.of_nat attempt + 1) * 2)%Z]);
             [reflexivity | reflexivity | constructor; [lia | constructor]
             | cbn; lia | cbn; lia].
        -- intros [= <- <-]. apply Hdone. discriminate.
    + destruct (Nat.ltb_spec attempt (max_retries - 1)) as [Hlt|Hge].
      * destruct (get_proxy c1) as [proxy' c2] eqn:Eg.
        pose proof (get_proxy_fields c1) as Hf. rewrite Eg in Hf. cbn [snd] in Hf.
        destruct Hf as (F1 & F2 & _ & F4).
        apply (Hmore _ _ _ _ _ []);
          [exact F1 | now rewrite app_nil_r | constructor | cbn; lia |].
        unfold max_retries in Hlt. cbn [current_proxy_index c1] in F4. lia.
      * intros [= <- <-]. apply Hdone. discriminate.
    + destruct (Nat.ltb_spec attempt (max_retries - 1)) as [Hlt|Hge].
      * apply (Hmore _ _ _ _ _ [1%Z]);
          [reflexivity | reflexivity | constructor; [lia | constructor]
          | cbn; lia | cbn; lia].
      * intros [= <- <-]. apply Hdone. discriminate.
    + intros [= <- <-]. apply Hdone. discriminate.
Qed.

(** X8.  [_make_request] sends at most three requests, each with the verb
    and the url it was given; sleeps at most twelve seconds in all; moves
    the proxy index by at most three; returns a response only when its
    status is 200 (and then a request was sent); and for a method other
    than GET and POST it returns nothing and sends nothing. *)
Theorem make_request_bounded (method url : string) (kwargs : Kwargs) (c : Client) :
  let out := fst (_make_request method url kwargs c) in
  let c' := snd (_make_request method url kwargs c) in
  sent c' = sent c ++ new_sent c c'
  /\ length (new_sent c c') <= 3
  /\ Forall (fun e => verb_of method = Some (fst (fst e)) /\ snd (fst e) = url)
            (new_sent c c')
  /\ slept c' = slept c ++ new_slept c c'
  /\ (0 <= total (new_slept c c') <= 12)%Z
  /\ current_proxy_index c <= current_proxy_index c' <= current_proxy_index c + 3
  /\ (forall response, out = Return (Some response) ->
        status_code response = 200%Z /\ new_sent c c' <> [])
  /\ (verb_of method = None ->
      out = Return None /\ new_sent c c' = [] /\ new_slept c c' = []).
Proof.
  cbv zeta. unfold _make_request.
  pose proof (get_proxy_fields c) as Hf.
  destruct (get_proxy c) as [proxy c0]. cbn [snd] in Hf.
  destruct Hf as (F1 & F2 & _ & F4).
  destruct (attempts max_retries 0 method url kwargs proxy c0) as [out c'] eqn:Ea.
  pose proof Ea as Ea'.
  apply attempts_spec in Ea as (reqs & naps & E1 & E2 & L & G1 & G2 & T & I & R & U);
    [|reflexivity].
  cbn [fst snd]. rewrite F1 in E1. rewrite F2 in E2.
  assert (Hs : new_sent c c' = reqs)
    by (unfold new_sent; now rewrite E1, drop_app_length).
  assert (Hn : new_slept c c' = naps)
    by (unfold new_slept; now rewrite E2, drop_app_length).
  rewrite Hs, Hn.
  assert (Hpos : (0 <= total naps)%Z).
  { clear -G2. induction G2 as [|z naps Hz _ IH]; [cbn; lia|].
    cbn [total fold_right] in *. unfold total in IH. lia. }
  assert (Hmono : current_proxy_index c0 <= current_proxy_index c').
  { clear -Ea'. revert Ea'. generalize 0 at 1. generalize max_retries. intros remaining.
    revert kwargs proxy c0.
    induction remaining as [|remaining IH]; intros kwargs proxy c0 attempt.
    - now intros [= <- <-].
    - cbn [attempts]. destruct (verb_of method) as [verb|]; [|now intros [= <- <-]].
      unfold request.
      destruct (send verb url _ proxy (net c0)) as [reply n].
      destruct reply as [response| | |].
      + destruct (status_code response =? 200)%Z; [now intros [= <- <-]|].
        destruct ((status_code response =? 429)%Z || (status_code response =? 503)%Z);
          [|now intros [= <- <-]].
        intros Ha. apply IH in Ha. exact Ha.
      + destruct (attempt <? max_retries - 1); [|now intros [= <- <-]].
        match goal with |- context [get_proxy ?x] =>
          pose proof (get_proxy_fields x) as Hg; destruct (get_proxy x) as [p2 c2] end.
        cbn [snd] in Hg. destruct Hg as (_ & _ & _ & Hg).
        intros Ha. apply IH in Ha. cbn [current_proxy_index] in Hg. lia.
      + destruct (attempt <? max_retries - 1); [|now intros [= <- <-]].
        intros Ha. apply IH in Ha. exact Ha.
      + now intros [= <- <-]. }
  unfold max_retries in L. cbn in T, I.
  split; [exact E1|]. split; [exact L|]. split; [exact G1|]. split; [exact E2|].
  split; [lia|]. split; [lia|]. split; [exact R | exact U].
Qed.

End RequestFacts.
(** *** Deduplication of the assets of one page *)

Section DedupFacts.

Context `{Library}.

Lemma first_of_each_renditions (identity : string -> string) (urls : list string) :
  first_renditions identity (Complete.first_of_each identity urls) urls.
Proof.
  rewrite first_of_each_firsts. split; [apply firsts_sublist|].
  split; [apply firsts_NoDup|]. split; [apply firsts_covers | apply firsts_first].
Qed.

Lemma first_of_each_idempotent (identity : string -> string) (urls : list string) :
  Complete.first_of_each identity (Complete.first_of_each identity urls)
  = Complete.first_of_each identity urls.
Proof. rewrite !first_of_each_firsts. apply firsts_idempotent. Qed.

Lemma groups_append_new (key url : string) (groups : list (string * list string)) :
  key ∉ map fst groups ->
  groups_append key url groups = groups ++ [(key, [url])].
Proof.
  induction groups as [|[k us] groups IH]; [reflexivity|].
  cbn [map fst groups_append]. intros Hk. rewrite not_elem_of_cons in Hk.
  destruct Hk as [Hne Hk]. destruct (String.eqb_spec k key) as [->|_]; [congruence|].
  now rewrite IH.
Qed.

(** Urls with pairwise different identities form groups of one. *)
Lemma group_by_distinct (identity : string -> string) (urls : list string) :
  NoDup (map identity urls) ->
  Single.group_by identity urls = map (fun u => (identity u, [u])) urls.
Proof.
  unfold Single.group_by. induction urls as [|x urls IH] using rev_ind; [reflexivity|].
  rewrite map_app, NoDup_app. intros (Hnd & Hx & _).
  rewrite fold_left_app. cbn [fold_left]. rewrite (IH Hnd), map_app. cbn [map].
  apply groups_append_new. rewrite map_map. cbn [fst].
  intros Hin. apply (Hx _ Hin). cbn. left.
Qed.

End DedupFacts.

(** X9.  [_deduplicate_assets] keeps, of the images, of the videos and of
    the posters, the first url of every identity ([_normalize_url] for
    images and posters, [_get_video_base_path] for videos): the result is a
    sublist, its identities are pairwise different, every identity of the
    input is represented by the first url that has it; and deduplicating
    again changes nothing. *)
Theorem deduplicate_assets_keeps_first_renditions `{Library}
  (assets : Assets) (asset_type : string) :
  let kept := Complete._deduplicate_assets assets asset_type in
  first_renditions _normalize_url (images kept) (images assets)
  /\ first_renditions _get_video_base_path (videos kept) (videos assets)
  /\ first_renditions _normalize_url (posters kept) (posters assets)
  /\ Complete._deduplicate_assets kept asset_type = kept.
Proof.
  cbv zeta. unfold Complete._deduplicate_assets. cbn [images videos posters].
  repeat split; try apply first_of_each_renditions.
  now rewrite !first_of_each_idempotent.
Qed.

(** X10.  After [_deduplicate_assets] the grouping of
    [_download_ad_assets_with_dedup] finds one url per video: every group
    holds exactly the one url that was kept, so the choice of the best
    rendition has nothing to choose from and falls on that url (or raises
    with [int]). *)
Theorem deduplicated_videos_single_rendition `{Library}
  (assets : Assets) (asset_type : string) :
  let kept := Complete._deduplicate_assets assets asset_type in
  group_videos (videos kept)
  = map (fun u => (_get_video_base_path u, [u])) (videos kept)
  /\ (forall base_path video_urls,
        (base_path, video_urls) ∈ group_videos (videos kept) ->
        exists u, video_urls = [u] /\ u ∈ videos assets
                  /\ (best_url video_urls = Some u
                      \/ (quality u = None /\ best_url video_urls = None))).
Proof.
  cbv zeta.
  destruct (first_of_each_renditions _get_video_base_path (videos assets))
    as (Hsub & Hnd & _).
  assert (E : group_videos (videos (Complete._deduplicate_assets assets asset_type))
              = map (fun u => (_get_video_base_path u, [u]))
                    (videos (Complete._deduplicate_assets assets asset_type))).
  { apply (group_by_distinct _get_video_base_path). exact Hnd. }
  split; [exact E|]. intros base_path video_urls Hin. rewrite E in Hin.
  apply list_elem_of_fmap in Hin as (u & [= -> ->] & Hu). exists u.
  split; [reflexivity|]. split; [eapply elem_of_sublist; eassumption|].
  cbn [best_url]. destruct (quality u); [now left | now right].
Qed.

(** *** Detail links *)

Section DetailLinks.

Lemma search_at_match (m : string -> option (string * string)) (s g r : string) :
  m s = Some (g, r) -> Regex.search m s = Some g.
Proof. intros Hm. destruct s; cbn [Regex.search]; now rewrite Hm. Qed.

Lemma startswith_digit (l : string) (c : ascii) (s : string) (x : ascii) :
  Py.is_digit c = true -> Py.is_digit x = false ->
  Py.startswith (String x l) (String c s) = false.
Proof.
  intros Hc Hx. unfold Py.startswith. cbn [String.prefix].
  destruct (ascii_dec x c) as [->|_]; [congruence | reflexivity].
Qed.

Lemma build_full_url_digits (ad_id : string) :
  digit_id ad_id ->
  Complete._build_full_url ad_id
  = "https://www.linkedin.com" +:+ ("/ad-library/detail/" +:+ ad_id).
Proof.
  intros [Hne Hd]. destruct ad_id as [|c i]; [congruence|].
  cbn [Url.all_chars] in Hd. apply andb_true_iff in Hd as [Hc _].
  unfold Complete._build_full_url.
  rewrite (startswith_digit "ttp" c i "h" Hc eq_refl).
  rewrite (startswith_digit "" c i "/" Hc eq_refl).
  reflexivity.
Qed.

End DetailLinks.

(** X11.  [_build_full_url] always returns a url that starts with [http];
    it leaves such a url as it is, so applying it twice is applying it
    once; a link that starts with [/] is put after the host, any other
    after the detail prefix. *)
Theorem build_full_url_absolute (link : string) :
  Py.startswith "http" (Complete._build_full_url link) = true
  /\ Complete._build_full_url (Complete._build_full_url link)
     = Complete._build_full_url link
  /\ (Py.startswith "http" link = true -> Complete._build_full_url link = link)
  /\ (Py.startswith "http" link = false -> Py.startswith "/" link = true ->
      Complete._build_full_url link = "https://www.linkedin.com" +:+ link)
  /\ (Py.startswith "http" link = false -> Py.startswith "/" link = false ->
      Complete._build_full_url link
      = "https://www.linkedin.com/ad-library/detail/" +:+ link).
Proof.
  assert (Hhttp : Py.startswith "http" (Complete._build_full_url link) = true).
  { unfold Complete._build_full_url.
    destruct (Py.startswith "http" link) eqn:E1; [exact E1|].
    destruct (Py.startswith "/" link); reflexivity. }
  split; [exact Hhttp|]. split.
  - unfold Complete._build_full_url at 1. now rewrite Hhttp.
  - unfold Complete._build_full_url. split; [now intros ->|].
    split; intros -> ->; reflexivity.
Qed.

(** X12.  The id of an ad survives the way through the url: for an id of
    decimal digits, [_extract_ad_id_from_link] finds the id in the url that
    [_build_full_url] builds from it; and for a link that starts with [http]
    or with [/], the id found in the full url is the id found in the
    link. *)
Theorem detail_link_id_round_trip :
  (forall ad_id, digit_id ad_id ->
     Complete._extract_ad_id_from_link (Complete._build_full_url ad_id) = Some ad_id)
  /\ (forall link,
        Py.startswith "http" link = true \/ Py.startswith "/" link = true ->
        Complete._extract_ad_id_from_link (Complete._build_full_url link)
        = Complete._extract_ad_id_from_link link).
Proof.
  split.
  - intros ad_id Hd. rewrite (build_full_url_digits ad_id Hd).
    unfold Complete._extract_ad_id_from_link.
    rewrite (search_clear "/ad-library/detail/" detail_link detail_link_literal)
      by reflexivity.
    apply (search_at_match _ _ _ "").
    apply detail_link_spec. split; [exact Hd|]. now rewrite app_nil_r_s.
  - intros link Hl. unfold Complete._build_full_url.
    destruct (Py.startswith "http" link) eqn:E1; [reflexivity|].
    destruct Hl as [Hl|Hl]; [discriminate|]. rewrite Hl.
    unfold Complete._extract_ad_id_from_link, Complete.detail_base_url.
    now rewrite (search_clear "/ad-library/detail/" detail_link detail_link_literal)
      by reflexivity.
Qed.
(** *** The detail links of the search results *)

Section DetailLinkFacts.

Lemma search_elem (m : string -> option (string * string)) (s g : string) :
  Regex.search m s = Some g -> exists a b r, s = a +:+ b /\ m b = Some (g, r).
Proof.
  induction s as [|c s IH]; cbn [Regex.search].
  - destruct (m "") as [[g0 r]|] eqn:Hm; [|discriminate].
    intros [= <-]. now exists "", "", r.
  - destruct (m (String c s)) as [[g0 r]|] eqn:Hm.
    + intros [= <-]. now exists "", (String c s), r.
    + intros Hs. destruct (IH Hs) as (a & b & r & -> & Hb).
      exists (String c a), b, r. now rewrite app_cons_s.
Qed.

Lemma extract_ad_id_digits (link ad_id : string) :
  Complete._extract_ad_id_from_link link = Some ad_id -> digit_id ad_id.
Proof.
  intros Hs. apply search_elem in Hs as (a & b & r & _ & Hm).
  now apply detail_link_spec in Hm.
Qed.

Lemma first_detail_link_spec (links : list Value) (ad_id link : string) :
  Complete.first_detail_link links = Some (ad_id, link) ->
  VStr link ∈ links
  /\ Complete._extract_ad_id_from_link link = Some ad_id.
Proof.
  induction links as [|v links IH]; [discriminate|].
  assert (Hrest : Complete.first_detail_link links = Some (ad_id, link) ->
                  VStr link ∈ v :: links
                  /\ Complete._extract_ad_id_from_link link = Some ad_id).
  { intros Hr. destruct (IH Hr) as [H1 H2]. split; [now right | exact H2]. }
  destruct v as [l| | |]; cbn [Complete.first_detail_link]; try exact Hrest.
  destruct (Py.contains "/ad-library/detail/" l); [|exact Hrest].
  destruct (Complete._extract_ad_id_from_link l) as [[|c i]|] eqn:He; try exact Hrest.
  intros [= <- <-]. split; [left | exact He].
Qed.

Lemma detail_link_of_spec (i : nat) (ad : Value) (entry : Complete.DetailLink) :
  Complete.detail_link_of i ad = Some entry ->
  Complete.index entry = i /\ Complete.original_ad entry = ad
  /\ digit_id (Complete.ad_id entry)
  /\ Complete._extract_ad_id_from_link (Complete.link entry)
     = Some (Complete.ad_id entry)
  /\ exists entries links,
       ad = VDict entries /\ entries !! "links" = Some (VList links)
       /\ VStr (Complete.link entry) ∈ links.
Proof.
  unfold Complete.detail_link_of. destruct ad as [| |entries|]; try discriminate.
  destruct (entries !! "links") as [[| links| |]|] eqn:El; try discriminate.
  destruct (Complete.first_detail_link links) as [[ad_id link]|] eqn:Ef; [|discriminate].
  intros [= <-].
  cbn [Complete.index Complete.ad_id Complete.link Complete.original_ad].
  apply first_detail_link_spec in Ef as [H1 H2].
  split; [reflexivity|]. split; [reflexivity|].
  split; [now apply extract_ad_id_digits in H2|]. split; [exact H2|].
  exists entries, links. now repeat split.
Qed.

Lemma extract_detail_links_from (ads : list Value) :
  Complete.extract_detail_links ads = links_from 0 ads.
Proof.
  unfold Complete.extract_detail_links.
  assert (Hgen : forall i acc,
             snd (fold_left
                    (fun '(i, detail_links) ad =>
                       (S i,
                        match Complete.detail_link_of i ad with
                        | Some entry => detail_links ++ [entry]
                        | None => detail_links
                        end))
                    ads (i, acc))
             = acc ++ links_from i ads).
  { induction ads as [|ad ads IH]; intros i acc; cbn [fold_left links_from].
    - now rewrite app_nil_r.
    - rewrite IH. destruct (Complete.detail_link_of i ad); [|reflexivity].
      now rewrite <- app_assoc. }
  apply (Hgen 0 []).
Qed.

Lemma links_from_elem (ads : list Value) :
  forall i entry, entry ∈ links_from i ads ->
    exists k, Complete.index entry = i + k
              /\ ads !! k = Some (Complete.original_ad entry)
              /\ Complete.detail_link_of (i + k) (Complete.original_ad entry)
                 = Some entry.
Proof.
  induction ads as [|ad ads IH]; intros i entry Hin; [inversion Hin|].
  cbn [links_from] in Hin.
  assert (Hrest : entry ∈ links_from (S i) ads ->
            exists k, Complete.index entry = i + k
                      /\ (ad :: ads) !! k = Some (Complete.original_ad entry)
                      /\ Complete.detail_link_of (i + k) (Complete.original_ad entry)
                         = Some entry).
  { intros Hr. destruct (IH _ _ Hr) as (k & H1 & H2 & H3). exists (S k).
    replace (i + S k) with (S i + k) by lia. now repeat split. }
  destruct (Complete.detail_link_of i ad) as [e|] eqn:Ed; [|now apply Hrest].
  apply elem_of_cons in Hin as [->|Hin]; [|now apply Hrest].
  exists 0. pose proof (detail_link_of_spec _ _ _ Ed) as (H1 & H2 & _).
  rewrite Nat.add_0_r, H2. repeat split; [lia | exact Ed].
Qed.

Lemma links_from_increasing (ads : list Value) :
  forall i a b ea eb,
    a < b -> links_from i ads !! a = Some ea -> links_from i ads !! b = Some eb ->
    Complete.index ea < Complete.index eb.
Proof.
  induction ads as [|ad ads IH]; intros i a b ea eb Hab Ha Hb; [discriminate|].
  cbn [links_from] in Ha, Hb.
  destruct (Complete.detail_link_of i ad) as [e|] eqn:Ed;
    [|now apply (IH (S i) a b)].
  destruct b as [|b]; [lia|]. cbn in Hb.
  destruct a as [|a].
  - injection Ha as <-. apply detail_link_of_spec in Ed as (Hidx & _).
    assert (Hin : eb ∈ links_from (S i) ads)
      by (apply list_elem_of_lookup; now exists b).
    apply links_from_elem in Hin as (k & -> & _). lia.
  - cbn in Ha. apply (IH (S i) a b); [lia | exact Ha | exact Hb].
Qed.

Lemma links_from_length (ads : list Value) :
  forall i, length (links_from i ads) <= length ads.
Proof.
  induction ads as [|ad ads IH]; intros i; [reflexivity|]. cbn [links_from length].
  specialize (IH (S i)). destruct (Complete.detail_link_of i ad); cbn [length]; lia.
Qed.

Lemma links_from_complete (ads : list Value) :
  forall i k ad entry,
    ads !! k = Some ad -> Complete.detail_link_of (i + k) ad = Some entry ->
    entry ∈ links_from i ads.
Proof.
  induction ads as [|a ads IH]; intros i k ad entry Hk Hd; [discriminate|].
  cbn [links_from]. destruct k as [|k].
  - injection Hk as ->. rewrite Nat.add_0_r in Hd. rewrite Hd. left.
  - cbn in Hk. replace (i + S k) with (S i + k) in Hd by lia.
    specialize (IH (S i) k ad entry Hk Hd).
    destruct (Complete.detail_link_of i a); [now right | exact IH].
Qed.

End DetailLinkFacts.

(** X13.  Every entry of [extract_detail_links] points to the ad it was
    made from: its index is the position of that ad, which is a dictionary
    whose [links] list contains the link, and its ad id is the string of
    decimal digits that [_extract_ad_id_from_link] finds in the link.  The
    entries come in the order of the ads, at most one per ad, and every ad
    that has such a link has its entry. *)
Theorem detail_links_point_to_their_ads (ads : list Value) :
  let detail_links := Complete.extract_detail_links ads in
  Forall (links_to ads) detail_links
  /\ (forall a b ea eb,
        a < b -> detail_links !! a = Some ea -> detail_links !! b = Some eb ->
        Complete.index ea < Complete.index eb)
  /\ length detail_links <= length ads
  /\ (forall k ad entry,
        ads !! k = Some ad -> Complete.detail_link_of k ad = Some entry ->
        entry ∈ detail_links).
Proof.
  cbv zeta. rewrite extract_detail_links_from. split; [|split; [|split]].
  - apply Forall_forall. intros e He.
    apply links_from_elem in He as (k & Hi & Hk & Hd). cbn in Hi, Hd.
    apply detail_link_of_spec in Hd as (_ & _ & H3 & H4 & entries & links & H5).
    unfold links_to. rewrite Hi. split; [exact Hk|]. split; [exact H3|].
    split; [exact H4|]. now exists entries, links.
  - apply links_from_increasing.
  - apply links_from_length.
  - intros k ad entry Hk Hd. now apply (links_from_complete ads 0 k ad).
Qed.

(** *** The search pages of the complete scraper *)

Section SearchFacts.

Context (service : Complete.SearchService) (account_owner keyword : string)
  (countries : option (list string)) (max_results results_per_page : Z)
  (startdate enddate : string).

#[local] Abbreviation search_pass :=
  (Complete.search_body service account_owner keyword countries max_results
     results_per_page startdate enddate).
#[local] Abbreviation search_run :=
  (Complete.search_loop service account_owner keyword countries max_results
     results_per_page startdate enddate).

Lemma requested_snoc (w : Complete.Search service) :
  SearchHead results_per_page w -> SearchInv max_results results_per_page w ->
  forall i s, (Complete.requested w ++ [Complete.start w]) !! i = Some s ->
              s = (Z.of_nat i * results_per_page)%Z.
Proof.
  intros [Hs _ _] [_ Hr _ _] i s Hi.
  apply lookup_app_Some in Hi as [Hi|[Hge Hi]]; [now apply Hr|].
  apply list_lookup_singleton_Some in Hi as [Hi <-].
  rewrite Hs. f_equal. lia.
Qed.

(** One pass from the loop head, with the target not yet met. *)
Lemma search_body_preserves (w w' : Complete.Search service)
  (s : option Complete.SearchStop) :
  SearchHead results_per_page w -> SearchInv max_results results_per_page w ->
  (Z.of_nat (length (Complete.all_ads w)) < max_results)%Z ->
  search_pass w = (w', s) ->
  SearchInv max_results results_per_page w'
  /\ (s = None ->
      SearchHead results_per_page w'
      /\ length (Complete.all_ads w) < length (Complete.all_ads w')).
Proof.
  intros Hh Hi Hlt. pose proof (requested_snoc w Hh Hi) as Hreq.
  destruct Hh as [Hstart Hads Hlen]. destruct Hi as [_ _ Hcount Hpages].
  unfold Complete.search_body.
  destruct (Complete.fetch_search_page service account_owner keyword
              (default ["ALL"] countries) (Complete.start w) startdate enddate
              (Complete.listing w)) as [ads listing'].
  assert (Hfull : concat (Complete.pages w)
                  = take (Z.to_nat max_results) (concat (Complete.pages w))).
  { symmetry. apply take_ge. rewrite <- Hads. lia. }
  assert (Hw1 : forall st,
             SearchInv max_results results_per_page
               {| Complete.all_ads := Complete.all_ads w; Complete.start := st;
                  Complete.listing := listing';
                  Complete.requested := Complete.requested w ++ [Complete.start w];
                  Complete.pages := Complete.pages w |}).
  { intros st. constructor; cbn.
    - now rewrite Hads at 1.
    - exact Hreq.
    - rewrite length_app. cbn. lia.
    - rewrite length_app. cbn. lia. }
  destruct ads as [[|ad ads]|].
  - intros [= <- <-]. split; [apply Hw1 | discriminate].
  - set (page := ad :: ads).
    assert (Hpage : 1 <= length page) by (unfold page; cbn [length]; lia).
    assert (Hslice : slice_to (max_results - Z.of_nat (length (Complete.all_ads w))) page
                     = take (Z.to_nat max_results - length (Complete.all_ads w)) page).
    { unfold slice_to.
      destruct (Z.ltb_spec (max_results - Z.of_nat (length (Complete.all_ads w))) 0);
        [lia|]. f_equal. lia. }
    rewrite Hslice.
    assert (Htake : Complete.all_ads w
                    ++ take (Z.to_nat max_results - length (Complete.all_ads w)) page
                    = take (Z.to_nat max_results) (concat (Complete.pages w ++ [page]))).
    { rewrite concat_app. cbn [concat]. rewrite app_nil_r, <- Hads.
      replace (Z.to_nat max_results)
        with (length (Complete.all_ads w)
              + (Z.to_nat max_results - length (Complete.all_ads w))) at 2 by lia.
      now rewrite take_app_add'. }
    assert (Hinv : forall st,
               SearchInv max_results results_per_page
                 {| Complete.all_ads :=
                      Complete.all_ads w
                      ++ take (Z.to_nat max_results - length (Complete.all_ads w)) page;
                    Complete.start := st; Complete.listing := listing';
                    Complete.requested := Complete.requested w ++ [Complete.start w];
                    Complete.pages := Complete.pages w ++ [page] |}).
    { intros st. constructor; cbn.
      - exact Htake.
      - exact Hreq.
      - rewrite length_app. cbn. lia.
      - rewrite !length_app. cbn. lia. }
    match goal with
    | |- (if ?b then _ else _) = _ -> _ => destruct b eqn:Hbreak
    end.
    + intros [= <- <-]. split; [apply Hinv | discriminate].
    + intros [= <- <-]. split; [apply Hinv|]. intros _.
      apply orb_false_elim in Hbreak as [_ Hbreak].
      rewrite Z.geb_leb in Hbreak. apply Z.leb_gt in Hbreak.
      rewrite length_app, length_take in Hbreak.
      assert (Hall : take (Z.to_nat max_results - length (Complete.all_ads w)) page
                     = page) by (apply take_ge; lia).
      split.
      * constructor;
          cbn [Complete.all_ads Complete.start Complete.requested Complete.pages].
        -- rewrite length_app. cbn [length]. rewrite Hstart. lia.
        -- rewrite Hall, concat_app. cbn [concat]. now rewrite app_nil_r, Hads.
        -- rewrite Hall, !length_app. cbn [length]. lia.
      * cbn [Complete.all_ads]. rewrite Hall, length_app. cbn [length]. lia.
  - intros [= <- <-]. split; [apply Hw1 | discriminate].
Qed.

(** Every pass that is followed by another one adds an ad, so the loop ends
    with a stop when the fuel exceeds what is missing. *)
Lemma search_loop_stops (fuel : nat) (w : Complete.Search service) :
  SearchHead results_per_page w -> SearchInv max_results results_per_page w ->
  Z.to_nat max_results - length (Complete.all_ads w) < fuel ->
  exists w' stop,
    search_run fuel w = (w', Some stop)
    /\ SearchInv max_results results_per_page w'.
Proof.
  revert w. induction fuel as [|k IH]; intros w Hh Hi Hfuel; [lia|].
  cbn [Complete.search_loop].
  destruct (Z.ltb_spec (Z.of_nat (length (Complete.all_ads w))) max_results) as [Hlt|Hge].
  2:{ exists w, Complete.Collected. now split. }
  destruct (search_pass w) as [w1 [s|]] eqn:Hb.
  - exists w1, s. split; [reflexivity|].
    now apply (search_body_preserves w w1 (Some s)).
  - destruct (search_body_preserves w w1 None Hh Hi Hlt Hb) as [Hi1 Hh1].
    destruct (Hh1 eq_refl) as [Hh2 Hgrow]. apply IH; [assumption..|]. lia.
Qed.

Lemma search_loop_mono (fuel fuel' : nat) (w w' : Complete.Search service)
  (stop : Complete.SearchStop) :
  search_run fuel w = (w', Some stop) -> fuel <= fuel' ->
  search_run fuel' w = (w', Some stop).
Proof.
  revert fuel' w. induction fuel as [|k IH]; intros fuel' w Hr Hle; [discriminate|].
  destruct fuel' as [|k']; [lia|]. cbn [Complete.search_loop] in *.
  destruct (Z.of_nat (length (Complete.all_ads w)) <? max_results)%Z; [|exact Hr].
  destruct (search_pass w) as [w1 [s|]]; [exact Hr|]. apply IH; [exact Hr | lia].
Qed.

(** X14.  [scrape_search_pages] of the complete scraper always ends: the
    loop stops within [max_results] passes (more fuel changes nothing), after
    at most [max_results] requests and none for a target that is not
    positive; the request number [i] asks for the offset
    [i * results_per_page]; and the ads returned are the first [max_results]
    ads of the pages received, in their order. *)
Theorem search_pages_collect_prefix (l : Complete.Listing service) :
  let res := Complete.scrape_search_pages service account_owner keyword countries
               max_results results_per_page startdate enddate l in
  (exists stop, snd res = Some stop)
  /\ (forall fuel, S (Z.to_nat max_results) <= fuel ->
        search_run fuel (Complete.search_start service l) = res)
  /\ Complete.all_ads (fst res)
     = take (Z.to_nat max_results) (concat (Complete.pages (fst res)))
  /\ length (Complete.requested (fst res)) <= Z.to_nat max_results
  /\ (forall i s, Complete.requested (fst res) !! i = Some s ->
                  s = (Z.of_nat i * results_per_page)%Z).
Proof.
  cbv zeta. unfold Complete.scrape_search_pages.
  destruct (search_loop_stops (S (Z.to_nat max_results))
              (Complete.search_start service l)) as (w & stop & Hr & Hi).
  - constructor; cbn; [lia | reflexivity | lia].
  - constructor; cbn; [now rewrite take_nil | intros i s Hs; discriminate | lia | lia].
  - cbn. lia.
  - rewrite Hr. cbn [fst snd]. split; [now exists stop|].
    split; [intros fuel Hf; now apply (search_loop_mono (S (Z.to_nat max_results)))|].
    destruct Hi as [H1 H2 H3 H4]. now repeat split.
Qed.

End SearchFacts.

(** *** The url of a search page *)

Section SearchUrl.

Lemma assign_assign (k v1 v2 : string) (d : list (string * string)) :
  Query.assign k v2 (Query.assign k v1 d) = Query.assign k v2 d.
Proof.
  induction d as [|[k' v'] d IH]; cbn [Query.assign].
  - now rewrite String.eqb_refl.
  - destruct (String.eqb k' k) eqn:E; cbn [Query.assign]; rewrite E; [reflexivity|].
    now rewrite IH.
Qed.

Lemma assign_after_all (k c : string) (cs : list string) (d : list (string * string)) :
  Query.assign k c (fold_left (fun params country => Query.assign k country params) cs d)
  = Query.assign k c d.
Proof.
  revert d. induction cs as [|x cs IH]; intros d; [reflexivity|].
  cbn [fold_left]. now rewrite IH, assign_assign.
Qed.

End SearchUrl.

(** X15.  Of the [countries] that [_build_search_url] is given only the
    last one reaches the url; no list means [ALL]; a [start] that is not
    positive is left out; and the url of the first page of the default
    search is the base, the four filters in their order, and
    [countries=ALL]. *)
Theorem search_url_uses_last_country
  (account_owner keyword startdate enddate : string) (start : Z) :
  (forall countries country,
     Complete._build_search_url account_owner keyword (Some (countries ++ [country]))
       start startdate enddate
     = Complete._build_search_url account_owner keyword (Some [country])
         start startdate enddate)
  /\ Complete._build_search_url account_owner keyword None start startdate enddate
     = Complete._build_search_url account_owner keyword (Some ["ALL"])
         start startdate enddate
  /\ ((start <= 0)%Z ->
      forall countries,
        Complete._build_search_url account_owner keyword countries start
          startdate enddate
        = Complete._build_search_url account_owner keyword countries 0
            startdate enddate)
  /\ ((start <= 0)%Z ->
      Complete._build_search_url account_owner keyword None start startdate enddate
      = "https://www.linkedin.com/ad-library/search?accountOwner="
        +:+ Query.quote_plus account_owner
        +:+ "&keyword=" +:+ Query.quote_plus keyword
        +:+ "&startdate=" +:+ Query.quote_plus startdate
        +:+ "&enddate=" +:+ Query.quote_plus enddate
        +:+ "&countries=ALL").
Proof.
  split; [|split; [|split]].
  - intros countries country. unfold Complete._build_search_url.
    change (default ["ALL"] (Some (countries ++ [country])))
      with (countries ++ [country]).
    change (default ["ALL"] (Some [country])) with [country].
    rewrite fold_left_app. cbn [fold_left].
    now rewrite assign_after_all.
  - reflexivity.
  - intros Hs countries. unfold Complete._build_search_url.
    destruct (Z.gtb_spec start 0) as [Hgt|_]; [lia | reflexivity].
  - intros Hs. unfold Complete._build_search_url.
    destruct (Z.gtb_spec start 0) as [Hgt|_]; [lia|].
    change (default ["ALL"] None) with ["ALL"].
    cbn [fold_left Query.assign String.eqb Ascii.eqb Bool.eqb].
    unfold Query.urlencode, Py.join. cbn [map String.concat].
    change (Query.quote_plus "accountOwner") with "accountOwner".
    change (Query.quote_plus "keyword") with "keyword".
    change (Query.quote_plus "startdate") with "startdate".
    change (Query.quote_plus "enddate") with "enddate".
    change (Query.quote_plus "countries") with "countries".
    change (Query.quote_plus "ALL") with "ALL".
    unfold Complete.search_base_url.
    rewrite !app_assoc_s. reflexivity.
Qed.
(** *** The downloads of the single-asset scraper *)

Section SingleFacts.

Context `{Library} `{Network}.

Lemma single_extension_parse (url : string) :
  Single._get_file_extension url = None <-> Url.urlparse url = None.
Proof.
  unfold Single._get_file_extension. destruct (Url.urlparse url); [|tauto].
  split; discriminate.
Qed.

Lemma single_filename_parse (url : string) (t : AssetType) (ad_id : string)
  (index : nat) :
  Single._generate_filename url t ad_id index = None <-> Url.urlparse url = None.
Proof.
  unfold Single._generate_filename, Single._get_file_extension.
  destruct (Url.urlparse url); [|tauto]. split; discriminate.
Qed.

(** What [fetch] does: it raises exactly when [urlparse] rejects the url,
    before any download; otherwise it makes one call of [_download_asset]
    and returns its path when that succeeded. *)
Lemma single_fetch_spec (t : AssetType) (ad_dir ad_id url : string) (st : State) :
  match Single.fetch t ad_dir ad_id url st with
  | (Raise, st') => Url.urlparse url = None /\ st' = st
  | (Return r, st') =>
      Url.urlparse url <> None
      /\ seen_assets st' = seen_assets st
      /\ exists path ok,
           downloads st' = downloads st ++ [(url, path, ok)]
           /\ r = (if ok then Some path else None)
  end.
Proof.
  unfold Single.fetch, bind, lift, download, ret.
  destruct (Single._generate_filename url t ad_id 0) as [filename|] eqn:Ef.
  - assert (Hp : Url.urlparse url <> None).
    { intros E. apply (proj2 (single_filename_parse url t ad_id 0)) in E.
      rewrite E in Ef. discriminate. }
    destruct (_download_asset url _ (world st)) as [ok w].
    split; [exact Hp|]. split; [reflexivity|]. eexists _, ok. split; reflexivity.
  - split; [now apply (proj1 (single_filename_parse url t ad_id 0)) in Ef | reflexivity].
Qed.

Lemma single_asset_priority (assets : Assets) (t : AssetType) (url : string) :
  Single._get_single_asset assets = Some (t, url) ->
  match t with
  | Video => head (videos assets) = Some url
  | Image => videos assets = [] /\ head (images assets) = Some url
  | Poster =>
      videos assets = [] /\ images assets = [] /\ head (posters assets) = Some url
  | Logo => False
  end.
Proof.
  unfold Single._get_single_asset.
  destruct (videos assets) as [|v vs]; [|now intros [= <- <-]].
  destruct (images assets) as [|i imgs]; [|now intros [= <- <-]].
  destruct (posters assets) as [|p ps]; [discriminate | now intros [= <- <-]].
Qed.

End SingleFacts.

(** X16.  [_download_ad_assets] of the single-asset scraper downloads at
    most the logo and one asset, in that order: the asset is the first
    video if the ad has videos, else the first image, else the first
    poster.  A path in the result is the path of a successful download of
    that run, and the asset type is recorded exactly when the asset path
    is. *)
Theorem single_asset_downloads `{Library} `{Network}
  (ad_id : string) (logo_url : option string) (assets : Assets)
  (output_dir : string) (st st' : State) (d : Single.Downloaded) :
  Single._download_ad_assets ad_id logo_url assets output_dir st = (Return d, st') ->
  downloads st' = downloads st ++ new_downloads st st'
  /\ map (fun e => fst (fst e)) (new_downloads st st')
     = (if truthy logo_url then [default "" logo_url] else [])
       ++ match Single._get_single_asset assets with
          | Some (_, asset_url) => [asset_url]
          | None => []
          end
  /\ (forall p, Single.logo_path d = Some p ->
        (default "" logo_url, p, true) ∈ new_downloads st st')
  /\ (forall p, Single.asset_path d = Some p ->
        exists t asset_url,
          Single._get_single_asset assets = Some (t, asset_url)
          /\ Single.asset_type d = Some t
          /\ (asset_url, p, true) ∈ new_downloads st st'
          /\ match t with
             | Video => head (videos assets) = Some asset_url
             | Image => videos assets = [] /\ head (images assets) = Some asset_url
             | Poster =>
                 videos assets = [] /\ images assets = []
                 /\ head (posters assets) = Some asset_url
             | Logo => False
             end)
  /\ (Single.asset_type d = None <-> Single.asset_path d = None).
Proof.
  unfold Single._download_ad_assets. unfold bind at 1.
  set (ad_dir := os_path_join output_dir [ad_id]).
  assert (Hlogo : forall lp s1,
             match logo_url with
             | Some (String c u) => Single.fetch Logo ad_dir ad_id (String c u)
             | _ => ret None
             end st = (Return lp, s1) ->
             exists l1,
               downloads s1 = downloads st ++ l1
               /\ map (fun e => fst (fst e)) l1
                  = (if truthy logo_url then [default "" logo_url] else [])
               /\ (forall p, lp = Some p -> (default "" logo_url, p, true) ∈ l1)).
  { intros lp s1. destruct logo_url as [[|c u]|].
    - intros [= <- <-]. exists []. rewrite app_nil_r. now repeat split.
    - intros E. pose proof (single_fetch_spec Logo ad_dir ad_id (String c u) st) as Hf.
      rewrite E in Hf. destruct Hf as (_ & _ & path & ok & Hd & ->).
      exists [(String c u, path, ok)]. split; [exact Hd|]. split; [reflexivity|].
      intros p Hp. destruct ok; [|discriminate]. injection Hp as <-. left.
    - intros [= <- <-]. exists []. rewrite app_nil_r. now repeat split. }
  destruct (match logo_url with
            | Some (String c u) => Single.fetch Logo ad_dir ad_id (String c u)
            | _ => ret None
            end st) as [[lp|] s1] eqn:El; [|discriminate].
  destruct (Hlogo lp s1 eq_refl) as (l1 & Hd1 & Hm1 & Hp1).
  destruct (Single._get_single_asset assets) as [[t asset_url]|] eqn:Ea.
  - unfold bind. intros E.
    pose proof (single_fetch_spec t ad_dir ad_id asset_url s1) as Hf.
    destruct (Single.fetch t ad_dir ad_id asset_url s1) as [[ap|] s2]; [|discriminate].
    destruct Hf as (_ & _ & path & ok & Hd2 & ->).
    unfold ret in E. injection E as <- <-.
    assert (Hlog : downloads s2 = downloads st ++ (l1 ++ [(asset_url, path, ok)]))
      by (now rewrite Hd2, Hd1, <- app_assoc).
    rewrite (new_downloads_app st s2 _ Hlog).
    split; [exact Hlog|]. split; [now rewrite map_app, Hm1|].
    cbn [Single.logo_path Single.asset_path Single.asset_type].
    split; [intros p Hp; apply elem_of_app; left; now apply Hp1|].
    split.
    + intros p Hp. destruct ok; [|discriminate]. injection Hp as <-.
      exists t, asset_url. split; [reflexivity|]. split; [reflexivity|].
      split; [apply elem_of_app; right; left|].
      now apply single_asset_priority.
    + now destruct ok.
  - unfold ret. intros [= <- <-].
    assert (Hlog : downloads s1 = downloads st ++ (l1 ++ []))
      by (now rewrite app_nil_r).
    rewrite (new_downloads_app st s1 _ Hlog), app_nil_r.
    split; [now rewrite app_nil_r in Hlog|]. split; [now rewrite app_nil_r|].
    cbn [Single.logo_path Single.asset_path Single.asset_type].
    split; [exact Hp1|]. split; [discriminate | tauto].
Qed.

Lemma single_asset_downloads_witness :
  exists d st',
    @Single._download_ad_assets plain_library reliable "9001" example_logo
      example_assets "downloaded_assets" (@fresh reliable tt) = (Return d, st')
    /\ (downloads st' = downloads (@fresh reliable tt)
                        ++ new_downloads (@fresh reliable tt) st'
        /\ map (fun e => fst (fst e)) (new_downloads (@fresh reliable tt) st')
           = (if truthy example_logo then [default "" example_logo] else [])
             ++ match @Single._get_single_asset example_assets with
                | Some (_, asset_url) => [asset_url]
                | None => []
                end
        /\ (forall p, Single.logo_path d = Some p ->
              (default "" example_logo, p, true)
              ∈ new_downloads (@fresh reliable tt) st')
        /\ (forall p, Single.asset_path d = Some p ->
              exists t asset_url,
                Single._get_single_asset example_assets = Some (t, asset_url)
                /\ Single.asset_type d = Some t
                /\ (asset_url, p, true) ∈ new_downloads (@fresh reliable tt) st'
                /\ match t with
                   | Video => head (videos example_assets) = Some asset_url
                   | Image =>
                       videos example_assets = []
                       /\ head (images example_assets) = Some asset_url
                   | Poster =>
                       videos example_assets = [] /\ images example_assets = []
                       /\ head (posters example_assets) = Some asset_url
                   | Logo => False
                   end)
        /\ (Single.asset_type d = None <-> Single.asset_path d = None)).
Proof.
  eexists. eexists. split.
  - vm_compute. reflexivity.
  - apply (@single_asset_downloads plain_library reliable "9001" example_logo
             example_assets "downloaded_assets").
    vm_compute. reflexivity.
Defined.

(** X17.  [_download_ad_assets] raises exactly when [urlparse] rejects the
    logo url (if there is one) or the url of the asset it chose: the file
    name is derived with an unguarded [urlparse].  A logo that is rejected
    raises before any download. *)
Theorem single_download_raises_iff `{Library} `{Network}
  (ad_id : string) (logo_url : option string) (assets : Assets)
  (output_dir : string) (st : State) :
  (fst (Single._download_ad_assets ad_id logo_url assets output_dir st) = Raise
   <-> (truthy logo_url = true /\ Url.urlparse (default "" logo_url) = None)
       \/ exists t asset_url,
            Single._get_single_asset assets = Some (t, asset_url)
            /\ Url.urlparse asset_url = None)
  /\ (truthy logo_url = true -> Url.urlparse (default "" logo_url) = None ->
      Single._download_ad_assets ad_id logo_url assets output_dir st = (Raise, st)).
Proof.
  unfold Single._download_ad_assets. unfold bind at 1 3.
  set (ad_dir := os_path_join output_dir [ad_id]).
  assert (Hasset : forall lp s1,
             fst (match Single._get_single_asset assets with
                  | Some (asset_type, asset_url) =>
                      bind (Single.fetch asset_type ad_dir ad_id asset_url)
                        (fun asset_path =>
                           ret {| Single.logo_path := lp;
                                  Single.asset_path := asset_path;
                                  Single.asset_type :=
                                    match asset_path with
                                    | Some _ => Some asset_type
                                    | None => None
                                    end |})
                  | None =>
                      ret {| Single.logo_path := lp; Single.asset_path := None;
                             Single.asset_type := None |}
                  end s1) = Raise
             <-> exists t asset_url,
                   Single._get_single_asset assets = Some (t, asset_url)
                   /\ Url.urlparse asset_url = None).
  { intros lp s1. destruct (Single._get_single_asset assets) as [[t u]|].
    - unfold bind. pose proof (single_fetch_spec t ad_dir ad_id u s1) as Hf.
      destruct (Single.fetch t ad_dir ad_id u s1) as [[ap|] s2].
      + destruct Hf as (Hp & _). cbn. split; [discriminate|].
        intros (t' & u' & [= <- <-] & E). congruence.
      + destruct Hf as (Hp & _). cbn. split; [|reflexivity].
        intros _. now exists t, u.
    - cbn. split; [discriminate|]. now intros (t & u & E & _). }
  destruct logo_url as [[|c u]|]; cbn [truthy default].
  - unfold ret at 1 3. split; [|discriminate]. rewrite Hasset.
    split; [now right|]. now intros [[E _]|Ha].
  - pose proof (single_fetch_spec Logo ad_dir ad_id (String c u) st) as Hf.
    destruct (Single.fetch Logo ad_dir ad_id (String c u) st) as [[lp|] s1].
    + destruct Hf as (Hp & _).
      split; [|intros _ E; exfalso; apply Hp; exact E]. rewrite Hasset.
      split; [now right|].
      intros [[_ E]|Ha]; [exfalso; apply Hp; exact E | exact Ha].
    + destruct Hf as (Hp & ->). split; [|reflexivity]. cbn [fst].
      split; [intros _; left; split; [reflexivity | exact Hp] | reflexivity].
  - unfold ret at 1 3. split; [|discriminate]. rewrite Hasset.
    split; [now right|]. now intros [[E _]|Ha].
Qed.

(** *** File names *)

Section FilenameFacts.

Context `{Library}.

Lemma sanitize_no_slash (s : string) : Py.contains "/" (sanitize s) = false.
Proof.
  induction s as [|c s IH]; [reflexivity|]. cbn [sanitize].
  rewrite contains_char_cons, IH, orb_false_r.
  destruct (is_unsafe_name_char c) eqn:Hc; [reflexivity|].
  destruct (Ascii.eqb_spec c "/") as [->|]; [discriminate | reflexivity].
Qed.

Lemma take_no_slash (n : nat) (s : string) :
  Py.contains "/" s = false -> Py.contains "/" (Py.take n s) = false.
Proof.
  revert s. induction n as [|n IH]; intros [|c s] Hs; try reflexivity.
  rewrite contains_char_cons in Hs. apply orb_false_elim in Hs as [Hc Hs].
  cbn [Py.take]. now rewrite contains_char_cons, Hc, IH.
Qed.

Lemma string_of_uint_no_slash (d : Decimal.uint) :
  Py.contains "/" (NilEmpty.string_of_uint d) = false.
Proof.
  induction d; cbn [NilEmpty.string_of_uint]; try reflexivity;
    now rewrite contains_char_cons, IHd.
Qed.

Lemma asset_type_name_no_slash (t : AssetType) :
  Py.contains "/" (asset_type_name t) = false.
Proof. now destruct t. Qed.

(** The name is made of the ad id, a base, the index and an extension. *)
Lemma filename_no_slash (ad_id base : string) (index : nat) (ext : string) :
  Py.contains "/" ad_id = false -> Py.contains "/" base = false ->
  Py.contains "/" ext = false ->
  Py.contains "/" (ad_id +:+ "_" +:+ base +:+ "_" +:+ str_of_nat index +:+ ext) = false.
Proof.
  intros H1 H2 H3. rewrite !contains_char_app, H1, H2, H3.
  unfold str_of_nat. now rewrite string_of_uint_no_slash.
Qed.

Lemma base_name_no_slash (url : string) (t : AssetType) (parts : list string) :
  Py.contains "/" (Py.take 8 (md5_hexdigest url)) = false ->
  Py.contains "/"
    match last parts with
    | Some base_name => Py.take 50 (sanitize base_name)
    | None => asset_type_name t +:+ "_" +:+ Py.take 8 (md5_hexdigest url)
    end = false.
Proof.
  intros Hh. destruct (last parts).
  - apply take_no_slash, sanitize_no_slash.
  - now rewrite !contains_char_app, asset_type_name_no_slash, Hh.
Qed.

(** A name without [/] is put into the directory it is joined to. *)
Lemma os_path_join_file (ad_dir subdir filename : string) :
  Py.contains "/" filename = false ->
  exists sep, (sep = "" \/ sep = "/")
    /\ os_path_join ad_dir [subdir; filename]
       = os_path_join ad_dir [subdir] +:+ sep +:+ filename.
Proof.
  intros Hf. unfold os_path_join. cbn [fold_left].
  set (p1 := if Py.startswith "/" subdir then subdir
             else if String.eqb ad_dir "" || endswith_slash ad_dir
                  then ad_dir +:+ subdir else ad_dir +:+ "/" +:+ subdir).
  assert (Hs : Py.startswith "/" filename = false).
  { destruct filename as [|c f]; [reflexivity|].
    rewrite contains_char_cons in Hf. apply orb_false_elim in Hf as [Hc _].
    unfold Py.startswith. now rewrite prefix_char. }
  rewrite Hs. destruct (String.eqb p1 "" || endswith_slash p1).
  - exists "". split; [now left | reflexivity].
  - exists "/". split; [now right | reflexivity].
Qed.

End FilenameFacts.

(** X18.  The file names that [_generate_filename] makes (in both
    scrapers) for an ad id without [/] contain no [/], so the file is
    written into the directory of its kind and nowhere else: the path is
    that directory, a separator if needed, and the name.  The digest is
    assumed to have no [/] in its first eight characters, as a hexadecimal
    digest has. *)
Theorem generated_filename_stays_in_directory `{Library}
  (url : string) (t : AssetType) (ad_id : string) (index : nat)
  (ad_dir subdir filename : string) :
  Py.contains "/" ad_id = false ->
  Py.contains "/" (Py.take 8 (md5_hexdigest url)) = false ->
  _generate_filename url t ad_id index = Some filename
  \/ Single._generate_filename url t ad_id index = Some filename ->
  Py.contains "/" filename = false
  /\ exists sep, (sep = "" \/ sep = "/")
       /\ os_path_join ad_dir [subdir; filename]
          = os_path_join ad_dir [subdir] +:+ sep +:+ filename.
Proof.
  intros Hid Hh Hgen.
  assert (Hf : Py.contains "/" filename = false).
  { destruct Hgen as [Hg|Hg].
    - unfold _generate_filename in Hg.
      destruct (Url.urlparse url) as [parsed|]; [|discriminate].
      destruct (_get_file_extension url None) as [ext|] eqn:Ee; [|discriminate].
      injection Hg as <-.
      apply filename_no_slash; [exact Hid | now apply base_name_no_slash |].
      unfold _get_file_extension in Ee.
      destruct (Url.urlparse url); [|discriminate]. injection Ee as <-.
      repeat match goal with
             | |- context [if ?b then _ else _] => destruct b
             end; reflexivity.
    - unfold Single._generate_filename in Hg.
      destruct (Url.urlparse url) as [parsed|]; [|discriminate].
      destruct (Single._get_file_extension url) as [ext|] eqn:Ee; [|discriminate].
      injection Hg as <-.
      apply filename_no_slash; [exact Hid | now apply base_name_no_slash |].
      unfold Single._get_file_extension in Ee.
      destruct (Url.urlparse url); [|discriminate]. injection Ee as <-.
      repeat match goal with
             | |- context [if ?b then _ else _] => destruct b
             end; reflexivity. }
  split; [exact Hf | now apply os_path_join_file].
Qed.

Lemma generated_filename_stays_in_directory_witness :
  Py.contains "/" "downloaded_assets/9001/logo/9001_logo_png_0.png" = true
  /\ Py.contains "/" "9001_logo_png_0.png" = false
  /\ exists sep, (sep = "" \/ sep = "/")
       /\ os_path_join "downloaded_assets/9001" ["logo"; "9001_logo_png_0.png"]
          = os_path_join "downloaded_assets/9001" ["logo"] +:+ sep
            +:+ "9001_logo_png_0.png".
Proof.
  split; [reflexivity|].
  apply (@generated_filename_stays_in_directory plain_library
           "https://media.licdn.com/dms/image/v2/D4E/logo.png?e=1" Logo "9001" 0
           "downloaded_assets/9001" "logo" "9001_logo_png_0.png");
    [reflexivity | reflexivity | left; vm_compute; reflexivity].
Defined.

(** *** The cache of the complete scraper *)


(** *** Groups of renditions *)

Section Groups.

Context (identity : string -> string).

Lemma groups_append_keys (k x : string) (g : list (string * list string)) :
  map fst (groups_append k x g)
  = if decide (k ∈ map fst g) then map fst g else map fst g ++ [k].
Proof.
  induction g as [|[k' us] g IH]; cbn [groups_append map fst].
  - destruct (decide (k ∈ [])) as [Hin|_]; [inversion Hin | reflexivity].
  - destruct (String.eqb_spec k' k) as [->|Hne]; cbn [map fst].
    + destruct (decide (k ∈ k :: map fst g)) as [_|Hn]; [reflexivity|].
      exfalso. apply Hn. left.
    + rewrite IH. destruct (decide (k ∈ map fst g)) as [Hin|Hnin].
      * destruct (decide (k ∈ k' :: map fst g)) as [_|Hn]; [reflexivity|].
        exfalso. apply Hn. now right.
      * destruct (decide (k ∈ k' :: map fst g)) as [Hin|_]; [|reflexivity].
        apply elem_of_cons in Hin as [?|?]; congruence.
Qed.

Lemma groups_append_elem (k x : string) (g : list (string * list string))
  (k' : string) (us' : list string) :
  (k', us') ∈ groups_append k x g ->
  (k', us') ∈ g
  \/ (k' = k /\ exists us, us' = us ++ [x] /\ (us = [] \/ (k, us) ∈ g)).
Proof.
  induction g as [|[k0 us0] g IH]; cbn [groups_append].
  - intros Hin. apply list_elem_of_singleton in Hin as [= -> ->].
    right. split; [reflexivity|]. exists []. split; [reflexivity | now left].
  - destruct (String.eqb_spec k0 k) as [->|Hne].
    + rewrite !elem_of_cons. intros [[= -> ->]|Hin]; [|left; now right].
      right. split; [reflexivity|]. exists us0. split; [reflexivity|]. right. left.
    + rewrite !elem_of_cons. intros [E|Hin]; [left; now left|].
      destruct (IH Hin) as [H1|(-> & us & -> & [->|H2])].
      * left. now right.
      * right. split; [reflexivity|]. exists []. split; [reflexivity | now left].
      * right. split; [reflexivity|]. exists us. split; [reflexivity|]. right.
        now right.
Qed.

Lemma groups_append_grows (k x : string) (g : list (string * list string))
  (k' : string) (us' : list string) :
  (k', us') ∈ g ->
  exists us'', (k', us'') ∈ groups_append k x g /\ forall u, u ∈ us' -> u ∈ us''.
Proof.
  induction g as [|[k0 us0] g IH]; [intros Hin; inversion Hin|].
  cbn [groups_append]. rewrite elem_of_cons. intros [[= -> ->]|Hin].
  - destruct (String.eqb_spec k0 k) as [->|Hne].
    + exists (us0 ++ [x]). split; [left|]. intros u Hu. apply elem_of_app. now left.
    + exists us0. split; [left | auto].
  - destruct (String.eqb_spec k0 k) as [->|Hne].
    + exists us'. split; [now right | auto].
    + destruct (IH Hin) as (us'' & H1 & H2). exists us''. split; [now right | exact H2].
Qed.

Lemma groups_append_has (k x : string) (g : list (string * list string)) :
  exists us, (k, us) ∈ groups_append k x g /\ x ∈ us.
Proof.
  induction g as [|[k0 us0] g IH]; cbn [groups_append].
  - exists [x]. split; left.
  - destruct (String.eqb_spec k0 k) as [->|Hne].
    + exists (us0 ++ [x]). split; [left|]. apply elem_of_app. right. left.
    + destruct IH as (us & H1 & H2). exists us. split; [now right | exact H2].
Qed.

Lemma group_by_snoc (urls : list string) (x : string) :
  Single.group_by identity (urls ++ [x])
  = groups_append (identity x) x (Single.group_by identity urls).
Proof. unfold Single.group_by. now rewrite fold_left_app. Qed.

Lemma group_by_grouped (urls : list string) :
  grouped identity urls (Single.group_by identity urls).
Proof.
  induction urls as [|x urls (G1 & G2 & G3)] using rev_ind.
  - split; [constructor|]. split; [intros k us Hin; inversion Hin|].
    intros u Hu. inversion Hu.
  - rewrite group_by_snoc. split; [|split].
    + rewrite groups_append_keys.
      destruct (decide (identity x ∈ map fst (Single.group_by identity urls)))
        as [_|Hn]; [exact G1|].
      apply NoDup_app. split; [exact G1|]. split; [|apply NoDup_singleton].
      intros k Hk Hk'. apply list_elem_of_singleton in Hk'. now subst k.
    + intros k us Hin.
      apply groups_append_elem in Hin as [Hin|(-> & us0 & -> & Hus0)].
      * destruct (G2 k us Hin) as [Hne Hall]. split; [exact Hne|].
        intros u Hu. destruct (Hall u Hu) as [H1 H2]. split; [exact H1|].
        apply elem_of_app. now left.
      * split; [intros E; destruct us0; discriminate|].
        intros u Hu. apply elem_of_app in Hu as [Hu|Hu].
        -- destruct Hus0 as [->|Hin]; [inversion Hu|].
           destruct (G2 _ _ Hin) as [_ Hall]. destruct (Hall u Hu) as [H1 H2].
           split; [exact H1|]. apply elem_of_app. now left.
        -- apply list_elem_of_singleton in Hu. subst u. split; [reflexivity|].
           apply elem_of_app. right. left.
    + intros u Hu. apply elem_of_app in Hu as [Hu|Hu].
      * destruct (G3 u Hu) as (us & H1 & H2).
        destruct (groups_append_grows (identity x) x _ _ _ H1) as (us'' & H3 & H4).
        exists us''. split; [exact H3 | auto].
      * apply list_elem_of_singleton in Hu. subst u. apply groups_append_has.
Qed.

Lemma group_unique (g : list (string * list string)) (k : string)
  (a b : list string) :
  NoDup (map fst g) -> (k, a) ∈ g -> (k, b) ∈ g -> a = b.
Proof.
  induction g as [|[k0 us0] g IH]; [intros _ Hin; inversion Hin|].
  cbn [map fst]. intros Hnd Ha Hb. apply NoDup_cons in Hnd as [Hk Hnd].
  assert (Hkey : forall us, (k, us) ∈ g -> k ∈ map fst g).
  { intros us Hin. apply list_elem_of_fmap. now exists (k, us). }
  apply elem_of_cons in Ha as [Ha|Ha], Hb as [Hb|Hb].
  - congruence.
  - injection Ha as <- <-. exfalso. apply Hk. eapply Hkey; eassumption.
  - injection Hb as <- <-. exfalso. apply Hk. eapply Hkey; eassumption.
  - now apply IH.
Qed.

End Groups.

Section BestOfGroups.

Lemma max_from_total (urls : list string) :
  forall best k,
    (forall u, u ∈ urls -> quality u <> None) -> max_from best k urls <> None.
Proof.
  induction urls as [|x urls IH]; intros best k Hall; [discriminate|].
  cbn [max_from]. destruct (quality x) as [kx|] eqn:Hx.
  - destruct (k <? kx)%Z; apply IH; intros u Hu; apply Hall; now right.
  - exfalso. apply (Hall x); [left | exact Hx].
Qed.

Lemma best_url_total (urls : list string) :
  urls <> [] -> (forall u, u ∈ urls -> quality u <> None) -> best_url urls <> None.
Proof.
  destruct urls as [|x urls]; [congruence|]. intros _ Hall. cbn [best_url].
  destruct (quality x) as [kx|] eqn:Hx.
  - apply max_from_total. intros u Hu. apply Hall. now right.
  - exfalso. apply (Hall x); [left | exact Hx].
Qed.

Lemma best_url_elem (urls : list string) (best : string) :
  best_url urls = Some best ->
  best ∈ urls
  /\ exists k, quality best = Some k
       /\ forall u, u ∈ urls -> exists ku, quality u = Some ku /\ (ku <= k)%Z.
Proof.
  intros Hb. apply best_url_spec in Hb as (i & k & Hi & Hk & Hall).
  split; [apply list_elem_of_lookup; now exists i|].
  exists k. split; [exact Hk|]. intros u Hu.
  apply list_elem_of_lookup in Hu as [j Hj].
  destruct (Hall j u Hj) as (ku & H1 & H2 & _). now exists ku.
Qed.

Context `{Library}.

Lemma best_of_groups_elem (groups : list (string * list string)) :
  forall videos v,
    v ∈ Single.best_of_groups groups videos ->
    v ∈ videos \/ exists k us, (k, us) ∈ groups /\ best_url us = Some v.
Proof.
  induction groups as [|[k us] groups IH]; intros videos v Hv; [now left|].
  cbn [Single.best_of_groups] in Hv.
  destruct (best_url us) as [b|] eqn:Hb; [|now left].
  apply IH in Hv as [Hv|(k' & us' & H1 & H2)].
  - apply elem_of_app in Hv as [Hv|Hv]; [now left|].
    apply list_elem_of_singleton in Hv. subst v. right. exists k, us. split; [left | exact Hb].
  - right. exists k', us'. split; [now right | exact H2].
Qed.

Lemma best_of_groups_keeps (groups : list (string * list string)) :
  forall videos v, v ∈ videos -> v ∈ Single.best_of_groups groups videos.
Proof.
  induction groups as [|[k us] groups IH]; intros videos v Hv; [exact Hv|].
  cbn [Single.best_of_groups]. destruct (best_url us); [|exact Hv].
  apply IH, elem_of_app. now left.
Qed.

Lemma best_of_groups_complete (groups : list (string * list string)) :
  (forall k us, (k, us) ∈ groups -> best_url us <> None) ->
  forall videos k us,
    (k, us) ∈ groups ->
    exists v, v ∈ Single.best_of_groups groups videos /\ best_url us = Some v.
Proof.
  induction groups as [|[k0 us0] groups IH]; intros Hall videos k us Hin;
    [inversion Hin|].
  cbn [Single.best_of_groups].
  destruct (best_url us0) as [b|] eqn:Hb.
  2:{ exfalso. apply (Hall k0 us0); [left | exact Hb]. }
  apply elem_of_cons in Hin as [[= -> ->]|Hin].
  - exists b. split; [|exact Hb]. apply best_of_groups_keeps, elem_of_app. right. left.
  - assert (Hall' : forall k' us', (k', us') ∈ groups -> best_url us' <> None)
      by (intros k' us' H'; apply (Hall k' us'); now right).
    exact (IH Hall' (videos ++ [b]) k us Hin).
Qed.

Lemma best_of_groups_distinct (identity : string -> string)
  (groups : list (string * list string)) :
  NoDup (map fst groups) ->
  (forall k us, (k, us) ∈ groups -> forall u, u ∈ us -> identity u = k) ->
  forall videos,
    NoDup (map identity videos) ->
    (forall v, v ∈ videos -> identity v ∉ map fst groups) ->
    NoDup (map identity (Single.best_of_groups groups videos)).
Proof.
  induction groups as [|[k us] groups IH]; intros Hnd Hkey videos Hv Hdisj; [exact Hv|].
  cbn [Single.best_of_groups]. destruct (best_url us) as [b|] eqn:Hb; [|exact Hv].
  cbn [map fst] in Hnd. apply NoDup_cons in Hnd as [Hk Hnd].
  apply best_url_elem in Hb as [Hb _].
  assert (Hbk : identity b = k) by (apply (Hkey k us); [left | exact Hb]).
  apply IH.
  - exact Hnd.
  - intros k' us' H' u Hu. apply (Hkey k' us'); [now right | exact Hu].
  - rewrite map_app. apply NoDup_app. split; [exact Hv|]. split.
    + intros x Hx Hx'. cbn in Hx'. apply list_elem_of_singleton in Hx'. subst x.
      apply list_elem_of_fmap in Hx as (v & E & Hin). apply (Hdisj v Hin).
      rewrite <- E, Hbk. left.
    + apply NoDup_singleton.
  - intros v Hin Hk'. apply elem_of_app in Hin as [Hin|Hin].
    + apply (Hdisj v Hin). now right.
    + apply list_elem_of_singleton in Hin. subst v. rewrite Hbk in Hk'. now apply Hk.
Qed.

End BestOfGroups.

(** X20.  The videos that [_extract_assets_with_bs4] keeps have pairwise
    different base paths; each is one of the urls found on the page, and no
    url of the page with the same base path has a larger [<digits>p] marker;
    and when no marker is too long for [int], every base path of the page is
    represented. *)
Theorem selected_videos_one_per_identity `{Library} (video_urls : list string) :
  let selected := Single.select_videos video_urls in
  NoDup (map Single._get_video_base_path selected)
  /\ (forall v, v ∈ selected ->
        v ∈ video_urls
        /\ exists kv, quality v = Some kv
             /\ forall u, u ∈ video_urls ->
                  Single._get_video_base_path u = Single._get_video_base_path v ->
                  exists ku, quality u = Some ku /\ (ku <= kv)%Z)
  /\ ((forall u, u ∈ video_urls -> quality u <> None) ->
      forall u, u ∈ video_urls ->
        exists v, v ∈ selected
                  /\ Single._get_video_base_path v = Single._get_video_base_path u).
Proof.
  cbv zeta. unfold Single.select_videos.
  destruct (group_by_grouped Single._get_video_base_path video_urls) as (G1 & G2 & G3).
  set (groups := Single.group_by Single._get_video_base_path video_urls) in *.
  split; [|split].
  - apply (best_of_groups_distinct Single._get_video_base_path); [exact G1 | | constructor |].
    + intros k us Hin u Hu. now apply (G2 k us Hin).
    + intros v Hv. inversion Hv.
  - intros v Hv. apply best_of_groups_elem in Hv as [Hv|(k & us & Hin & Hb)];
      [inversion Hv|].
    apply best_url_elem in Hb as (Hvu & kv & Hkv & Hmax).
    destruct (G2 k us Hin) as [_ Hall]. destruct (Hall v Hvu) as [Hkey Hvin].
    split; [exact Hvin|]. exists kv. split; [exact Hkv|].
    intros u Hu Hsame. destruct (G3 u Hu) as (us' & Hin' & Hu').
    rewrite Hsame, Hkey in Hin'.
    rewrite (group_unique groups k us' us G1 Hin' Hin) in Hu'. now apply Hmax.
  - intros Hq u Hu. destruct (G3 u Hu) as (us & Hin & Huin).
    destruct (best_of_groups_complete groups) with (videos := @nil string)
      (k := Single._get_video_base_path u) (us := us) as (v & Hv & Hb); [|exact Hin|].
    + intros k us' Hin'. destruct (G2 k us' Hin') as [Hne Hall].
      apply best_url_total; [exact Hne|]. intros x Hx. apply Hq. now apply (Hall x).
    + exists v. split; [exact Hv|]. apply best_url_elem in Hb as [Hb _].
      now apply (G2 _ us Hin).
Qed.
(** *** The query string of a search url *)

Section QueryFacts.

Lemma hex_digit_safe (n : N) : (n < 16)%N -> Query.is_always_safe (Query.hex_digit n) = true.
Proof.
  intros Hn. rewrite <- (N2Nat.id n). remember (N.to_nat n) as k eqn:Ek.
  assert (Hk : k < 16) by lia. clear Ek Hn.
  do 16 (destruct k as [|k]; [reflexivity|]). lia.
Qed.

Lemma percent_safe (byte : N) :
  (byte < 256)%N -> Url.all_chars is_query_safe (Query.percent byte) = true.
Proof.
  intros Hb. unfold Query.percent. cbn [Url.all_chars].
  assert (H1 : (byte / 16 < 16)%N) by (apply N.Div0.div_lt_upper_bound; lia).
  assert (H2 : (byte mod 16 < 16)%N) by (apply N.mod_lt; lia).
  unfold is_query_safe at 2 3.
  now rewrite (hex_digit_safe _ H1), (hex_digit_safe _ H2).
Qed.

Lemma ord_bound (c : ascii) : (Py.ord c < 256)%N.
Proof. apply N_ascii_bounded. Qed.

Lemma quote_char_safe (c : ascii) :
  Url.all_chars is_query_safe (Query.quote_char c) = true.
Proof.
  unfold Query.quote_char. destruct (Query.is_always_safe c) eqn:Hs.
  - cbn [Url.all_chars]. unfold is_query_safe. now rewrite Hs.
  - destruct (Ascii.eqb c " "); [reflexivity|].
    pose proof (ord_bound c) as Hb. unfold Query.utf8.
    destruct (N.ltb_spec (Py.ord c) 128).
    + cbn [map String.concat]. apply percent_safe. lia.
    + cbn [map String.concat]. rewrite all_chars_app, app_nil_l_s.
      rewrite !percent_safe; [reflexivity | |].
      * assert (Py.ord c mod 64 < 64)%N by (apply N.mod_lt; lia). lia.
      * assert (Py.ord c / 64 < 4)%N by (apply N.Div0.div_lt_upper_bound; lia). lia.
Qed.

Lemma quote_plus_safe (s : string) :
  Url.all_chars is_query_safe (Query.quote_plus s) = true.
Proof.
  induction s as [|c s IH]; [reflexivity|]. cbn [Query.quote_plus].
  now rewrite all_chars_app, quote_char_safe, IH.
Qed.

Lemma safe_lacks (d : ascii) (s : string) :
  is_query_safe d = false -> Url.all_chars is_query_safe s = true ->
  Py.contains (String d "") s = false.
Proof.
  intros Hd. induction s as [|c s IH]; [reflexivity|]. cbn [Url.all_chars].
  rewrite andb_true_iff. intros [Hc Hs]. rewrite contains_char_cons, (IH Hs), orb_false_r.
  destruct (Ascii.eqb_spec c d) as [->|]; [congruence | reflexivity].
Qed.

Lemma split_absent (sep : ascii) (s : string) :
  Py.contains (String sep "") s = false -> Py.split sep s = [s].
Proof.
  induction s as [|c s IH]; [reflexivity|]. rewrite contains_char_cons.
  intros Hc. apply orb_false_elim in Hc as [Hc Hs]. cbn [Py.split].
  now rewrite Hc, (IH Hs).
Qed.

Lemma split_app (sep : ascii) (a b : string) :
  Py.contains (String sep "") a = false ->
  Py.split sep (a +:+ String sep b) = a :: Py.split sep b.
Proof.
  induction a as [|c a IH]; intros Ha.
  - rewrite app_nil_l_s. cbn [Py.split]. now rewrite Ascii.eqb_refl.
  - rewrite contains_char_cons in Ha. apply orb_false_elim in Ha as [Hc Ha].
    rewrite app_cons_s. cbn [Py.split]. now rewrite Hc, (IH Ha).
Qed.

(** Joining pieces that do not contain the separator and splitting again
    gives the pieces back. *)
Lemma split_join (sep : ascii) (parts : list string) :
  parts <> [] ->
  Forall (fun p => Py.contains (String sep "") p = false) parts ->
  Py.split sep (Py.join (String sep "") parts) = parts.
Proof.
  unfold Py.join. intros Hne Hall. induction Hall as [|p parts Hp Hall IH]; [congruence|].
  destruct parts as [|q parts].
  - cbn [String.concat]. now apply split_absent.
  - cbn [String.concat]. change (String sep "" +:+ ?x) with (String sep x).
    rewrite (split_app sep p _ Hp). f_equal. apply IH. discriminate.
Qed.

Lemma pair_no_ampersand (k v : string) :
  Py.contains "&" (Query.quote_plus k +:+ "=" +:+ Query.quote_plus v) = false.
Proof.
  rewrite !contains_char_app.
  now rewrite !(safe_lacks "&" _ eq_refl (quote_plus_safe _)).
Qed.

End QueryFacts.

(** X21.  The query string of a search url can be taken apart again: it is
    the encoding of the filters [accountOwner], [keyword], [startdate],
    [enddate] with the values given, followed by at most [countries] and
    [start]; splitting it at [&] gives one piece per parameter, and
    splitting a piece at [=] gives the encoded key and the encoded value,
    whatever characters the values contain. *)
Theorem search_url_query_round_trip
  (account_owner keyword startdate enddate : string)
  (countries : option (list string)) (start : Z) :
  exists more,
    let params :=
      [ ("accountOwner", account_owner); ("keyword", keyword);
        ("startdate", startdate); ("enddate", enddate) ] ++ more in
    length more <= 2
    /\ Complete._build_search_url account_owner keyword countries start
         startdate enddate
       = Complete.search_base_url +:+ "?" +:+ Query.urlencode params
    /\ Py.split "&" (Query.urlencode params)
       = map (fun '(k, v) => Query.quote_plus k +:+ "=" +:+ Query.quote_plus v) params
    /\ Forall (fun '(k, v) =>
                 Py.split "=" (Query.quote_plus k +:+ "=" +:+ Query.quote_plus v)
                 = [Query.quote_plus k; Query.quote_plus v]) params.
Proof.
  set (base := [ ("accountOwner", account_owner); ("keyword", keyword);
                 ("startdate", startdate); ("enddate", enddate) ]).
  assert (Hc : exists more1,
             length more1 <= 1
             /\ fold_left (fun params country => Query.assign "countries" country params)
                  (default ["ALL"] countries) base = base ++ more1
             /\ (forall v, Query.assign "start" v (base ++ more1)
                           = base ++ more1 ++ [("start", v)])).
  { destruct (default ["ALL"] countries) as [|c cs].
    - exists []. split; [cbn; lia|]. split; [now rewrite app_nil_r | reflexivity].
    - exists [("countries", default "" (last (c :: cs)))].
      split; [cbn; lia|].
      assert (Hsome : forall (z : string) l x y,
                 default y (last (z :: l)) = default x (last (z :: l))).
      { intros z l x y. destruct (last (z :: l)) eqn:E; [reflexivity|].
        apply last_None in E. discriminate. }
      assert (Hlast : forall l x,
                 fold_left (fun params country => Query.assign "countries" country params)
                   l (base ++ [("countries", x)])
                 = base ++ [("countries", default x (last l))]).
      { induction l as [|y l IH]; intros x; [reflexivity|].
        cbn [fold_left]. change (Query.assign "countries" y (base ++ [("countries", x)]))
          with (base ++ [("countries", y)]).
        rewrite (IH y). do 3 f_equal.
        destruct l as [|z l]; [reflexivity|].
        change (last (y :: z :: l)) with (last (z :: l)). apply Hsome. }
      split; [|reflexivity].
      cbn [fold_left].
      change (Query.assign "countries" c base) with (base ++ [("countries", c)]).
      rewrite (Hlast cs c). do 3 f_equal.
      destruct cs as [|z cs]; [reflexivity|].
      change (last (c :: z :: cs)) with (last (z :: cs)). apply Hsome. }
  destruct Hc as (more1 & Hlen & Hfold & Hstart).
  assert (Hsplit : forall params : list (string * string),
             params <> [] ->
             Py.split "&" (Query.urlencode params)
             = map (fun '(k, v) => Query.quote_plus k +:+ "=" +:+ Query.quote_plus v)
                   params
             /\ Forall (fun '(k, v) =>
                          Py.split "=" (Query.quote_plus k +:+ "=" +:+ Query.quote_plus v)
                          = [Query.quote_plus k; Query.quote_plus v]) params).
  { intros params Hne. split.
    - unfold Query.urlencode. apply split_join.
      + destruct params; [congruence | discriminate].
      + apply Forall_forall. intros p Hp. apply list_elem_of_fmap in Hp as ([k v] & -> & _).
        apply pair_no_ampersand.
    - apply Forall_forall. intros [k v] _.
      change ("=" +:+ Query.quote_plus v) with (String "=" (Query.quote_plus v)).
      rewrite split_app by apply (safe_lacks "=" _ eq_refl (quote_plus_safe _)).
      now rewrite split_absent by apply (safe_lacks "=" _ eq_refl (quote_plus_safe _)). }
  unfold Complete._build_search_url. fold base. rewrite Hfold.
  destruct (start >? 0)%Z.
  - exists (more1 ++ [("start", Complete.str_of_pos start)]). cbv zeta.
    split; [rewrite length_app; cbn; lia|]. rewrite Hstart.
    split; [reflexivity|]. now apply Hsplit.
  - exists more1. cbv zeta. split; [lia|]. split; [reflexivity|]. now apply Hsplit.
Qed.

(** *** The extension of a downloaded file *)

(** X22.  When the path of a url names one of the known extensions,
    [_get_file_extension] of the complete scraper is decided by the path
    alone: neither a query string or fragment nor the content type changes
    it. *)
Theorem extension_follows_path `{Library}
  (base t : string) (content_type : option string) (parsed : Url.ParseResult) :
  no_query_fragment base -> query_fragment t ->
  Url.urlparse base = Some parsed ->
  names_extension (Py.lower (Url.path parsed)) = true ->
  _get_file_extension (base +:+ t) content_type = _get_file_extension base None
  /\ _get_file_extension base None <> None.
Proof.
  intros Hb Ht Hp Hext. destruct (urlparse_app_tail base t Hb Ht) as (q & f & E).
  unfold _get_file_extension. rewrite E, Hp. cbn [Url.path].
  unfold names_extension in Hext. split; [|discriminate].
  destruct (Py.contains ".jpg" (Py.lower (Url.path parsed))); [reflexivity|].
  destruct (Py.contains ".jpeg" (Py.lower (Url.path parsed))); [reflexivity|].
  destruct (Py.contains ".png" (Py.lower (Url.path parsed))); [reflexivity|].
  destruct (Py.contains ".gif" (Py.lower (Url.path parsed))); [reflexivity|].
  destruct (Py.contains ".webp" (Py.lower (Url.path parsed))); [reflexivity|].
  destruct (Py.contains ".mp4" (Py.lower (Url.path parsed))); [reflexivity|].
  destruct (Py.contains ".webm" (Py.lower (Url.path parsed))); [reflexivity|].
  destruct (Py.contains ".mov" (Py.lower (Url.path parsed))); [reflexivity|].
  discriminate.
Qed.

Lemma extension_follows_path_witness :
  @_get_file_extension plain_library
    ("https://media.licdn.com/dms/image/v2/D4E/logo.png" +:+ "?e=1&video=1")
    (Some "video/mp4")
  = @_get_file_extension plain_library
      "https://media.licdn.com/dms/image/v2/D4E/logo.png" None
  /\ @_get_file_extension plain_library
       "https://media.licdn.com/dms/image/v2/D4E/logo.png" None <> None.
Proof.
  apply (@extension_follows_path plain_library
           "https://media.licdn.com/dms/image/v2/D4E/logo.png" "?e=1&video=1"
           (Some "video/mp4")
           {| Url.scheme := "https"; Url.netloc := "media.licdn.com";
              Url.path := "/dms/image/v2/D4E/logo.png"; Url.params := "";
              Url.query := ""; Url.fragment := "" |});
    [ split; reflexivity | now left | vm_compute; reflexivity | reflexivity ].
Defined.

(** *** The text of a detail page in the complete scraper *)

Section CompleteText.

Lemma keep_blocks_filter (elements parts : list string) :
  fold_left
    (fun ad_text_parts text =>
       if Complete.keeps_block text then ad_text_parts ++ [text] else ad_text_parts)
    elements parts
  = parts ++ List.filter Complete.keeps_block elements.
Proof.
  revert parts. induction elements as [|t elements IH]; intros parts.
  - now rewrite app_nil_r.
  - cbn [fold_left List.filter]. rewrite IH.
    destruct (Complete.keeps_block t); [now rewrite <- app_assoc | reflexivity].
Qed.

Lemma text_parts_filter (texts_by_selector : list (list string)) :
  Complete.text_parts texts_by_selector
  = List.filter Complete.keeps_block (concat (map (take 3) texts_by_selector)).
Proof.
  unfold Complete.text_parts.
  assert (Hgen : forall parts,
             fold_left
               (fun ad_text_parts elements =>
                  fold_left
                    (fun ad_text_parts text =>
                       if Complete.keeps_block text then ad_text_parts ++ [text]
                       else ad_text_parts)
                    (take 3 elements) ad_text_parts)
               texts_by_selector parts
             = parts ++ List.filter Complete.keeps_block
                          (concat (map (take 3) texts_by_selector))).
  { induction texts_by_selector as [|els tbs IH]; intros parts.
    - now rewrite app_nil_r.
    - cbn [fold_left map concat]. rewrite IH, keep_blocks_filter.
      now rewrite List.filter_app, <- app_assoc. }
  apply (Hgen []).
Qed.

End CompleteText.

(** X23.  The text of an ad in the complete scraper is made of at most two
    blocks, each among the first three texts of one of the selectors, with
    more than 10 and fewer than 500 characters and none of the six skipped
    phrases; there is no text exactly when no block qualifies; and a block
    is not compared with those kept before it, so a text that two selectors
    yield is kept twice. *)
Theorem complete_ad_text_blocks (texts_by_selector : list (list string)) :
  let blocks := take 2 (Complete.text_parts texts_by_selector) in
  length blocks <= 2
  /\ (forall t, t ∈ blocks ->
        10 < String.length t < 500
        /\ (forall skip, skip ∈ Complete.skip_phrases ->
              Py.contains skip (Py.lower t) = false)
        /\ exists elements, elements ∈ texts_by_selector /\ t ∈ take 3 elements)
  /\ (Complete.ad_text texts_by_selector = None
      <-> Complete.text_parts texts_by_selector = [])
  /\ (forall t more,
        Complete.keeps_block t = true ->
        Complete.ad_text ([t] :: [t] :: more) = Some (t +:+ newline +:+ t)).
Proof.
  cbv zeta. split; [rewrite length_take; lia|]. split; [|split].
  - intros t Ht.
    assert (Hin : t ∈ Complete.text_parts texts_by_selector).
    { eapply elem_of_sublist; [exact Ht | apply sublist_take]. }
    rewrite text_parts_filter in Hin. apply list_elem_of_In, filter_In in Hin as [Hin Hk].
    unfold Complete.keeps_block in Hk. rewrite !andb_true_iff in Hk.
    destruct Hk as (((_ & Hlo) & Hhi) & Hb).
    apply Nat.ltb_lt in Hlo, Hhi. split; [lia|]. split.
    + intros skip Hskip. apply negb_true_iff in Hb.
      rewrite <- not_true_iff_false, existsb_exists in Hb.
      destruct (Py.contains skip (Py.lower t)) eqn:Ec; [|reflexivity].
      exfalso. apply Hb. exists skip. split; [now apply list_elem_of_In | exact Ec].
    + apply list_elem_of_In, elem_of_concat in Hin as (l & H1 & H2).
      apply list_elem_of_fmap in H2 as (elements & -> & H2). now exists elements.
  - unfold Complete.ad_text.
    destruct (Complete.text_parts texts_by_selector); [tauto|]. split; discriminate.
  - intros t more Hk. unfold Complete.ad_text. rewrite text_parts_filter.
    cbn [map take concat app List.filter]. rewrite Hk. reflexivity.
Qed.
